(** * Unscented Kalman filter (src/ukf.cpp): a shallow embedding over the reals

    The filter computes on C++ [double]s through Eigen's dynamic vectors and
    matrices.  Here a [double] is a real number of the Standard Library:
    rounding, infinities and NaN are outside the model.  Wherever a statement
    depends on a divisor being non-zero, that condition is written in the
    statement or follows from its hypotheses.  Timestamps ([long long]) are
    integers; their difference is taken without overflow.

    A method of the estimator is a function from the estimator before the
    call to the estimator after it.  The methods return [void] and raise
    nothing; a call that runs into one of Eigen's size or index assertions
    yields no estimator ([None]). *)

From Stdlib Require Import Reals Lra Lia List ZArith Bool PeanoNat.
Import ListNotations.
Open Scope R_scope.

(** ** The part of Eigen the filter uses

    The Eigen headers and the two headers of the filter (ukf.h and
    measurement_package.h) lie outside src/ukf.cpp. *)

Module Eigen.

(** A [VectorXd] or [MatrixXd] whose size the constructor fixes is the family
    of its coefficients; only the indices below the size are meaningful. *)
Definition VectorXd := nat -> R.
Definition MatrixXd := nat -> nat -> R.

(** [for (int i = 0; i < n; ++i) acc = body(i, acc);] *)
Fixpoint for_loop {A : Type} (n : nat) (body : nat -> A -> A) (acc : A) : A :=
  match n with
  | O => acc
  | S k => body k (for_loop k body acc)
  end.

(** Sum of the first [n] terms of a family, the inner product of Eigen's
    matrix products. *)
Fixpoint sum_upto (n : nat) (f : nat -> R) : R :=
  match n with
  | O => 0
  | S k => sum_upto k f + f k
  end.

Definition vfill (c : R) : VectorXd := fun _ => c.
Definition mfill (c : R) : MatrixXd := fun _ _ => c.
Definition vadd (a b : VectorXd) : VectorXd := fun i => a i + b i.
Definition vsub (a b : VectorXd) : VectorXd := fun i => a i - b i.
Definition vscale (c : R) (a : VectorXd) : VectorXd := fun i => c * a i.
Definition madd (A B : MatrixXd) : MatrixXd := fun i j => A i j + B i j.
Definition msub (A B : MatrixXd) : MatrixXd := fun i j => A i j - B i j.
Definition mscale (c : R) (A : MatrixXd) : MatrixXd := fun i j => c * A i j.
Definition transpose (A : MatrixXd) : MatrixXd := fun i j => A j i.
Definition identity : MatrixXd := fun i j => if Nat.eqb i j then 1 else 0.

(** [A * B] where [A] has [m] columns and [B] has [m] rows. *)
Definition mmul (m : nat) (A B : MatrixXd) : MatrixXd :=
  fun i j => sum_upto m (fun k => A i k * B k j).

(** [A * v] where [A] has [m] columns. *)
Definition mvec (m : nat) (A : MatrixXd) (v : VectorXd) : VectorXd :=
  fun i => sum_upto m (fun k => A i k * v k).

(** [a * b.transpose()] *)
Definition outer (a b : VectorXd) : MatrixXd := fun i j => a i * b j.

(** [M.col(c)], and the assignments [v(k) = a], [M.col(c) = v]. *)
Definition col (M : MatrixXd) (c : nat) : VectorXd := fun r => M r c.
Definition vset (v : VectorXd) (k : nat) (a : R) : VectorXd :=
  fun i => if Nat.eqb i k then a else v i.
Definition set_col (M : MatrixXd) (c : nat) (v : VectorXd) : MatrixXd :=
  fun r c' => if Nat.eqb c' c then v r else M r c'.
Definition mset (M : MatrixXd) (r c : nat) (a : R) : MatrixXd :=
  fun i j => if Nat.eqb i r && Nat.eqb j c then a else M i j.

(** The comma initialiser [M << a, b, ...;] of a matrix with [cols] columns:
    the coefficients are given row after row. *)
Definition comma_init (cols : nat) (l : list R) : MatrixXd :=
  fun i j => if Nat.ltb j cols then nth (i * cols + j) l 0 else 0.

(** A vector whose size the caller chose, such as the raw measurements.
    [coeff v i] is [v(i)]; outside the vector Eigen's index assertion fails
    (the read is undefined when assertions are compiled out): no value.
    [sized n v] is [v] seen as a vector of size [n] in a coefficient-wise
    operation with another vector of that size; Eigen asserts that the sizes
    agree. *)
Definition coeff (v : list R) (i : nat) : option R := nth_error v i.
Definition sized (n : nat) (v : list R) : option VectorXd :=
  if Nat.eqb (length v) n then Some (fun i => nth i v 0) else None.

(** Determinant of a 2x2 matrix. *)
Definition det2 (A : MatrixXd) : R :=
  A 0%nat 0%nat * A 1%nat 1%nat - A 0%nat 1%nat * A 1%nat 0%nat.

(** Modelled from the spec: [A.inverse()] of Eigen for the 2x2 innovation
    covariance of the lidar update, the inverse of the matrix, undefined for a
    singular one.  Eigen reports no status; for a non-zero determinant the
    inverse is the adjugate over the determinant, and for a zero determinant
    the value below carries no meaning (the C++ result is not finite). *)
Definition inverse2 (A : MatrixXd) : MatrixXd :=
  fun i j =>
    (if Nat.eqb i j then A (1 - i)%nat (1 - j)%nat else - A i j) / det2 A.

(** Signed minor of a 3x3 matrix at row [i] and column [j] (the indices of
    the other two rows and columns are taken cyclically, which gives the
    sign), and determinant by the first row. *)
Definition minor3 (A : MatrixXd) (i j : nat) : R :=
  A ((i + 1) mod 3)%nat ((j + 1) mod 3)%nat * A ((i + 2) mod 3)%nat ((j + 2) mod 3)%nat
  - A ((i + 1) mod 3)%nat ((j + 2) mod 3)%nat * A ((i + 2) mod 3)%nat ((j + 1) mod 3)%nat.
Definition det3 (A : MatrixXd) : R :=
  sum_upto 3 (fun j => A 0%nat j * minor3 A 0 j).

(** Modelled from the spec: [A.inverse()] of Eigen for the 3x3 innovation
    covariance of the radar update, under the same convention as [inverse2]. *)
Definition inverse3 (A : MatrixXd) : MatrixXd :=
  fun i j => minor3 A j i / det3 A.

(** What [info()] of a decomposition returns, and a decomposition: the
    matrix it stores and its status. *)
Inductive ComputationInfo := Success | NumericalIssue.

Record LLT := { m_matrix : MatrixXd; m_info : ComputationInfo }.

(** The pivot of column [k], [A(k,k) - |row k left of k|^2]. *)
Definition llt_pivot (k : nat) (mat : MatrixXd) : R :=
  mat k k - sum_upto k (fun j => mat k j * mat k j).

(** Column [k] with a positive pivot [x]: the diagonal becomes [sqrt x] and
    the column below it is reduced by the columns on its left and divided by
    [sqrt x]. *)
Definition llt_column (size k : nat) (mat : MatrixXd) : MatrixXd :=
  fun i j =>
    if Nat.eqb j k then
      if Nat.eqb i k then sqrt (llt_pivot k mat)
      else if Nat.ltb k i && Nat.ltb i size then
        (mat i k - sum_upto k (fun l => mat i l * mat k l)) / sqrt (llt_pivot k mat)
      else mat i j
    else mat i j.

(** One turn of the loop over the columns.  The second component of the loop
    state is the column at which the routine gave up, if any (the C++ routine
    returns that index, or -1 at the end). *)
Definition llt_step (size k : nat) (st : MatrixXd * option nat) : MatrixXd * option nat :=
  match snd st with
  | Some _ => st
  | None =>
      if Rle_dec (llt_pivot k (fst st)) 0 then (fst st, Some k)
      else (llt_column size k (fst st), None)
  end.

Definition llt_unblocked (size : nat) (mat : MatrixXd) : MatrixXd * option nat :=
  for_loop size (llt_step size) (mat, None).

(** Modelled from the spec: [A.llt()] of Eigen, the lower triangular matrix
    square root (Cholesky factor) of a positive definite matrix, which fails
    on a matrix that is not positive definite.  The factor is computed column
    by column on the lower triangle, as Eigen's unblocked routine does; a
    pivot that is not positive is the failure, recorded as [NumericalIssue].
    Lemma [llt_of_product] shows that the factor of [L L^T] is [L]. *)
Definition llt (size : nat) (A : MatrixXd) : LLT :=
  let r := llt_unblocked size A in
  {| m_matrix := fst r;
     m_info := match snd r with None => Success | Some _ => NumericalIssue end |}.

(** [.matrixL()]: the lower triangular view of the stored matrix, whatever
    [info()] says. *)
Definition matrixL (d : LLT) : MatrixXd :=
  fun i j => if Nat.leb j i then m_matrix d i j else 0.

End Eigen.
Import Eigen.

(** ** Constants fixed by the constructor [UKF::UKF()] *)

Definition n_x_ : nat := 5.
Definition n_aug_ : nat := 7.
Definition n_z_ : nat := 3.

(** [lambda_ = 3 - n_aug_]: integer arithmetic on [n_aug_], stored in a
    [double].  Modelled from the spec: the types of the two members are
    declared in ukf.h; the spec's weights -4/3 and 1/6 are those of a
    floating-point [lambda_]. *)
Definition lambda_ : R := IZR (3 - Z.of_nat n_aug_).

Definition std_a_ : R := 2.
Definition std_yawdd_ : R := 2.
Definition std_laspx_ : R := 15 / 100.
Definition std_laspy_ : R := 15 / 100.
Definition std_radr_ : R := 3 / 10.
Definition std_radphi_ : R := 3 / 100.
Definition std_radrd_ : R := 3 / 10.

(** [weights_.fill(1/(2*(lambda_+n_aug_))); weights_(0) = lambda_/(lambda_+n_aug_);] *)
Definition weights_ : VectorXd :=
  vset (vfill (1 / (2 * (lambda_ + INR n_aug_)))) 0
       (lambda_ / (lambda_ + INR n_aug_)).

(** Number of sigma points, [2 * n_aug_ + 1]. *)
Definition n_sig : nat := 2 * n_aug_ + 1.


(** [Lidar_H_.fill(0.0); Lidar_H_(0, 0) = 1; Lidar_H_(1, 1) = 1;] *)
Definition Lidar_H_ : MatrixXd := mset (mset (mfill 0) 0 0 1) 1 1 1.

Definition Lidar_R_ : MatrixXd :=
  mset (mset (mfill 0) 0 0 (std_laspx_ * std_laspx_)) 1 1 (std_laspy_ * std_laspy_).

Definition Radar_R_ : MatrixXd :=
  comma_init n_z_
    [ std_radr_ * std_radr_; 0; 0;
      0; std_radphi_ * std_radphi_; 0;
      0; 0; std_radrd_ * std_radrd_ ].

(** ** Measurement records and the estimator *)

(** Modelled from the spec: the sensor type of measurement_package.h, the
    linear position sensor (lidar) or the nonlinear range, bearing and range
    rate sensor (radar). *)
Inductive SensorType := LASER | RADAR.

Definition SensorType_eqb (a b : SensorType) : bool :=
  match a, b with
  | LASER, LASER | RADAR, RADAR => true
  | _, _ => false
  end.

(** Modelled from the spec: the measurement record of measurement_package.h,
    a timestamp in integer microseconds, a sensor type and a raw measurement
    vector whose size the caller chose. *)
Record MeasurementPackage := {
  timestamp_ : Z;
  sensor_type_ : SensorType;
  raw_measurements_ : list R
}.

(** Modelled from the spec: the members of class [UKF] (declared in ukf.h)
    that change after construction, as ukf.cpp uses them, and the two fusion
    flags. *)
Record UKF := {
  is_initialized_ : bool;
  use_laser_ : bool;
  use_radar_ : bool;
  x_ : VectorXd;
  P_ : MatrixXd;
  Xsig_pred_ : MatrixXd;
  time_us_ : Z
}.

(** [UKF::UKF()].  The constructor allocates [x_], [P_] and [Xsig_pred_]
    without filling them and does not set [time_us_]: their first contents
    are whatever the storage held. *)
Definition UKF_new (x0 : VectorXd) (P0 Xsig0 : MatrixXd) (t0 : Z) : UKF :=
  {| is_initialized_ := false;
     use_laser_ := true;
     use_radar_ := true;
     x_ := x0;
     P_ := P0;
     Xsig_pred_ := Xsig0;
     time_us_ := t0 |}.

(** ** Angle normalisation

    [while (a > M_PI) a -= 2.*M_PI;  while (a < -M_PI) a += 2.*M_PI;]
    Each loop is run with a bound on its number of iterations; [turns a]
    iterations are enough for the loop to leave by its own test (lemmas
    [while_above_exit] and [while_below_exit]). *)

Fixpoint while_above (fuel : nat) (a : R) : R :=
  match fuel with
  | O => a
  | S f => if Rlt_dec PI a then while_above f (a - 2 * PI) else a
  end.

Fixpoint while_below (fuel : nat) (a : R) : R :=
  match fuel with
  | O => a
  | S f => if Rlt_dec a (- PI) then while_below f (a + 2 * PI) else a
  end.

Definition turns (a : R) : nat := Z.to_nat (up (Rabs a / (2 * PI))).

Definition normalize_angle (a : R) : R :=
  let a1 := while_above (turns a) a in
  while_below (turns a1) a1.

(** [v(k)] normalised in place. *)
Definition normalize_at (k : nat) (v : VectorXd) : VectorXd :=
  vset v k (normalize_angle (v k)).

(** ** Prediction *)

Definition x_aug (s : UKF) : VectorXd :=
  vset (vset (fun i => if Nat.ltb i 5 then x_ s i else 0) 5 0) 6 0.

(** [P_aug.fill(0.0); P_aug.topLeftCorner(5,5) = P_; P_aug(5,5) = ...; P_aug(6,6) = ...;] *)
Definition P_aug (s : UKF) : MatrixXd :=
  mset (mset (fun i j => if Nat.ltb i 5 && Nat.ltb j 5 then P_ s i j else 0)
             5 5 (std_a_ * std_a_))
       6 6 (std_yawdd_ * std_yawdd_).

Definition P_aug_root (s : UKF) : MatrixXd := matrixL (llt n_aug_ (P_aug s)).

(** [UKF::GenerateSigmaPoints]: the matrix written into [Xsig_aug]. *)
Definition GenerateSigmaPoints (s : UKF) (Xsig_aug : MatrixXd) : MatrixXd :=
  for_loop n_aug_
    (fun i X =>
       set_col
         (set_col X (i + 1)
            (vadd (x_aug s)
               (vscale (sqrt (lambda_ + INR n_aug_)) (col (P_aug_root s) i))))
         (i + 1 + n_aug_)
         (vsub (x_aug s)
            (vscale (sqrt (lambda_ + INR n_aug_)) (col (P_aug_root s) i))))
    (set_col Xsig_aug 0 (x_aug s)).

(** The two position updates of the motion model. *)
Definition curved_path (px py v yaw yawd delta_t : R) : R * R :=
  (px + v / yawd * (sin (yaw + yawd * delta_t) - sin yaw),
   py + v / yawd * (-1 * cos (yaw + yawd * delta_t) + cos yaw)).

Definition straight_line (px py v yaw delta_t : R) : R * R :=
  (px + v * cos yaw * delta_t,
   py + v * sin yaw * delta_t).

(** The body of the loop of [UKF::SigmaPointsPrediction] for one augmented
    sigma point [a]: the predicted column. *)
Definition predict_sigma_point (a : VectorXd) (delta_t : R) : VectorXd :=
  let px := a 0%nat in
  let py := a 1%nat in
  let v := a 2%nat in
  let yaw := a 3%nat in
  let yawd := a 4%nat in
  let nu_a := a 5%nat in
  let nu_yawdd := a 6%nat in
  let p :=
    if Rlt_dec (1 / 1000) (Rabs yawd)
    then curved_path px py v yaw yawd delta_t
    else straight_line px py v yaw delta_t in
  let v_pred := v in
  let yaw_pred := yaw + yawd * delta_t in
  let yawd_pred := yawd in
  let px_pred := fst p + 5 / 10 * delta_t * delta_t * cos yaw * nu_a in
  let py_pred := snd p + 5 / 10 * delta_t * delta_t * sin yaw * nu_a in
  let v_pred := v_pred + delta_t * nu_a in
  let yaw_pred := yaw_pred + 5 / 10 * delta_t * delta_t * nu_yawdd in
  let yawd_pred := yawd_pred + delta_t * nu_yawdd in
  vset (vset (vset (vset (vset (vfill 0) 0 px_pred) 1 py_pred) 2 v_pred)
          3 yaw_pred) 4 yawd_pred.

Definition with_Xsig_pred (s : UKF) (X : MatrixXd) : UKF :=
  {| is_initialized_ := is_initialized_ s;
     use_laser_ := use_laser_ s;
     use_radar_ := use_radar_ s;
     x_ := x_ s;
     P_ := P_ s;
     Xsig_pred_ := X;
     time_us_ := time_us_ s |}.

Definition with_estimate (s : UKF) (x : VectorXd) (P : MatrixXd) : UKF :=
  {| is_initialized_ := is_initialized_ s;
     use_laser_ := use_laser_ s;
     use_radar_ := use_radar_ s;
     x_ := x;
     P_ := P;
     Xsig_pred_ := Xsig_pred_ s;
     time_us_ := time_us_ s |}.

Definition with_time (s : UKF) (t : Z) : UKF :=
  {| is_initialized_ := is_initialized_ s;
     use_laser_ := use_laser_ s;
     use_radar_ := use_radar_ s;
     x_ := x_ s;
     P_ := P_ s;
     Xsig_pred_ := Xsig_pred_ s;
     time_us_ := t |}.

(** [UKF::SigmaPointsPrediction]: only the first five rows of a column of
    [Xsig_pred_] are written. *)
Definition SigmaPointsPrediction (s : UKF) (Xsig_aug : MatrixXd) (delta_t : R) : UKF :=
  with_Xsig_pred s
    (for_loop n_sig
       (fun i X =>
          fun r c =>
            if Nat.eqb c i && Nat.ltb r 5
            then predict_sigma_point (col Xsig_aug i) delta_t r
            else X r c)
       (Xsig_pred_ s)).

(** The state difference of the covariance loops: a column of the predicted
    sigma points minus the mean, its heading component normalised. *)
Definition x_diff (Xsig_pred : MatrixXd) (x : VectorXd) (i : nat) : VectorXd :=
  normalize_at 3 (vsub (col Xsig_pred i) x).

Definition predicted_mean (Xsig_pred : MatrixXd) : VectorXd :=
  for_loop n_sig
    (fun i x => vadd x (vscale (weights_ i) (col Xsig_pred i)))
    (vfill 0).

Definition predicted_covariance (Xsig_pred : MatrixXd) (x : VectorXd) : MatrixXd :=
  for_loop n_sig
    (fun i P =>
       madd P (mscale (weights_ i)
                 (outer (x_diff Xsig_pred x i) (x_diff Xsig_pred x i))))
    (mfill 0).

(** [UKF::PredictMeanAndCovariance] *)
Definition PredictMeanAndCovariance (s : UKF) : UKF :=
  let x := predicted_mean (Xsig_pred_ s) in
  with_estimate s x (predicted_covariance (Xsig_pred_ s) x).

(** [UKF::Prediction].  [Xsig_aug] is a fresh, unfilled 7x15 matrix; every
    one of its columns is written by [GenerateSigmaPoints]. *)
Definition Prediction (s : UKF) (delta_t : R) : UKF :=
  let Xsig_aug := GenerateSigmaPoints s (mfill 0) in
  PredictMeanAndCovariance (SigmaPointsPrediction s Xsig_aug delta_t).

(** ** Lidar update *)

Definition Lidar_S (s : UKF) : MatrixXd :=
  madd (mmul n_x_ (mmul n_x_ Lidar_H_ (P_ s)) (transpose Lidar_H_)) Lidar_R_.

Definition Lidar_K (s : UKF) : MatrixXd :=
  let Ht := transpose Lidar_H_ in
  let Si := inverse2 (Lidar_S s) in
  let PHt := mmul n_x_ (P_ s) Ht in
  mmul 2 PHt Si.

(** [UKF::UpdateLidar].  [raw_measurements_ - z_pred] needs a measurement of
    the size of [z_pred], two. *)
Definition UpdateLidar (s : UKF) (meas_package : MeasurementPackage) : option UKF :=
  let z_pred := mvec n_x_ Lidar_H_ (x_ s) in
  match sized 2 (raw_measurements_ meas_package) with
  | None => None
  | Some z =>
      let y := vsub z z_pred in
      let K := Lidar_K s in
      Some (with_estimate s
              (vadd (x_ s) (mvec 2 K y))
              (mmul n_x_ (msub identity (mmul 2 K Lidar_H_)) (P_ s)))
  end.

(** ** Radar update *)

(** [atan2] of the C library, on the reals. *)
Definition atan2 (y x : R) : R :=
  match total_order_T x 0 with
  | inleft (left _) (* x < 0 *) =>
      if Rle_dec 0 y then atan (y / x) + PI else atan (y / x) - PI
  | inleft (right _) (* x = 0 *) =>
      match total_order_T y 0 with
      | inleft (left _) => - (PI / 2)
      | inleft (right _) => 0
      | inright _ => PI / 2
      end
  | inright _ (* 0 < x *) => atan (y / x)
  end.

(** [sqrt(p_x*p_x + p_y*p_y)], the range and the divisor of the range rate. *)
Definition radar_range (p_x p_y : R) : R := sqrt (p_x * p_x + p_y * p_y).

(** The measurement model applied to one predicted sigma point. *)
Definition radar_measurement_model (p : VectorXd) : VectorXd :=
  let p_x := p 0%nat in
  let p_y := p 1%nat in
  let v := p 2%nat in
  let yaw := p 3%nat in
  let v1 := cos yaw * v in
  let v2 := sin yaw * v in
  vset (vset (vset (vfill 0) 0 (radar_range p_x p_y))
          1 (atan2 p_y p_x))
       2 ((p_x * v1 + p_y * v2) / radar_range p_x p_y).

Definition Zsig (s : UKF) : MatrixXd :=
  for_loop n_sig
    (fun i Z => set_col Z i (radar_measurement_model (col (Xsig_pred_ s) i)))
    (mfill 0).

Definition z_pred (s : UKF) : VectorXd :=
  for_loop n_sig
    (fun i z => vadd z (vscale (weights_ i) (col (Zsig s) i)))
    (vfill 0).

(** The measurement residual of the covariance loops, its bearing component
    normalised. *)
Definition z_diff (s : UKF) (i : nat) : VectorXd :=
  normalize_at 1 (vsub (col (Zsig s) i) (z_pred s)).

Definition Radar_S (s : UKF) : MatrixXd :=
  madd
    (for_loop n_sig
       (fun i S => madd S (mscale (weights_ i) (outer (z_diff s i) (z_diff s i))))
       (mfill 0))
    Radar_R_.

Definition Radar_Tc (s : UKF) : MatrixXd :=
  for_loop n_sig
    (fun i Tc =>
       madd Tc (mscale (weights_ i)
                  (outer (x_diff (Xsig_pred_ s) (x_ s) i) (z_diff s i))))
    (mfill 0).

Definition Radar_K (s : UKF) : MatrixXd :=
  mmul n_z_ (Radar_Tc s) (inverse3 (Radar_S s)).

(** The final residual [raw_measurements_ - z_pred], bearing normalised. *)
Definition radar_residual (s : UKF) (z : VectorXd) : VectorXd :=
  normalize_at 1 (vsub z (z_pred s)).

(** [UKF::UpdateRadar].  [raw_measurements_ - z_pred] needs a measurement of
    the size of [z_pred], three. *)
Definition UpdateRadar (s : UKF) (meas_package : MeasurementPackage) : option UKF :=
  match sized n_z_ (raw_measurements_ meas_package) with
  | None => None
  | Some z =>
      let K := Radar_K s in
      let S := Radar_S s in
      Some (with_estimate s
              (vadd (x_ s) (mvec n_z_ K (radar_residual s z)))
              (msub (P_ s) (mmul n_z_ (mmul n_z_ K S) (transpose K))))
  end.

(** ** Processing a measurement *)

(** [(meas_package.timestamp_ - time_us_) / 1000000.0] *)
Definition elapsed (s : UKF) (meas_package : MeasurementPackage) : R :=
  IZR (timestamp_ meas_package - time_us_ s) / 1000000.

(** The [else] branch of [UKF::ProcessMeasurement]: the first measurement. *)
Definition initialize (s : UKF) (meas_package : MeasurementPackage) : option UKF :=
  let x0 := vfill 0 in
  match coeff (raw_measurements_ meas_package) 0,
        coeff (raw_measurements_ meas_package) 1 with
  | Some r0, Some r1 =>
      let '(x, P) :=
        match sensor_type_ meas_package with
        | LASER =>
            (vset (vset x0 0 r0) 1 r1,
             comma_init n_x_
               [ std_laspx_ * std_laspx_; 0; 0; 0; 0;
                 0; std_laspy_ * std_laspy_; 0; 0; 0;
                 0; 0; 1; 0; 0;
                 0; 0; 0; 1; 0;
                 0; 0; 0; 0; 1 ])
        | RADAR =>
            let rho := r0 in
            let phi := r1 in
            (vset (vset x0 0 (rho * cos phi)) 1 (rho * sin phi),
             comma_init n_x_
               [ (std_radr_ + std_radphi_) * (std_radr_ + std_radphi_); 0; 0; 0; 0;
                 0; (std_radr_ + std_radphi_) * (std_radr_ + std_radphi_); 0; 0; 0;
                 0; 0; 1; 0; 0;
                 0; 0; 0; 1; 0;
                 0; 0; 0; 0; 1 ])
        end in
      Some {| is_initialized_ := true;
              use_laser_ := use_laser_ s;
              use_radar_ := use_radar_ s;
              x_ := x;
              P_ := P;
              Xsig_pred_ := Xsig_pred_ s;
              time_us_ := timestamp_ meas_package |}
  | _, _ => None
  end.

(** The correction step chosen by the sensor type and the fusion flags. *)
Definition correct (s : UKF) (meas_package : MeasurementPackage) : option UKF :=
  if SensorType_eqb (sensor_type_ meas_package) LASER && use_laser_ s then
    UpdateLidar s meas_package
  else if SensorType_eqb (sensor_type_ meas_package) RADAR && use_radar_ s then
    UpdateRadar s meas_package
  else Some s.

(** [UKF::ProcessMeasurement].  [None]: the call ran into one of Eigen's size
    or index assertions and yields no estimator state. *)
Definition ProcessMeasurement (s : UKF) (meas_package : MeasurementPackage) : option UKF :=
  if is_initialized_ s then
    let delta_t := elapsed s meas_package in
    let s1 := Prediction s delta_t in
    let s2 := with_time s1 (timestamp_ meas_package) in
    correct s2 meas_package
  else
    initialize s meas_package.

(** ** Properties of covariance matrices *)

Definition symmetric (n : nat) (P : MatrixXd) : Prop :=
  forall i j, (i < n)%nat -> (j < n)%nat -> P i j = P j i.

(** The quadratic form [v^T P v]. *)
Definition quadratic_form (n : nat) (P : MatrixXd) (v : VectorXd) : R :=
  sum_upto n (fun i => sum_upto n (fun j => v i * P i j * v j)).

Definition positive_semidefinite (n : nat) (P : MatrixXd) : Prop :=
  forall v, 0 <= quadratic_form n P v.

Definition covariance_ok (P : MatrixXd) : Prop :=
  symmetric n_x_ P /\ positive_semidefinite n_x_ P.

(** ** Vocabulary of the statements *)

(** The fusion flag of the sensor type of a measurement. *)
Definition fusion_enabled (s : UKF) (m : MeasurementPackage) : bool :=
  match sensor_type_ m with
  | LASER => use_laser_ s
  | RADAR => use_radar_ s
  end.

(** The number of components a measurement of a sensor type carries. *)
Definition expected_size (t : SensorType) : nat :=
  match t with
  | LASER => 2
  | RADAR => 3
  end.

(** The initialised branch of [ProcessMeasurement] run with elapsed time
    [delta_t]. *)
Definition processed_with (s : UKF) (m : MeasurementPackage) (delta_t : R) : option UKF :=
  correct (with_time (Prediction s delta_t) (timestamp_ m)) m.

(** The covariance [UpdateLidar] leaves, whatever the measurement. *)
Definition lidar_covariance (s : UKF) : MatrixXd :=
  mmul n_x_ (msub identity (mmul 2 (Lidar_K s) Lidar_H_)) (P_ s).

(** The covariance [UpdateRadar] leaves, whatever the measurement. *)
Definition radar_covariance (s : UKF) : MatrixXd :=
  msub (P_ s)
       (mmul n_z_ (mmul n_z_ (Radar_K s) (Radar_S s)) (transpose (Radar_K s))).

(** The quotients of the radar update are defined: no predicted sigma point
    lies at the origin and the innovation covariance is invertible. *)
Definition radar_defined (s : UKF) : Prop :=
  (forall i, (i < n_sig)%nat ->
     radar_range (Xsig_pred_ s 0%nat i) (Xsig_pred_ s 1%nat i) <> 0) /\
  det3 (Radar_S s) <> 0.

(** A 5-component state seen as an augmented sigma point without noise. *)
Definition noise_free (p : VectorXd) : VectorXd :=
  fun i => if Nat.ltb i 5 then p i else 0.

(** [L] is a Cholesky factor of the augmented covariance of [s]: lower
    triangular with a positive diagonal, and [P_aug = L L^T]. *)
Definition cholesky_factor (s : UKF) (L : MatrixXd) : Prop :=
  (forall i j, (i < j)%nat -> (j < n_aug_)%nat -> L i j = 0) /\
  (forall j, (j < n_aug_)%nat -> 0 < L j j) /\
  (forall i j, (i < n_aug_)%nat -> (j < n_aug_)%nat ->
     P_aug s i j = sum_upto n_aug_ (fun l => L i l * L j l)).

(** The weighted sum over a symmetric set of 15 points: the centre and seven
    pairs [centre + q a j], [centre - q a j]. *)
Definition spread (centre q : R) (a : nat -> R) (c : nat) : R :=
  if Nat.eqb c 0 then centre
  else if Nat.leb c n_aug_ then centre + q * a (c - 1)%nat
       else centre - q * a (c - 1 - n_aug_)%nat.

(** Every predicted heading is within half a turn of the mean heading, so the
    normalisation of the heading differences changes none of them. *)
Definition headings_within_half_turn (s : UKF) : Prop :=
  forall i, (i < n_sig)%nat ->
    - PI <= Xsig_pred_ s 3%nat i - x_ s 3%nat <= PI.

(** ** Estimators and measurements used as examples *)

(** Predicted sigma points with heading [pi] in column 1, [-pi] in column 8
    and zero elsewhere. *)
Definition boundary_headings : MatrixXd :=
  fun r c =>
    if Nat.eqb r 3 then
      if Nat.eqb c 1 then PI else if Nat.eqb c 8 then - PI else 0
    else 0.

(** An initialised estimator with yaw rate 1 and reference time one second. *)
Definition turning_estimator : UKF :=
  {| is_initialized_ := true; use_laser_ := true; use_radar_ := true;
     x_ := vset (vfill 0) 4 1; P_ := identity; Xsig_pred_ := mfill 0;
     time_us_ := 1000000 |}.

(** A lidar measurement stamped at time zero. *)
Definition stale_measurement : MeasurementPackage :=
  {| timestamp_ := 0; sensor_type_ := LASER; raw_measurements_ := [0; 0] |}.



(** A lidar measurement one second after time zero. *)
Definition next_lidar_measurement : MeasurementPackage :=
  {| timestamp_ := 1000000; sensor_type_ := LASER; raw_measurements_ := [0; 0] |}.



(** A lower triangular 7x7 matrix, to be divided by sqrt 3: heading strongly
    correlated with position and speed. *)
Definition example_M : MatrixXd :=
  fun i j =>
    match i, j with
    | 0%nat, 0%nat | 1%nat, 1%nat | 2%nat, 2%nat => 1
    | 3%nat, 0%nat | 3%nat, 1%nat | 3%nat, 2%nat | 3%nat, 3%nat => PI
    | 4%nat, 4%nat => 1 / 1000
    | 5%nat, 5%nat | 6%nat, 6%nat => 2 * sqrt 3
    | _, _ => 0
    end.

Definition example_L : MatrixXd := fun i j => example_M i j / sqrt 3.

(** The symmetric positive definite covariance [L L^T], [L] being the
    upper-left 5x5 block of [example_L]. *)
Definition correlated_covariance : MatrixXd :=
  fun i j =>
    match i, j with
    | 0%nat, 0%nat | 1%nat, 1%nat | 2%nat, 2%nat => 1 / 3
    | 3%nat, 0%nat | 3%nat, 1%nat | 3%nat, 2%nat
    | 0%nat, 3%nat | 1%nat, 3%nat | 2%nat, 3%nat => PI / 3
    | 3%nat, 3%nat => 4 * (PI * PI) / 3
    | 4%nat, 4%nat => 1 / 1000 * (1 / 1000) / 3
    | _, _ => 0
    end.

(** An estimator moving at speed 2 along the x axis with that covariance. *)
Definition correlated_estimator : UKF :=
  {| is_initialized_ := true; use_laser_ := true; use_radar_ := true;
     x_ := vset (vfill 0) 2 2; P_ := correlated_covariance;
     Xsig_pred_ := mfill 0; time_us_ := 0 |}.

(** The x position of the 15 sigma points of [correlated_estimator] after a
    prediction over one second. *)
Definition correlated_predicted_px : list R :=
  [2; -1; -2; -3; -2; 2; 2 + sqrt 3; 2; -3; -2; -1; -2; 2; 2 - sqrt 3; 2].

(** The Cholesky factor of the augmented covariance right after the first
    measurement: the standard deviations on the diagonal. *)
Definition initial_root (kind : SensorType) : MatrixXd :=
  fun i j =>
    if Nat.eqb i j then
      match i with
      | 0%nat | 1%nat =>
          match kind with
          | LASER => std_laspx_
          | RADAR => std_radr_ + std_radphi_
          end
      | 2%nat | 3%nat | 4%nat => 1
      | 5%nat => std_a_
      | 6%nat => std_yawdd_
      | _ => 0
      end
    else 0.

(** The estimator a first lidar measurement (1, 2) at time 0 leaves. *)
Definition first_lidar_estimate : UKF :=
  {| is_initialized_ := true; use_laser_ := true; use_radar_ := true;
     x_ := vset (vset (vfill 0) 0 1) 1 2;
     P_ := comma_init n_x_
             [ std_laspx_ * std_laspx_; 0; 0; 0; 0;
               0; std_laspy_ * std_laspy_; 0; 0; 0;
               0; 0; 1; 0; 0;
               0; 0; 0; 1; 0;
               0; 0; 0; 0; 1 ];
     Xsig_pred_ := mfill 0;
     time_us_ := 0 |}.

(** A lower triangular 7x7 matrix, to be divided by sqrt 3: the heading is
    uncertain by half a turn and correlated with the x position and the
    speed. *)
Definition uncertain_heading_M : MatrixXd :=
  fun i j =>
    match i, j with
    | 0%nat, 0%nat => 1 / 2
    | 1%nat, 1%nat => 3 / 4
    | 2%nat, 2%nat | 4%nat, 4%nat => 1
    | 3%nat, 0%nat | 3%nat, 2%nat | 3%nat, 3%nat => PI
    | 5%nat, 5%nat | 6%nat, 6%nat => 2 * sqrt 3
    | _, _ => 0
    end.

Definition uncertain_heading_L : MatrixXd :=
  fun i j => uncertain_heading_M i j / sqrt 3.

(** The symmetric positive definite covariance [L L^T], [L] being the
    upper-left 5x5 block of [uncertain_heading_L]. *)
Definition uncertain_heading_covariance : MatrixXd :=
  fun i j =>
    match i, j with
    | 0%nat, 0%nat => 1 / 12
    | 1%nat, 1%nat => 3 / 16
    | 2%nat, 2%nat | 4%nat, 4%nat => 1 / 3
    | 0%nat, 3%nat | 3%nat, 0%nat => PI / 6
    | 2%nat, 3%nat | 3%nat, 2%nat => PI / 3
    | 3%nat, 3%nat => PI * PI
    | _, _ => 0
    end.

(** An estimator at (1, 0) moving at speed 1 along the x axis with that
    covariance, and a radar measurement with the time stamp of the estimator:
    [ProcessMeasurement] predicts over no elapsed time and applies
    [UpdateRadar] to [uncertain_heading_predicted]. *)
Definition uncertain_heading_estimator : UKF :=
  {| is_initialized_ := true; use_laser_ := true; use_radar_ := true;
     x_ := vset (vset (vfill 0) 0 1) 2 1; P_ := uncertain_heading_covariance;
     Xsig_pred_ := mfill 0; time_us_ := 0 |}.

Definition simultaneous_radar_measurement : MeasurementPackage :=
  {| timestamp_ := 0; sensor_type_ := RADAR; raw_measurements_ := [1; 0; 0] |}.

Definition uncertain_heading_predicted : UKF :=
  with_time (Prediction uncertain_heading_estimator 0) 0.

(** The rows of the 15 predicted sigma points of [uncertain_heading_predicted]
    that the radar model reads (x, y, speed, heading), and their images in
    measurement space (range, bearing, range rate). *)
Definition uncertain_heading_points : list (list R) :=
  [ [1; 3 / 2; 1; 1; 1; 1; 1; 1; 1 / 2; 1; 1; 1; 1; 1; 1];
    [0; 0; 3 / 4; 0; 0; 0; 0; 0; 0; - (3 / 4); 0; 0; 0; 0; 0];
    [1; 1; 1; 2; 1; 1; 1; 1; 1; 1; 0; 1; 1; 1; 1];
    [0; PI; 0; PI; PI; 0; 0; 0; - PI; 0; - PI; - PI; 0; 0; 0] ].

Definition uncertain_heading_images : list (list R) :=
  [ [1; 3 / 2; 5 / 4; 1; 1; 1; 1; 1; 1 / 2; 5 / 4; 1; 1; 1; 1; 1];
    [0; 0; atan (3 / 4); 0; 0; 0; 0; 0; 0; - atan (3 / 4); 0; 0; 0; 0; 0];
    [1; -1; 4 / 5; -2; -1; 1; 1; 1; -1; 4 / 5; 0; -1; 1; 1; 1] ].

(** ** Weights *)

Lemma lambda_value : lambda_ = -4.
Proof. unfold lambda_, n_aug_. simpl. reflexivity. Qed.

Lemma lambda_plus_n_aug : lambda_ + INR n_aug_ = 3.
Proof. rewrite lambda_value. unfold n_aug_. simpl. lra. Qed.

Lemma weights_center : weights_ 0%nat = - 4 / 3.
Proof.
  unfold weights_, vset. cbn [Nat.eqb].
  rewrite lambda_plus_n_aug, lambda_value. reflexivity.
Qed.

Lemma weights_spread (i : nat) : i <> 0%nat -> weights_ i = 1 / 6.
Proof.
  intros Hi. unfold weights_, vset, vfill.
  destruct (Nat.eqb_spec i 0) as [E | _]; [contradiction |].
  rewrite lambda_plus_n_aug. lra.
Qed.

(** C2: the constructor computes 15 weights, the centre one
    lambda/(lambda + n_aug) and 14 equal spread weights 1/(2 (lambda + n_aug)),
    with lambda = 3 - n_aug = -4 for n_aug = 7; so the centre weight is -4/3,
    every spread weight is 1/6, and the 15 weights sum to 1. *)
Theorem weights_constructed :
  n_aug_ = 7%nat /\ n_sig = 15%nat /\
  lambda_ = 3 - INR n_aug_ /\ lambda_ = -4 /\
  weights_ 0%nat = lambda_ / (lambda_ + INR n_aug_) /\
  weights_ 0%nat = - 4 / 3 /\
  (forall i, (1 <= i < n_sig)%nat ->
     weights_ i = 1 / (2 * (lambda_ + INR n_aug_)) /\ weights_ i = 1 / 6) /\
  sum_upto n_sig weights_ = 1.
Proof.
  repeat apply conj.
  - reflexivity.
  - reflexivity.
  - rewrite lambda_value. unfold n_aug_. simpl. lra.
  - apply lambda_value.
  - reflexivity.
  - apply weights_center.
  - intros i [H _]. split.
    + unfold weights_, vset, vfill.
      destruct (Nat.eqb_spec i 0) as [E | _]; [lia | reflexivity].
    + apply weights_spread. lia.
  - unfold n_sig, n_aug_. cbn [Nat.mul Nat.add sum_upto].
    rewrite weights_center.
    rewrite !weights_spread by discriminate. lra.
Qed.

(** ** Bounds on pi *)

Lemma PI_gt_31 : 31 / 10 < PI.
Proof.
  destruct (PI_2_3_7_ineq 1) as [H _].
  unfold PI_2_3_7_tg, tg_alt, Ratan_seq in H. simpl in H.
  lra.
Qed.

Lemma PI_bounds : 31 / 10 < PI <= 4.
Proof. split; [apply PI_gt_31 | apply PI_4]. Qed.

(** ** Loops *)

Lemma sum_upto_ext (n : nat) (f g : nat -> R) :
  (forall i, (i < n)%nat -> f i = g i) -> sum_upto n f = sum_upto n g.
Proof.
  induction n as [| n IH]; intros H; simpl; [reflexivity |].
  rewrite IH by (intros; apply H; lia). rewrite H by lia. reflexivity.
Qed.

Lemma vadd_at (a b : VectorXd) (k : nat) : vadd a b k = a k + b k.
Proof. reflexivity. Qed.

Lemma vscale_at (c : R) (a : VectorXd) (k : nat) : vscale c a k = c * a k.
Proof. reflexivity. Qed.

Lemma madd_at (A B : MatrixXd) (r c : nat) : madd A B r c = A r c + B r c.
Proof. reflexivity. Qed.

Lemma mscale_outer_at (w : R) (a b : VectorXd) (r c : nat) :
  mscale w (outer a b) r c = w * (a r * b c).
Proof. reflexivity. Qed.

Lemma for_loop_vadd (n : nat) (w : VectorXd) (X : MatrixXd) (k : nat) :
  for_loop n (fun i x => vadd x (vscale (w i) (col X i))) (vfill 0) k
  = sum_upto n (fun i => w i * X k i).
Proof.
  induction n as [| n IH]; simpl; [reflexivity |].
  rewrite vadd_at, vscale_at, IH. reflexivity.
Qed.

Lemma for_loop_madd (n : nat) (w : VectorXd) (a b : nat -> VectorXd) (r c : nat) :
  for_loop n (fun i M => madd M (mscale (w i) (outer (a i) (b i)))) (mfill 0) r c
  = sum_upto n (fun i => w i * (a i r * b i c)).
Proof.
  induction n as [| n IH]; simpl; [reflexivity |].
  rewrite madd_at, mscale_outer_at, IH. reflexivity.
Qed.

(** ** Angle normalisation: the loops terminate and what they return *)

Lemma while_above_exit (fuel : nat) (a : R) :
  a <= PI + 2 * PI * INR fuel -> while_above fuel a <= PI.
Proof.
  revert a. induction fuel as [| f IH]; intros a H.
  - simpl in *. lra.
  - cbn [while_above]. destruct (Rlt_dec PI a) as [Hgt | Hle]; [| lra].
    apply IH. rewrite S_INR in H. lra.
Qed.

Lemma while_below_exit (fuel : nat) (a : R) :
  - PI - 2 * PI * INR fuel <= a -> - PI <= while_below fuel a.
Proof.
  revert a. induction fuel as [| f IH]; intros a H.
  - simpl in *. lra.
  - cbn [while_below]. destruct (Rlt_dec a (- PI)) as [Hlt | Hge]; [| lra].
    apply IH. rewrite S_INR in H. lra.
Qed.

Lemma while_above_idle (fuel : nat) (a : R) : a <= PI -> while_above fuel a = a.
Proof.
  intros H. destruct fuel as [| f]; [reflexivity |]. cbn [while_above].
  destruct (Rlt_dec PI a); [lra | reflexivity].
Qed.

Lemma while_below_idle (fuel : nat) (a : R) : - PI <= a -> while_below fuel a = a.
Proof.
  intros H. destruct fuel as [| f]; [reflexivity |]. cbn [while_below].
  destruct (Rlt_dec a (- PI)); [lra | reflexivity].
Qed.

Lemma while_below_le (fuel : nat) (a : R) : a <= PI -> while_below fuel a <= PI.
Proof.
  pose proof PI_RGT_0 as Hpi.
  revert a. induction fuel as [| f IH]; intros a H; [exact H |].
  cbn [while_below]. destruct (Rlt_dec a (- PI)); [apply IH; lra | exact H].
Qed.

Lemma turns_enough (a : R) : Rabs a < 2 * PI * INR (turns a).
Proof.
  pose proof PI_RGT_0 as Hpi.
  unfold turns.
  destruct (archimed (Rabs a / (2 * PI))) as [Hup _].
  assert (Hq : 0 <= Rabs a / (2 * PI)).
  { apply Rmult_le_pos; [apply Rabs_pos |].
    left. apply Rinv_0_lt_compat. lra. }
  assert (Hz : (0 <= up (Rabs a / (2 * PI)))%Z).
  { apply le_IZR. lra. }
  rewrite INR_IZR_INZ, Z2Nat.id by exact Hz.
  apply Rmult_lt_reg_r with (r := / (2 * PI)).
  - apply Rinv_0_lt_compat. lra.
  - replace (2 * PI * IZR (up (Rabs a / (2 * PI))) * / (2 * PI))
      with (IZR (up (Rabs a / (2 * PI)))) by (field; lra).
    exact Hup.
Qed.

(** The bound [turns] is always enough: both loops of [normalize_angle]
    leave by their own test, and the result lies in [[-pi, pi]]. *)
Lemma normalize_angle_range (a : R) : - PI <= normalize_angle a <= PI.
Proof.
  pose proof PI_RGT_0 as Hpi.
  unfold normalize_angle.
  set (a1 := while_above (turns a) a).
  assert (H1 : a1 <= PI).
  { apply while_above_exit.
    pose proof (turns_enough a) as Ht. pose proof (Rle_abs a). lra. }
  split.
  - apply while_below_exit.
    pose proof (turns_enough a1) as Ht.
    pose proof (Rle_abs (- a1)) as Hn. rewrite Rabs_Ropp in Hn. lra.
  - apply while_below_le. exact H1.
Qed.

(** The unfolding of the two loops, free of the iteration bound. *)
Lemma while_above_fuel (f1 f2 : nat) (a : R) :
  a <= PI + 2 * PI * INR f1 -> a <= PI + 2 * PI * INR f2 ->
  while_above f1 a = while_above f2 a.
Proof.
  revert f2 a. induction f1 as [| f1 IH]; intros f2 a H1 H2.
  - simpl in H1. rewrite !while_above_idle by lra. reflexivity.
  - destruct f2 as [| f2].
    + simpl in H2. rewrite !while_above_idle by lra. reflexivity.
    + cbn [while_above]. destruct (Rlt_dec PI a); [| reflexivity].
      rewrite !S_INR in *. apply IH; lra.
Qed.

Lemma while_below_fuel (f1 f2 : nat) (a : R) :
  - PI - 2 * PI * INR f1 <= a -> - PI - 2 * PI * INR f2 <= a ->
  while_below f1 a = while_below f2 a.
Proof.
  revert f2 a. induction f1 as [| f1 IH]; intros f2 a H1 H2.
  - simpl in H1. rewrite !while_below_idle by lra. reflexivity.
  - destruct f2 as [| f2].
    + simpl in H2. rewrite !while_below_idle by lra. reflexivity.
    + cbn [while_below]. destruct (Rlt_dec a (- PI)); [| reflexivity].
      rewrite !S_INR in *. apply IH; lra.
Qed.

Lemma normalize_angle_inside (a : R) : - PI <= a <= PI -> normalize_angle a = a.
Proof.
  intros [Hlo Hhi]. unfold normalize_angle.
  rewrite (while_above_idle _ a Hhi). apply while_below_idle. exact Hlo.
Qed.

Lemma normalize_angle_above (a : R) :
  PI < a <= 3 * PI -> normalize_angle a = a - 2 * PI.
Proof.
  pose proof PI_RGT_0 as Hpi.
  intros [Hlo Hhi]. unfold normalize_angle.
  pose proof (turns_enough a) as Ht. pose proof (Rle_abs a) as Ha.
  rewrite (while_above_fuel (turns a) 1 a) by (simpl; lra).
  cbn [while_above]. destruct (Rlt_dec PI a); [| lra].
  apply while_below_idle. lra.
Qed.

Lemma normalize_angle_below (a : R) :
  - 3 * PI <= a < - PI -> normalize_angle a = a + 2 * PI.
Proof.
  pose proof PI_RGT_0 as Hpi.
  intros [Hlo Hhi]. unfold normalize_angle.
  rewrite (while_above_idle _ a) by lra.
  pose proof (turns_enough a) as Ht.
  pose proof (Rle_abs (- a)) as Ha. rewrite Rabs_Ropp in Ha.
  rewrite (while_below_fuel (turns a) 1 a) by (simpl; lra).
  cbn [while_below]. destruct (Rlt_dec a (- PI)); [| lra].
  reflexivity.
Qed.

(** The loops move an angle by whole turns. *)
Lemma while_above_whole_turns (fuel : nat) (a : R) :
  exists k : Z, while_above fuel a = a + IZR k * (2 * PI).
Proof.
  revert a. induction fuel as [| f IH]; intros a.
  - exists 0%Z. simpl. ring.
  - cbn [while_above]. destruct (Rlt_dec PI a) as [_ | _].
    + destruct (IH (a - 2 * PI)) as [k Hk]. exists (k - 1)%Z.
      rewrite Hk, minus_IZR. ring.
    + exists 0%Z. ring.
Qed.

Lemma while_below_whole_turns (fuel : nat) (a : R) :
  exists k : Z, while_below fuel a = a + IZR k * (2 * PI).
Proof.
  revert a. induction fuel as [| f IH]; intros a.
  - exists 0%Z. simpl. ring.
  - cbn [while_below]. destruct (Rlt_dec a (- PI)) as [_ | _].
    + destruct (IH (a + 2 * PI)) as [k Hk]. exists (k + 1)%Z.
      rewrite Hk, plus_IZR. ring.
    + exists 0%Z. ring.
Qed.

Lemma normalize_angle_whole_turns (a : R) :
  exists k : Z, normalize_angle a = a + IZR k * (2 * PI).
Proof.
  unfold normalize_angle.
  destruct (while_above_whole_turns (turns a) a) as [k1 H1].
  destruct (while_below_whole_turns (turns (while_above (turns a) a))
              (while_above (turns a) a)) as [k2 H2].
  exists (k1 + k2)%Z. rewrite H2, H1, plus_IZR. ring.
Qed.

Lemma normalize_at_range (k : nat) (v : VectorXd) :
  - PI <= normalize_at k v k <= PI.
Proof.
  unfold normalize_at, vset. rewrite Nat.eqb_refl. apply normalize_angle_range.
Qed.

Lemma predicted_mean_sum (X : MatrixXd) (k : nat) :
  predicted_mean X k = sum_upto n_sig (fun i => weights_ i * X k i).
Proof. apply for_loop_vadd. Qed.

Lemma predicted_covariance_sum (X : MatrixXd) (x : VectorXd) (r c : nat) :
  predicted_covariance X x r c
  = sum_upto n_sig (fun i => weights_ i * (x_diff X x i r * x_diff X x i c)).
Proof.
  unfold predicted_covariance.
  apply (for_loop_madd n_sig weights_ (x_diff X x) (x_diff X x)).
Qed.

Lemma Radar_S_sum (s : UKF) (r c : nat) :
  Radar_S s r c
  = sum_upto n_sig (fun i => weights_ i * (z_diff s i r * z_diff s i c))
    + Radar_R_ r c.
Proof.
  unfold Radar_S. rewrite madd_at.
  rewrite (for_loop_madd n_sig weights_ (z_diff s) (z_diff s)). reflexivity.
Qed.

Lemma Radar_Tc_sum (s : UKF) (r c : nat) :
  Radar_Tc s r c
  = sum_upto n_sig
      (fun i => weights_ i * (x_diff (Xsig_pred_ s) (x_ s) i r * z_diff s i c)).
Proof.
  unfold Radar_Tc.
  apply (for_loop_madd n_sig weights_ (x_diff (Xsig_pred_ s) (x_ s)) (z_diff s)).
Qed.

(** ** C4: angle differences *)

Lemma boundary_headings_mean : predicted_mean boundary_headings 3%nat = 0.
Proof.
  rewrite predicted_mean_sum. unfold n_sig, n_aug_.
  cbn [Nat.mul Nat.add sum_upto]. rewrite weights_center.
  rewrite !weights_spread by discriminate.
  unfold boundary_headings. cbn [Nat.eqb]. lra.
Qed.

(** C4, as stated, fails at the lower end of the interval: in the
    recombination of the sigma points [boundary_headings] the heading
    difference of column 8 is exactly [-pi], which the second loop leaves as
    it is; it does not lie in the half-open interval (-pi, pi]. *)
Lemma heading_difference_at_minus_pi :
  x_diff boundary_headings (predicted_mean boundary_headings) 8 3%nat = - PI
  /\ ~ (- PI < x_diff boundary_headings (predicted_mean boundary_headings) 8 3%nat <= PI).
Proof.
  pose proof PI_RGT_0 as Hpi.
  assert (E : x_diff boundary_headings (predicted_mean boundary_headings) 8 3%nat = - PI).
  { unfold x_diff, normalize_at, vset, vsub, col. cbn [Nat.eqb].
    rewrite boundary_headings_mean.
    unfold boundary_headings. cbn [Nat.eqb].
    rewrite normalize_angle_inside; lra. }
  split; [exact E |]. rewrite E. lra.
Qed.

(** C4, amended: every heading or bearing difference that enters a covariance,
    a cross-covariance or the final residual has been normalised into the
    closed interval [-pi, pi]: the heading component of the state differences
    of the recombination and of the radar cross-covariance, the bearing
    component of the measurement differences of the radar innovation
    covariance and cross-covariance, and the bearing component of the final
    radar residual; the normalised difference is the difference moved by a
    whole number of turns.  For headings 3.1 and -3.1 the normalised
    difference is 6.2 - 2 pi, of magnitude 2 pi - 6.2. *)
Theorem angle_differences_normalized :
  (forall a, - PI <= normalize_angle a <= PI /\
             exists k : Z, normalize_angle a = a + IZR k * (2 * PI)) /\
  (forall X x i,
     x_diff X x i 3%nat = normalize_angle (X 3%nat i - x 3%nat) /\
     - PI <= x_diff X x i 3%nat <= PI) /\
  (forall s r c,
     P_ (PredictMeanAndCovariance s) r c
     = sum_upto n_sig (fun i =>
         weights_ i * (x_diff (Xsig_pred_ s) (x_ (PredictMeanAndCovariance s)) i r
                       * x_diff (Xsig_pred_ s) (x_ (PredictMeanAndCovariance s)) i c))) /\
  (forall s i,
     z_diff s i 1%nat = normalize_angle (Zsig s 1%nat i - z_pred s 1%nat) /\
     - PI <= z_diff s i 1%nat <= PI) /\
  (forall s r c,
     Radar_S s r c
     = sum_upto n_sig (fun i => weights_ i * (z_diff s i r * z_diff s i c))
       + Radar_R_ r c) /\
  (forall s r c,
     Radar_Tc s r c
     = sum_upto n_sig (fun i =>
         weights_ i * (x_diff (Xsig_pred_ s) (x_ s) i r * z_diff s i c))) /\
  (forall s z,
     radar_residual s z 1%nat = normalize_angle (z 1%nat - z_pred s 1%nat) /\
     - PI <= radar_residual s z 1%nat <= PI) /\
  (forall s t a b c,
     exists s',
       UpdateRadar s {| timestamp_ := t; sensor_type_ := RADAR;
                        raw_measurements_ := [a; b; c] |} = Some s' /\
       forall k,
         x_ s' k
         = x_ s k + mvec n_z_ (Radar_K s)
                      (radar_residual s (fun i => nth i [a; b; c] 0)) k) /\
  normalize_angle (31 / 10 - (- 31 / 10)) = 62 / 10 - 2 * PI /\
  Rabs (normalize_angle (31 / 10 - (- 31 / 10))) = 2 * PI - 62 / 10 /\
  Rabs (normalize_angle (- 31 / 10 - 31 / 10)) = 2 * PI - 62 / 10.
Proof.
  pose proof PI_bounds as [Hlo Hhi].
  repeat apply conj.
  - intros a. split; [apply normalize_angle_range | apply normalize_angle_whole_turns].
  - intros X x i. split; [reflexivity | apply normalize_at_range].
  - intros s r c. apply predicted_covariance_sum.
  - intros s i. split; [reflexivity | apply normalize_at_range].
  - apply Radar_S_sum.
  - apply Radar_Tc_sum.
  - intros s z. split; [reflexivity | apply normalize_at_range].
  - intros s t a b c. eexists. split; [reflexivity |]. intros k. reflexivity.
  - rewrite normalize_angle_above by lra. lra.
  - rewrite normalize_angle_above by lra.
    rewrite Rabs_left by lra. lra.
  - rewrite normalize_angle_below by lra.
    rewrite Rabs_right by lra. lra.
Qed.

(** ** The first measurement *)

Lemma laser_initial_covariance (i j : nat) :
  (i < 5)%nat -> (j < 5)%nat ->
  comma_init n_x_
    [ std_laspx_ * std_laspx_; 0; 0; 0; 0;
      0; std_laspy_ * std_laspy_; 0; 0; 0;
      0; 0; 1; 0; 0;
      0; 0; 0; 1; 0;
      0; 0; 0; 0; 1 ] i j
  = if Nat.eqb i j then (if Nat.ltb i 2 then 225 / 10000 else 1) else 0.
Proof.
  intros Hi Hj. unfold comma_init, n_x_, std_laspx_, std_laspy_.
  do 5 (destruct i as [| i]; [do 5 (destruct j as [| j]; [cbn; lra |]); lia |]).
  lia.
Qed.

(** C7: on the first measurement, a lidar measurement with raw values
    (1.0, 2.0) sets the mean to (1, 2, 0, 0, 0) and the covariance to the
    diagonal matrix with diagonal (0.0225, 0.0225, 1, 1, 1), marks the
    estimator initialised and records the timestamp of the measurement. *)
Theorem first_lidar_measurement (s : UKF) (t : Z) :
  is_initialized_ s = false ->
  exists s',
    ProcessMeasurement s
      {| timestamp_ := t; sensor_type_ := LASER; raw_measurements_ := [1; 2] |}
    = Some s' /\
    x_ s' 0%nat = 1 /\ x_ s' 1%nat = 2 /\
    x_ s' 2%nat = 0 /\ x_ s' 3%nat = 0 /\ x_ s' 4%nat = 0 /\
    (forall i j, (i < 5)%nat -> (j < 5)%nat ->
       P_ s' i j
       = if Nat.eqb i j then (if Nat.ltb i 2 then 225 / 10000 else 1) else 0) /\
    is_initialized_ s' = true /\
    time_us_ s' = t.
Proof.
  intros Hs. unfold ProcessMeasurement. rewrite Hs.
  eexists. split; [reflexivity |].
  cbn [x_ P_ is_initialized_ time_us_ timestamp_].
  repeat apply conj; try reflexivity.
  apply laser_initial_covariance.
Qed.

Lemma first_lidar_measurement_witness :
  exists s',
    ProcessMeasurement (UKF_new (vfill 0) (mfill 0) (mfill 0) 0)
      {| timestamp_ := 1477010443000000; sensor_type_ := LASER;
         raw_measurements_ := [1; 2] |}
    = Some s' /\
    x_ s' 0%nat = 1 /\ x_ s' 1%nat = 2 /\
    x_ s' 2%nat = 0 /\ x_ s' 3%nat = 0 /\ x_ s' 4%nat = 0 /\
    (forall i j, (i < 5)%nat -> (j < 5)%nat ->
       P_ s' i j
       = if Nat.eqb i j then (if Nat.ltb i 2 then 225 / 10000 else 1) else 0) /\
    is_initialized_ s' = true /\
    time_us_ s' = 1477010443000000%Z.
Proof.
  apply (first_lidar_measurement (UKF_new (vfill 0) (mfill 0) (mfill 0) 0)).
  reflexivity.
Defined.

Lemma initialize_two_components (s : UKF) (t : Z) (kind : SensorType)
      (r0 r1 : R) (rest : list R) :
  exists s',
    initialize s {| timestamp_ := t; sensor_type_ := kind;
                    raw_measurements_ := r0 :: r1 :: rest |} = Some s' /\
    is_initialized_ s' = true /\ time_us_ s' = t /\
    use_laser_ s' = use_laser_ s /\ use_radar_ s' = use_radar_ s /\
    x_ s' 0%nat = match kind with LASER => r0 | RADAR => r0 * cos r1 end /\
    x_ s' 1%nat = match kind with LASER => r1 | RADAR => r0 * sin r1 end /\
    (forall k, (2 <= k)%nat -> x_ s' k = 0) /\
    (forall i j, (i < 5)%nat -> (j < 5)%nat ->
       P_ s' i j
       = if Nat.eqb i j then
           (if Nat.ltb i 2 then
              match kind with
              | LASER => std_laspx_ * std_laspx_
              | RADAR => (std_radr_ + std_radphi_) * (std_radr_ + std_radphi_)
              end
            else 1)
         else 0).
Proof.
  unfold initialize. cbn [coeff nth_error raw_measurements_ sensor_type_ timestamp_].
  destruct kind; eexists; (split; [reflexivity |]);
    cbn [x_ P_ is_initialized_ time_us_ use_laser_ use_radar_];
    repeat apply conj; try reflexivity.
  - intros k Hk. unfold vset, vfill.
    destruct k as [| [| k]]; [lia | lia | reflexivity].
  - intros i j Hi Hj. unfold comma_init, n_x_, std_laspy_, std_laspx_.
    do 5 (destruct i as [| i]; [do 5 (destruct j as [| j]; [cbn; lra |]); lia |]).
    lia.
  - intros k Hk. unfold vset, vfill.
    destruct k as [| [| k]]; [lia | lia | reflexivity].
  - intros i j Hi Hj. unfold comma_init, n_x_.
    do 5 (destruct i as [| i]; [do 5 (destruct j as [| j]; [cbn; lra |]); lia |]).
    lia.
Qed.

(** ** Fusion flags *)

Lemma Prediction_flags (s : UKF) (dt : R) :
  is_initialized_ (Prediction s dt) = is_initialized_ s /\
  use_laser_ (Prediction s dt) = use_laser_ s /\
  use_radar_ (Prediction s dt) = use_radar_ s /\
  time_us_ (Prediction s dt) = time_us_ s.
Proof. repeat split. Qed.

Lemma sized_none (n : nat) (v : list R) : sized n v = None <-> length v <> n.
Proof.
  unfold sized. destruct (Nat.eqb_spec (length v) n); split; intros H;
    try discriminate; try contradiction; try reflexivity; assumption.
Qed.

Lemma correct_enabled (s : UKF) (m : MeasurementPackage) :
  fusion_enabled s m = true ->
  correct s m = match sensor_type_ m with
                | LASER => UpdateLidar s m
                | RADAR => UpdateRadar s m
                end.
Proof.
  unfold correct, fusion_enabled.
  destruct (sensor_type_ m); cbn [SensorType_eqb andb]; intros ->; reflexivity.
Qed.

Lemma ProcessMeasurement_disabled (s : UKF) (m : MeasurementPackage) :
  is_initialized_ s = true -> fusion_enabled s m = false ->
  ProcessMeasurement s m
  = Some (with_time (Prediction s (elapsed s m)) (timestamp_ m)).
Proof.
  intros Hs Hoff. unfold ProcessMeasurement. rewrite Hs.
  unfold correct, fusion_enabled in *.
  cbn [use_laser_ use_radar_ with_time].
  destruct (Prediction_flags s (elapsed s m)) as (_ & Hl & Hr & _).
  rewrite Hl, Hr.
  destruct (sensor_type_ m); cbn [SensorType_eqb andb]; rewrite Hoff;
    reflexivity.
Qed.

Lemma ProcessMeasurement_enabled (s : UKF) (m : MeasurementPackage) :
  is_initialized_ s = true -> fusion_enabled s m = true ->
  ProcessMeasurement s m
  = match sensor_type_ m with
    | LASER => UpdateLidar (with_time (Prediction s (elapsed s m)) (timestamp_ m)) m
    | RADAR => UpdateRadar (with_time (Prediction s (elapsed s m)) (timestamp_ m)) m
    end.
Proof.
  intros Hs Hon. unfold ProcessMeasurement. rewrite Hs.
  apply correct_enabled. exact Hon.
Qed.

Lemma ProcessMeasurement_first (s : UKF) (t : Z) (kind : SensorType)
      (r0 r1 : R) (rest : list R) :
  is_initialized_ s = false ->
  exists s',
    ProcessMeasurement s {| timestamp_ := t; sensor_type_ := kind;
                            raw_measurements_ := r0 :: r1 :: rest |} = Some s' /\
    is_initialized_ s' = true /\ time_us_ s' = t /\
    x_ s' 0%nat = match kind with LASER => r0 | RADAR => r0 * cos r1 end /\
    x_ s' 1%nat = match kind with LASER => r1 | RADAR => r0 * sin r1 end.
Proof.
  intros Hs. unfold ProcessMeasurement. rewrite Hs.
  destruct (initialize_two_components s t kind r0 r1 rest)
    as (s' & E & Hi & Ht & _ & _ & H0 & H1 & _).
  exists s'. repeat split; assumption.
Qed.

(** C6: once the estimator is initialised, a measurement whose sensor type
    has its fusion flag off goes through the prediction only: the result is
    the predicted estimator with the new reference time, neither [UpdateLidar]
    nor [UpdateRadar] having been applied (with the flag on, the corrector of
    the sensor type is applied to that predicted estimator).  The first
    measurement initialises the estimator whatever the two flags are. *)
Theorem disabled_sensor_not_fused :
  (forall s m,
     is_initialized_ s = true -> fusion_enabled s m = false ->
     ProcessMeasurement s m
     = Some (with_time (Prediction s (elapsed s m)) (timestamp_ m))) /\
  (forall s m,
     is_initialized_ s = true -> fusion_enabled s m = true ->
     ProcessMeasurement s m
     = match sensor_type_ m with
       | LASER => UpdateLidar (with_time (Prediction s (elapsed s m)) (timestamp_ m)) m
       | RADAR => UpdateRadar (with_time (Prediction s (elapsed s m)) (timestamp_ m)) m
       end) /\
  (forall s t kind r0 r1 rest,
     is_initialized_ s = false ->
     exists s',
       ProcessMeasurement s {| timestamp_ := t; sensor_type_ := kind;
                               raw_measurements_ := r0 :: r1 :: rest |} = Some s' /\
       is_initialized_ s' = true /\ time_us_ s' = t /\
       x_ s' 0%nat = match kind with LASER => r0 | RADAR => r0 * cos r1 end /\
       x_ s' 1%nat = match kind with LASER => r1 | RADAR => r0 * sin r1 end).
Proof.
  split; [| split].
  - exact ProcessMeasurement_disabled.
  - exact ProcessMeasurement_enabled.
  - exact ProcessMeasurement_first.
Qed.

(** A lidar measurement met by an initialised estimator whose lidar flag is
    off, and a first radar measurement met with both flags off. *)
Lemma disabled_sensor_not_fused_witness :
  (let s := {| is_initialized_ := true; use_laser_ := false; use_radar_ := true;
               x_ := vfill 0; P_ := identity; Xsig_pred_ := mfill 0;
               time_us_ := 0 |} in
   let m := {| timestamp_ := 50000; sensor_type_ := LASER;
               raw_measurements_ := [1; 2] |} in
   ProcessMeasurement s m
   = Some (with_time (Prediction s (elapsed s m)) (timestamp_ m))) /\
  (exists s',
     ProcessMeasurement
       {| is_initialized_ := false; use_laser_ := false; use_radar_ := false;
          x_ := vfill 0; P_ := identity; Xsig_pred_ := mfill 0; time_us_ := 0 |}
       {| timestamp_ := 7; sensor_type_ := RADAR;
          raw_measurements_ := [1; 0; 0] |} = Some s' /\
     is_initialized_ s' = true /\ time_us_ s' = 7%Z /\
     x_ s' 0%nat = 1 * cos 0 /\ x_ s' 1%nat = 1 * sin 0).
Proof.
  split.
  - apply (proj1 disabled_sensor_not_fused); reflexivity.
  - apply (proj2 (proj2 disabled_sensor_not_fused)
             _ 7%Z RADAR 1 0 [0]). reflexivity.
Defined.

(** ** Length of the raw measurement vector *)

(** C8, as stated, fails: a first lidar measurement with three components
    (one too many) is not turned away; the estimator is initialised from its
    first two components. *)
Lemma long_lidar_measurement_accepted :
  let s0 := UKF_new (vfill 0) (mfill 0) (mfill 0) 0 in
  let m := {| timestamp_ := 0; sensor_type_ := LASER;
              raw_measurements_ := [1; 2; 99] |} in
  length (raw_measurements_ m) <> expected_size (sensor_type_ m) /\
  exists s',
    ProcessMeasurement s0 m = Some s' /\
    is_initialized_ s' = true /\ x_ s' 0%nat = 1 /\ x_ s' 1%nat = 2 /\
    s' <> s0.
Proof.
  cbv zeta. split; [cbn; discriminate |].
  eexists. split; [reflexivity |].
  repeat split.
  intros E. apply (f_equal is_initialized_) in E. discriminate E.
Qed.

(** C8, amended: [ProcessMeasurement] makes no check of the length of the raw
    measurement vector.  A first measurement initialises the estimator from
    components 0 and 1 as soon as it has two components, whatever its length
    and its sensor type, and yields no state when it has fewer (the indexed
    read fails).  After initialisation a measurement of a disabled sensor type
    is processed whatever its length, and for an enabled sensor type the call
    yields no state exactly when the length differs from the size of the
    predicted measurement (Eigen's size assertion in
    [raw_measurements_ - z_pred]). *)
Theorem measurement_length_unchecked :
  (forall s t kind r0 r1 rest,
     is_initialized_ s = false ->
     exists s',
       ProcessMeasurement s {| timestamp_ := t; sensor_type_ := kind;
                               raw_measurements_ := r0 :: r1 :: rest |} = Some s' /\
       is_initialized_ s' = true /\
       x_ s' 0%nat = match kind with LASER => r0 | RADAR => r0 * cos r1 end /\
       x_ s' 1%nat = match kind with LASER => r1 | RADAR => r0 * sin r1 end) /\
  (forall s m,
     is_initialized_ s = false ->
     (length (raw_measurements_ m) < 2)%nat ->
     ProcessMeasurement s m = None) /\
  (forall s m,
     is_initialized_ s = true -> fusion_enabled s m = false ->
     ProcessMeasurement s m
     = Some (with_time (Prediction s (elapsed s m)) (timestamp_ m))) /\
  (forall s m,
     is_initialized_ s = true -> fusion_enabled s m = true ->
     (ProcessMeasurement s m = None
      <-> length (raw_measurements_ m) <> expected_size (sensor_type_ m))).
Proof.
  repeat apply conj.
  - intros s t kind r0 r1 rest Hs.
    destruct (ProcessMeasurement_first s t kind r0 r1 rest Hs)
      as (s' & E & Hi & _ & H0 & H1).
    exists s'. repeat split; assumption.
  - intros s m Hs Hlen. unfold ProcessMeasurement. rewrite Hs.
    unfold initialize, coeff.
    destruct (raw_measurements_ m) as [| r0 [| r1 rest]]; cbn in *;
      [reflexivity | reflexivity | lia].
  - exact ProcessMeasurement_disabled.
  - intros s m Hs Hon. unfold ProcessMeasurement. rewrite Hs.
    rewrite correct_enabled by exact Hon.
    cbn [sensor_type_ with_time].
    unfold fusion_enabled in Hon.
    destruct (sensor_type_ m) eqn:Ek; cbn [expected_size].
    + unfold UpdateLidar. cbn [raw_measurements_].
      rewrite <- sized_none.
      destruct (sized 2 (raw_measurements_ m)); split; intros H;
        try discriminate; reflexivity.
    + unfold UpdateRadar. cbn [raw_measurements_].
      change n_z_ with 3%nat. rewrite <- sized_none.
      destruct (sized 3 (raw_measurements_ m)); split; intros H;
        try discriminate; reflexivity.
Qed.

(** A first radar measurement with two components only, and a lidar
    measurement with three components met by an initialised estimator. *)
Lemma measurement_length_unchecked_witness :
  (exists s',
     ProcessMeasurement (UKF_new (vfill 0) (mfill 0) (mfill 0) 0)
       {| timestamp_ := 0; sensor_type_ := RADAR;
          raw_measurements_ := [2; 0] |} = Some s' /\
     is_initialized_ s' = true /\
     x_ s' 0%nat = 2 * cos 0 /\ x_ s' 1%nat = 2 * sin 0) /\
  ProcessMeasurement turning_estimator
    {| timestamp_ := 2000000; sensor_type_ := LASER;
       raw_measurements_ := [1; 2; 99] |} = None.
Proof.
  pose proof measurement_length_unchecked as (Hfirst & _ & _ & Hsize).
  split.
  - apply (Hfirst (UKF_new (vfill 0) (mfill 0) (mfill 0) 0) 0%Z RADAR 2 0 []).
    reflexivity.
  - apply (Hsize turning_estimator
             {| timestamp_ := 2000000; sensor_type_ := LASER;
                raw_measurements_ := [1; 2; 99] |}).
    + reflexivity.
    + reflexivity.
    + cbn. discriminate.
Defined.

(** ** The radar measurement model *)

Lemma for_loop_set_col (n : nat) (f : nat -> VectorXd) (Z0 : MatrixXd) (r c : nat) :
  for_loop n (fun i Z => set_col Z i (f i)) Z0 r c
  = if Nat.ltb c n then f c r else Z0 r c.
Proof.
  induction n as [| n IH]; [reflexivity |].
  cbn [for_loop]. unfold set_col at 1. rewrite IH.
  destruct (Nat.eqb_spec c n) as [-> | Hne].
  - rewrite (proj2 (Nat.ltb_lt n (S n))) by lia. reflexivity.
  - destruct (Nat.ltb_spec c n), (Nat.ltb_spec c (S n)); try reflexivity; lia.
Qed.

Lemma Zsig_column (s : UKF) (r i : nat) :
  (i < n_sig)%nat ->
  Zsig s r i = radar_measurement_model (col (Xsig_pred_ s) i) r.
Proof.
  intros Hi. unfold Zsig.
  rewrite (for_loop_set_col n_sig
             (fun i => radar_measurement_model (col (Xsig_pred_ s) i))).
  rewrite (proj2 (Nat.ltb_lt i n_sig)) by exact Hi. reflexivity.
Qed.

Lemma radar_range_zero (p_x p_y : R) :
  radar_range p_x p_y = 0 <-> p_x = 0 /\ p_y = 0.
Proof.
  unfold radar_range. split.
  - intros H. apply sqrt_eq_0 in H; [| nra]. split; nra.
  - intros [-> ->]. replace (0 * 0 + 0 * 0) with 0 by ring. apply sqrt_0.
Qed.

(** C10: the radar update projects every predicted sigma point into
    measurement space with an unguarded division by
    [sqrt(p_x*p_x + p_y*p_y)]: the range rate of column [i] is that quotient
    for every sigma point.  The divisor is non-zero exactly when the predicted
    position is not the origin; at the origin the divisor is zero and the
    bearing is [atan2(0, 0)]. *)
Theorem radar_projection_divisor :
  (forall s i, (i < n_sig)%nat ->
     Zsig s 2%nat i
     = (Xsig_pred_ s 0%nat i * (cos (Xsig_pred_ s 3%nat i) * Xsig_pred_ s 2%nat i)
        + Xsig_pred_ s 1%nat i * (sin (Xsig_pred_ s 3%nat i) * Xsig_pred_ s 2%nat i))
       / radar_range (Xsig_pred_ s 0%nat i) (Xsig_pred_ s 1%nat i)) /\
  (forall p_x p_y, radar_range p_x p_y <> 0 <-> (p_x, p_y) <> (0, 0)) /\
  (forall s i, (i < n_sig)%nat ->
     Xsig_pred_ s 0%nat i = 0 -> Xsig_pred_ s 1%nat i = 0 ->
     radar_range (Xsig_pred_ s 0%nat i) (Xsig_pred_ s 1%nat i) = 0 /\
     Zsig s 1%nat i = atan2 0 0).
Proof.
  repeat apply conj.
  - intros s i Hi. rewrite Zsig_column by exact Hi. reflexivity.
  - intros p_x p_y. rewrite radar_range_zero. split.
    + intros H E. injection E as -> ->. apply H. split; reflexivity.
    + intros H [-> ->]. apply H. reflexivity.
  - intros s i Hi H0 H1. split.
    + apply radar_range_zero. split; assumption.
    + rewrite Zsig_column by exact Hi.
      unfold radar_measurement_model, vset, col. cbn [Nat.eqb].
      rewrite H0, H1. reflexivity.
Qed.

Lemma radar_projection_divisor_witness :
  let s := {| is_initialized_ := true; use_laser_ := true; use_radar_ := true;
              x_ := vfill 0; P_ := identity;
              Xsig_pred_ := fun r c => if Nat.eqb c 0 then 0 else 1;
              time_us_ := 0 |} in
  Zsig s 2%nat 1%nat = (1 * (cos 1 * 1) + 1 * (sin 1 * 1)) / radar_range 1 1 /\
  radar_range 1 1 <> 0 /\
  radar_range (Xsig_pred_ s 0%nat 0%nat) (Xsig_pred_ s 1%nat 0%nat) = 0 /\
  Zsig s 1%nat 0%nat = atan2 0 0.
Proof.
  cbv zeta.
  pose proof radar_projection_divisor as (Hq & Hd & Ho).
  split; [| split].
  - apply (Hq {| is_initialized_ := true; use_laser_ := true; use_radar_ := true;
                 x_ := vfill 0; P_ := identity;
                 Xsig_pred_ := fun r c => if Nat.eqb c 0 then 0 else 1;
                 time_us_ := 0 |} 1%nat).
    unfold n_sig, n_aug_. lia.
  - apply Hd. intros E. injection E as E. lra.
  - apply (Ho {| is_initialized_ := true; use_laser_ := true; use_radar_ := true;
                 x_ := vfill 0; P_ := identity;
                 Xsig_pred_ := fun r c => if Nat.eqb c 0 then 0 else 1;
                 time_us_ := 0 |} 0%nat).
    + unfold n_sig, n_aug_. lia.
    + reflexivity.
    + reflexivity.
Defined.

(** ** The motion model at zero yaw rate *)

Section DifferenceQuotient.

Variables (g : R -> R) (x d : R).
Hypothesis g_derivative : derivable_pt_lim g x d.

(** A position update of the shape of the curved path, [p + c / w * (g (x + w
    dt) - g x)], tends to [p + c * d * dt] when the yaw rate [w] tends to 0,
    [d] being the derivative of [g] at [x]. *)
Lemma arc_update_limit (f : R -> R) (p c dt : R) :
  (forall w, w <> 0 -> f w = p + c / w * (g (x + w * dt) - g x)) ->
  limit1_in f (fun w => w <> 0) (p + c * d * dt) 0.
Proof.
  intros Hf eps Heps. simpl. unfold Rdist.
  destruct (Req_dec dt 0) as [-> | Hdt].
  - exists 1. split; [lra |]. intros w [Hw _].
    rewrite (Hf w Hw).
    replace (p + c / w * (g (x + w * 0) - g x) - (p + c * d * 0)) with 0.
    + rewrite Rabs_R0. lra.
    + replace (x + w * 0) with x by ring. field. exact Hw.
  - assert (Hc : 0 < Rabs (c * dt) + 1) by (pose proof (Rabs_pos (c * dt)); lra).
    assert (Heps' : 0 < eps / (Rabs (c * dt) + 1)).
    { apply Rdiv_lt_0_compat; assumption. }
    destruct (g_derivative _ Heps') as [delta Hdelta].
    assert (Hadt : 0 < Rabs dt) by (apply Rabs_pos_lt; exact Hdt).
    exists (delta / Rabs dt). split.
    + apply Rdiv_lt_0_compat; [apply cond_pos | exact Hadt].
    + intros w [Hw Hclose]. rewrite Rminus_0_r in Hclose.
      assert (Hh : w * dt <> 0).
      { intros E. apply Rmult_integral in E. tauto. }
      assert (Hsmall : Rabs (w * dt) < delta).
      { rewrite Rabs_mult.
        apply Rmult_lt_compat_r with (r := Rabs dt) in Hclose; [| exact Hadt].
        replace (delta / Rabs dt * Rabs dt) with (pos delta) in Hclose
          by (field; lra).
        exact Hclose. }
      specialize (Hdelta (w * dt) Hh Hsmall).
      rewrite (Hf w Hw).
      replace (p + c / w * (g (x + w * dt) - g x) - (p + c * d * dt))
        with (c * dt * ((g (x + w * dt) - g x) / (w * dt) - d))
        by (field; split; assumption).
      rewrite Rabs_mult.
      set (q := Rabs ((g (x + w * dt) - g x) / (w * dt) - d)) in *.
      assert (Hq : 0 <= q) by apply Rabs_pos.
      pose proof (Rabs_pos (c * dt)) as Hcd.
      apply Rle_lt_trans with (r2 := Rabs (c * dt) * (eps / (Rabs (c * dt) + 1))).
      * apply Rmult_le_compat_l; [exact Hcd | lra].
      * apply Rmult_lt_reg_r with (r := Rabs (c * dt) + 1); [exact Hc |].
        replace (Rabs (c * dt) * (eps / (Rabs (c * dt) + 1)) * (Rabs (c * dt) + 1))
          with (Rabs (c * dt) * eps) by (field; lra).
        nra.
Qed.

End DifferenceQuotient.

(** C5: in the motion model of a sigma point the straight-line branch is the
    one taken at yaw rate 0 (the curved branch needs a yaw rate above 0.001 in
    magnitude), and for every position, speed, heading and elapsed time the
    straight-line position is the limit of the curved-path position when the
    yaw rate tends to 0. *)
Theorem straight_line_is_limit_of_curved_path (px py v yaw dt : R) :
  limit1_in (fun yawd => fst (curved_path px py v yaw yawd dt))
            (fun yawd => yawd <> 0)
            (fst (straight_line px py v yaw dt)) 0 /\
  limit1_in (fun yawd => snd (curved_path px py v yaw yawd dt))
            (fun yawd => yawd <> 0)
            (snd (straight_line px py v yaw dt)) 0 /\
  straight_line px py v yaw dt = (px + v * cos yaw * dt, py + v * sin yaw * dt) /\
  (forall nu_a nu_yawdd,
     let a := fun i => nth i [px; py; v; yaw; 0; nu_a; nu_yawdd] 0 in
     predict_sigma_point a dt 0%nat
     = fst (straight_line px py v yaw dt) + 5 / 10 * dt * dt * cos yaw * nu_a /\
     predict_sigma_point a dt 1%nat
     = snd (straight_line px py v yaw dt) + 5 / 10 * dt * dt * sin yaw * nu_a) /\
  (forall yawd nu_a nu_yawdd,
     let a := fun i => nth i [px; py; v; yaw; yawd; nu_a; nu_yawdd] 0 in
     1 / 1000 < Rabs yawd ->
     predict_sigma_point a dt 0%nat
     = fst (curved_path px py v yaw yawd dt) + 5 / 10 * dt * dt * cos yaw * nu_a /\
     predict_sigma_point a dt 1%nat
     = snd (curved_path px py v yaw yawd dt) + 5 / 10 * dt * dt * sin yaw * nu_a).
Proof.
  repeat apply conj.
  - replace (fst (straight_line px py v yaw dt)) with (px + v * cos yaw * dt)
      by reflexivity.
    apply (arc_update_limit sin yaw (cos yaw) (derivable_pt_lim_sin yaw)).
    intros w Hw. reflexivity.
  - replace (snd (straight_line px py v yaw dt))
      with (py + (- v) * (- sin yaw) * dt) by (cbn; ring).
    apply (arc_update_limit cos yaw (- sin yaw) (derivable_pt_lim_cos yaw)).
    intros w Hw. cbn. field. exact Hw.
  - reflexivity.
  - intros nu_a nu_yawdd a. unfold predict_sigma_point, a, vset. cbn [nth Nat.eqb].
    destruct (Rlt_dec (1 / 1000) (Rabs 0)) as [H | _].
    + rewrite Rabs_R0 in H. lra.
    + split; reflexivity.
  - intros yawd nu_a nu_yawdd a Hy.
    unfold predict_sigma_point, a, vset. cbn [nth Nat.eqb].
    destruct (Rlt_dec (1 / 1000) (Rabs yawd)) as [_ | H]; [| contradiction].
    split; reflexivity.
Qed.

(** ** Sigma points *)

Lemma GenerateSigmaPoints_columns (s : UKF) (X0 : MatrixXd) (r c : nat) :
  (c < n_sig)%nat ->
  GenerateSigmaPoints s X0 r c
  = if Nat.eqb c 0 then x_aug s r
    else if Nat.leb c n_aug_
         then x_aug s r + sqrt (lambda_ + INR n_aug_) * P_aug_root s r (c - 1)%nat
         else x_aug s r - sqrt (lambda_ + INR n_aug_) * P_aug_root s r (c - 1 - n_aug_)%nat.
Proof.
  intros Hc. unfold n_sig, n_aug_ in Hc.
  do 15 (destruct c as [| c]; [reflexivity |]). lia.
Qed.

Lemma for_loop_columns (n : nat) (f : nat -> VectorXd) (X0 : MatrixXd) (r c : nat) :
  for_loop n
    (fun i X => fun r c => if Nat.eqb c i && Nat.ltb r 5 then f i r else X r c)
    X0 r c
  = if Nat.ltb c n && Nat.ltb r 5 then f c r else X0 r c.
Proof.
  induction n as [| n IH]; [reflexivity |].
  cbn [for_loop]. rewrite IH.
  destruct (Nat.eqb_spec c n) as [-> | Hne].
  - rewrite (proj2 (Nat.ltb_lt n (S n))) by lia.
    destruct (Nat.ltb r 5); cbn [andb]; [reflexivity |].
    rewrite andb_false_r. reflexivity.
  - cbn [andb].
    destruct (Nat.ltb_spec c n), (Nat.ltb_spec c (S n)); try reflexivity; lia.
Qed.

Lemma SigmaPointsPrediction_columns (s : UKF) (Xa : MatrixXd) (dt : R) (r c : nat) :
  (c < n_sig)%nat -> (r < 5)%nat ->
  Xsig_pred_ (SigmaPointsPrediction s Xa dt) r c
  = predict_sigma_point (col Xa c) dt r.
Proof.
  intros Hc Hr. unfold SigmaPointsPrediction. cbn [Xsig_pred_ with_Xsig_pred].
  rewrite (for_loop_columns n_sig (fun i => predict_sigma_point (col Xa i) dt)).
  rewrite (proj2 (Nat.ltb_lt c n_sig)) by exact Hc.
  rewrite (proj2 (Nat.ltb_lt r 5)) by exact Hr. reflexivity.
Qed.

Lemma Prediction_mean (s : UKF) (dt : R) (k : nat) :
  (k < 5)%nat ->
  x_ (Prediction s dt) k
  = sum_upto n_sig (fun i =>
      weights_ i
      * predict_sigma_point (col (GenerateSigmaPoints s (mfill 0)) i) dt k).
Proof.
  intros Hk. unfold Prediction, PredictMeanAndCovariance.
  cbn [x_ with_estimate]. rewrite predicted_mean_sum.
  apply sum_upto_ext. intros i Hi.
  rewrite SigmaPointsPrediction_columns by assumption. reflexivity.
Qed.

(** The speed, heading and yaw-rate rows of the motion model are linear in
    the sigma point, and the sigma points lie symmetrically around the
    augmented mean: whatever matrix the factorisation returned, the predicted
    speed and yaw rate are those of the mean and the predicted heading has
    advanced by yaw rate times elapsed time. *)
Lemma Prediction_linear_rows (s : UKF) (dt : R) :
  x_ (Prediction s dt) 2%nat = x_ s 2%nat /\
  x_ (Prediction s dt) 3%nat = x_ s 3%nat + x_ s 4%nat * dt /\
  x_ (Prediction s dt) 4%nat = x_ s 4%nat.
Proof.
  repeat apply conj.
  all: rewrite Prediction_mean by lia.
  all: unfold n_sig, n_aug_; cbn [Nat.mul Nat.add sum_upto].
  all: rewrite weights_center; rewrite !weights_spread by discriminate.
  all: unfold predict_sigma_point, vset, col; cbn [Nat.eqb].
  all: rewrite !GenerateSigmaPoints_columns by (unfold n_sig, n_aug_; lia).
  all: cbn [Nat.eqb Nat.leb Nat.sub n_aug_].
  all: unfold x_aug, vset; cbn [Nat.eqb Nat.ltb Nat.leb].
  all: lra.
Qed.

(** ** Elapsed time *)

Lemma ProcessMeasurement_initialized (s : UKF) (m : MeasurementPackage) :
  is_initialized_ s = true ->
  ProcessMeasurement s m = processed_with s m (elapsed s m).
Proof. intros Hs. unfold ProcessMeasurement. rewrite Hs. reflexivity. Qed.

Lemma correct_sized (s : UKF) (m : MeasurementPackage) :
  length (raw_measurements_ m) = expected_size (sensor_type_ m) ->
  exists s',
    correct s m = Some s' /\
    Xsig_pred_ s' = Xsig_pred_ s /\ time_us_ s' = time_us_ s /\
    is_initialized_ s' = is_initialized_ s.
Proof.
  intros Hlen. unfold correct, UpdateLidar, UpdateRadar, sized.
  destruct (sensor_type_ m); cbn [SensorType_eqb andb expected_size] in *.
  - destruct (use_laser_ s).
    + rewrite Hlen. cbn [Nat.eqb]. eexists. repeat split.
    + eexists. repeat split.
  - destruct (use_radar_ s).
    + rewrite Hlen. cbn [Nat.eqb n_z_]. eexists. repeat split.
    + eexists. repeat split.
Qed.

Lemma Prediction_centre_heading (s : UKF) (dt : R) :
  Xsig_pred_ (Prediction s dt) 3%nat 0%nat = x_ s 3%nat + x_ s 4%nat * dt.
Proof.
  unfold Prediction, PredictMeanAndCovariance. cbn [Xsig_pred_ with_estimate].
  rewrite SigmaPointsPrediction_columns by (unfold n_sig, n_aug_; lia).
  unfold predict_sigma_point, vset, col. cbn [Nat.eqb].
  rewrite !GenerateSigmaPoints_columns by (unfold n_sig, n_aug_; lia).
  cbn [Nat.eqb]. unfold x_aug, vset. cbn [Nat.eqb Nat.ltb Nat.leb]. lra.
Qed.

Lemma processed_with_heading (s : UKF) (m : MeasurementPackage) (dt : R) :
  length (raw_measurements_ m) = expected_size (sensor_type_ m) ->
  exists s',
    processed_with s m dt = Some s' /\
    time_us_ s' = timestamp_ m /\
    Xsig_pred_ s' 3%nat 0%nat = x_ s 3%nat + x_ s 4%nat * dt.
Proof.
  intros Hlen. unfold processed_with.
  destruct (correct_sized (with_time (Prediction s dt) (timestamp_ m)) m Hlen)
    as (s' & E & HX & Ht & _).
  exists s'. split; [exact E |]. split; [exact Ht |].
  rewrite HX. cbn [Xsig_pred_ with_time]. apply Prediction_centre_heading.
Qed.

Lemma elapsed_sign (s : UKF) (m : MeasurementPackage) :
  (timestamp_ m <= time_us_ s)%Z -> elapsed s m <= 0.
Proof.
  intros H. unfold elapsed.
  assert (Hz : IZR (timestamp_ m - time_us_ s) <= 0) by (apply IZR_le; lia).
  lra.
Qed.

(** C9, as stated, fails: for the measurement [stale_measurement], stamped one
    second before the reference time of [turning_estimator], the call neither
    leaves the estimator alone nor runs with some positive elapsed time
    instead: it runs the prediction with elapsed time -1, which turns the
    heading of the centre sigma point back by one radian. *)
Lemma stale_timestamp_reaches_prediction :
  (timestamp_ stale_measurement <= time_us_ turning_estimator)%Z /\
  elapsed turning_estimator stale_measurement = -1 /\
  ProcessMeasurement turning_estimator stale_measurement
  = processed_with turning_estimator stale_measurement (-1) /\
  (exists s', ProcessMeasurement turning_estimator stale_measurement = Some s' /\
              Xsig_pred_ s' 3%nat 0%nat = -1) /\
  ProcessMeasurement turning_estimator stale_measurement <> Some turning_estimator /\
  (forall dt, 0 < dt ->
     ProcessMeasurement turning_estimator stale_measurement
     <> processed_with turning_estimator stale_measurement dt).
Proof.
  assert (He : elapsed turning_estimator stale_measurement = -1).
  { unfold elapsed. cbn. lra. }
  assert (Hp : ProcessMeasurement turning_estimator stale_measurement
               = processed_with turning_estimator stale_measurement (-1)).
  { rewrite ProcessMeasurement_initialized by reflexivity. rewrite He. reflexivity. }
  assert (Hx : forall dt, exists s',
             processed_with turning_estimator stale_measurement dt = Some s' /\
             Xsig_pred_ s' 3%nat 0%nat = dt).
  { intros dt.
    destruct (processed_with_heading turning_estimator stale_measurement dt eq_refl)
      as (s' & E & _ & H).
    exists s'. split; [exact E |]. rewrite H.
    unfold turning_estimator, vset, vfill. cbn [x_ Nat.eqb]. lra. }
  repeat apply conj.
  - cbn. lia.
  - exact He.
  - exact Hp.
  - rewrite Hp. apply Hx.
  - rewrite Hp. destruct (Hx (-1)) as (s' & E & H). rewrite E.
    intros Eq. injection Eq as Eq. rewrite Eq in H.
    unfold turning_estimator, mfill in H. cbn [Xsig_pred_] in H. lra.
  - intros dt Hdt. rewrite Hp.
    destruct (Hx (-1)) as (s1 & E1 & H1). destruct (Hx dt) as (s2 & E2 & H2).
    rewrite E1, E2. intros Eq. injection Eq as Eq. rewrite Eq in H1. lra.
Qed.

(** C9, amended: [ProcessMeasurement] has no policy for a timestamp that is
    not later than the reference time.  The elapsed time
    (timestamp - reference time) / 10^6, then zero or negative, is handed to
    [Prediction] as it is: the predicted heading and the heading of the centre
    sigma point move by yaw rate times that elapsed time, and the reference
    time is set to the timestamp of the measurement. *)
Theorem stale_timestamp_is_predicted (s : UKF) (m : MeasurementPackage) :
  is_initialized_ s = true ->
  (timestamp_ m <= time_us_ s)%Z ->
  length (raw_measurements_ m) = expected_size (sensor_type_ m) ->
  elapsed s m <= 0 /\
  ProcessMeasurement s m = processed_with s m (elapsed s m) /\
  x_ (Prediction s (elapsed s m)) 3%nat = x_ s 3%nat + x_ s 4%nat * elapsed s m /\
  exists s',
    ProcessMeasurement s m = Some s' /\
    time_us_ s' = timestamp_ m /\
    Xsig_pred_ s' 3%nat 0%nat = x_ s 3%nat + x_ s 4%nat * elapsed s m.
Proof.
  intros Hs Ht Hlen.
  split; [apply elapsed_sign; exact Ht |].
  split; [apply ProcessMeasurement_initialized; exact Hs |].
  split; [exact (proj1 (proj2 (Prediction_linear_rows s (elapsed s m)))) |].
  rewrite ProcessMeasurement_initialized by exact Hs.
  apply processed_with_heading. exact Hlen.
Qed.

Lemma stale_timestamp_is_predicted_witness :
  elapsed turning_estimator stale_measurement <= 0 /\
  ProcessMeasurement turning_estimator stale_measurement
  = processed_with turning_estimator stale_measurement
      (elapsed turning_estimator stale_measurement) /\
  x_ (Prediction turning_estimator (elapsed turning_estimator stale_measurement)) 3%nat
  = x_ turning_estimator 3%nat
    + x_ turning_estimator 4%nat * elapsed turning_estimator stale_measurement /\
  exists s',
    ProcessMeasurement turning_estimator stale_measurement = Some s' /\
    time_us_ s' = timestamp_ stale_measurement /\
    Xsig_pred_ s' 3%nat 0%nat
    = x_ turning_estimator 3%nat
      + x_ turning_estimator 4%nat * elapsed turning_estimator stale_measurement.
Proof.
  apply (stale_timestamp_is_predicted turning_estimator stale_measurement).
  - reflexivity.
  - cbn. lia.
  - reflexivity.
Defined.

(** ** The Cholesky factorisation *)


Section CholeskyOfProduct.

(** [A] is, on its lower triangle, the product of a lower triangular matrix
    [L] with positive diagonal and its transpose. *)
Variables (size : nat) (A L : MatrixXd).
Hypothesis L_diagonal : forall j, (j < size)%nat -> 0 < L j j.
Hypothesis A_product :
  forall i j, (j <= i)%nat -> (i < size)%nat ->
    A i j = sum_upto (S j) (fun l => L i l * L j l).

Lemma llt_loop_invariant (n : nat) :
  (n <= size)%nat ->
  exists mat,
    for_loop n (llt_step size) (A, None) = (mat, None) /\
    (forall i j, (j < n)%nat -> (j <= i)%nat -> (i < size)%nat -> mat i j = L i j) /\
    (forall i j, (n <= j)%nat -> mat i j = A i j).
Proof.
  induction n as [| n IH]; intros Hn.
  - exists A. split; [reflexivity |]. split; [intros; lia | reflexivity].
  - destruct IH as (mat & Hloop & Hdone & Hrest); [lia |].
    assert (Hsum : forall i, (n <= i)%nat -> (i < size)%nat ->
              sum_upto n (fun l => mat i l * mat n l)
              = sum_upto n (fun l => L i l * L n l)).
    { intros i Hi Hi'. apply sum_upto_ext. intros l Hl.
      rewrite (Hdone i l), (Hdone n l) by lia. reflexivity. }
    assert (Hpivot : llt_pivot n mat = L n n * L n n).
    { unfold llt_pivot. rewrite (Hsum n) by lia.
      rewrite Hrest by lia. rewrite A_product by lia.
      cbn [sum_upto]. ring. }
    pose proof (L_diagonal n ltac:(lia)) as Hpos.
    assert (Hroot : sqrt (llt_pivot n mat) = L n n).
    { rewrite Hpivot. apply sqrt_square. lra. }
    exists (llt_column size n mat). split; [| split].
    + cbn [for_loop]. rewrite Hloop. unfold llt_step. cbn [snd fst].
      destruct (Rle_dec (llt_pivot n mat) 0) as [Hle | _]; [| reflexivity].
      rewrite Hpivot in Hle. nra.
    + intros i j Hj Hji Hi. unfold llt_column.
      destruct (Nat.eqb_spec j n) as [-> | Hne].
      * destruct (Nat.eqb_spec i n) as [-> | Hin]; [exact Hroot |].
        rewrite (proj2 (Nat.ltb_lt n i)) by lia.
        rewrite (proj2 (Nat.ltb_lt i size)) by lia. cbn [andb].
        rewrite Hroot, (Hsum i) by lia.
        rewrite Hrest by lia. rewrite A_product by lia.
        cbn [sum_upto]. field. lra.
      * apply Hdone; lia.
    + intros i j Hj. unfold llt_column.
      destruct (Nat.eqb_spec j n) as [-> | Hne]; [lia |].
      apply Hrest. lia.
Qed.

(** The factorisation of such a matrix succeeds and returns [L]. *)
Lemma llt_of_product :
  m_info (llt size A) = Success /\
  forall i j, (j <= i)%nat -> (i < size)%nat -> matrixL (llt size A) i j = L i j.
Proof.
  destruct (llt_loop_invariant size (Nat.le_refl size)) as (mat & Hloop & Hdone & _).
  unfold matrixL, llt, llt_unblocked. rewrite Hloop. cbn [fst snd m_info m_matrix].
  split; [reflexivity |].
  intros i j Hji Hi. rewrite (proj2 (Nat.leb_le j i)) by exact Hji.
  apply Hdone; lia.
Qed.

End CholeskyOfProduct.

Lemma matrixL_upper (d : LLT) (i j : nat) : (i < j)%nat -> matrixL d i j = 0.
Proof.
  intros H. unfold matrixL. rewrite (proj2 (Nat.leb_gt j i)) by exact H. reflexivity.
Qed.

(** ** The matrices of the lidar update *)

Lemma Lidar_S_entry (s : UKF) (i j : nat) :
  (i < 2)%nat -> (j < 2)%nat ->
  Lidar_S s i j
  = P_ s i j + (if Nat.eqb i j then std_laspx_ * std_laspx_ else 0).
Proof.
  intros Hi Hj. unfold Lidar_S, madd, mmul, transpose, Lidar_H_, Lidar_R_, mset,
    mfill, n_x_, std_laspy_, std_laspx_.
  destruct i as [| [| i]]; [| | lia]; (destruct j as [| [| j]]; [| | lia]);
    cbn; ring.
Qed.

Lemma Lidar_K_entry (s : UKF) (i l : nat) :
  (l < 2)%nat ->
  Lidar_K s i l
  = P_ s i 0%nat * inverse2 (Lidar_S s) 0%nat l
    + P_ s i 1%nat * inverse2 (Lidar_S s) 1%nat l.
Proof.
  intros Hl. unfold Lidar_K. set (Si := inverse2 (Lidar_S s)).
  unfold mmul, transpose, Lidar_H_, mset, mfill, n_x_.
  cbn. ring.
Qed.

Lemma lidar_covariance_entry (K P : MatrixXd) (i j : nat) :
  (i < 5)%nat ->
  mmul n_x_ (msub identity (mmul 2 K Lidar_H_)) P i j
  = P i j - (K i 0%nat * P 0%nat j + K i 1%nat * P 1%nat j).
Proof.
  intros Hi. unfold mmul, msub, identity, Lidar_H_, mset, mfill, n_x_.
  do 5 (destruct i as [| i]; [cbn; ring |]). lia.
Qed.

(** ** Numerical failures *)





(** ** The lidar update keeps symmetry and positive semi-definiteness *)

Lemma UpdateLidar_covariance (s s' : UKF) (m : MeasurementPackage) :
  UpdateLidar s m = Some s' -> P_ s' = lidar_covariance s.
Proof.
  unfold UpdateLidar. destruct (sized 2 (raw_measurements_ m)); [| discriminate].
  intros E. injection E as <-. reflexivity.
Qed.

Section LidarCovariance.

Variable s : UKF.
Hypothesis P_symmetric : symmetric n_x_ (P_ s).

Let r := std_laspx_ * std_laspx_.
Let a := P_ s 0%nat 0%nat + r.
Let b := P_ s 0%nat 1%nat.
Let c := P_ s 1%nat 1%nat + r.

Lemma Lidar_S_det : det2 (Lidar_S s) = a * c - b * b.
Proof.
  unfold det2. rewrite !Lidar_S_entry by lia. cbn [Nat.eqb].
  rewrite (P_symmetric 1%nat 0%nat) by (unfold n_x_; lia).
  unfold a, b, c, r. ring.
Qed.

Lemma Lidar_Si_entries :
  inverse2 (Lidar_S s) 0%nat 0%nat = c / (a * c - b * b) /\
  inverse2 (Lidar_S s) 0%nat 1%nat = - b / (a * c - b * b) /\
  inverse2 (Lidar_S s) 1%nat 0%nat = - b / (a * c - b * b) /\
  inverse2 (Lidar_S s) 1%nat 1%nat = a / (a * c - b * b).
Proof.
  unfold inverse2. rewrite Lidar_S_det. cbn [Nat.eqb Nat.sub].
  rewrite !Lidar_S_entry by lia. cbn [Nat.eqb].
  rewrite (P_symmetric 1%nat 0%nat) by (unfold n_x_; lia).
  unfold a, b, c, r. repeat split; f_equal; ring.
Qed.

(** The lidar update keeps a symmetric covariance symmetric. *)
Lemma lidar_covariance_symmetric : symmetric n_x_ (lidar_covariance s).
Proof.
  intros i j Hi Hj. unfold lidar_covariance, n_x_ in *.
  rewrite !lidar_covariance_entry by assumption.
  rewrite !Lidar_K_entry by lia.
  destruct Lidar_Si_entries as (-> & -> & -> & ->).
  rewrite (P_symmetric i j), (P_symmetric 0%nat j), (P_symmetric 1%nat j),
    (P_symmetric 0%nat i), (P_symmetric 1%nat i) by (unfold n_x_; lia).
  unfold Rdiv. ring.
Qed.

(** [v^T P' v] for the updated covariance [P' = (I - K H) P] of any gain. *)
Lemma lidar_quadratic_form (K P : MatrixXd) (v : VectorXd) :
  quadratic_form n_x_ (mmul n_x_ (msub identity (mmul 2 K Lidar_H_)) P) v
  = quadratic_form n_x_ P v
    - (sum_upto n_x_ (fun i => v i * K i 0%nat)
       * sum_upto n_x_ (fun j => P 0%nat j * v j)
       + sum_upto n_x_ (fun i => v i * K i 1%nat)
         * sum_upto n_x_ (fun j => P 1%nat j * v j)).
Proof.
  unfold quadratic_form, n_x_. cbn [sum_upto].
  change 5%nat with n_x_. rewrite !lidar_covariance_entry by lia.
  ring.
Qed.

Hypothesis P_psd : positive_semidefinite n_x_ (P_ s).

Lemma quadratic_form_plane (x y : R) :
  quadratic_form n_x_ (P_ s) (vset (vset (vfill 0) 0 x) 1 y)
  = P_ s 0%nat 0%nat * x * x + 2 * b * x * y + P_ s 1%nat 1%nat * y * y.
Proof.
  unfold quadratic_form, n_x_, vset, vfill. cbn [sum_upto Nat.eqb].
  rewrite (P_symmetric 1%nat 0%nat) by (unfold n_x_; lia).
  unfold b. ring.
Qed.

Lemma Lidar_S_det_positive : 0 < a * c - b * b.
Proof.
  pose proof (P_psd (vset (vset (vfill 0) 0 1) 1 0)) as H0.
  pose proof (P_psd (vset (vset (vfill 0) 0 0) 1 1)) as H1.
  pose proof (P_psd (vset (vset (vfill 0) 0 c) 1 (- b))) as H2.
  rewrite quadratic_form_plane in H0, H1, H2.
  assert (Hr : r = 225 / 10000) by (unfold r, std_laspx_; lra).
  assert (Ha : a = P_ s 0%nat 0%nat + r) by reflexivity.
  assert (Hc : c = P_ s 1%nat 1%nat + r) by reflexivity.
  clearbody a b c r.
  destruct (Rlt_dec 0 (a * c - b * b)) as [Hd | Hd]; [exact Hd | exfalso].
  assert (Hb : a * c <= b * b) by lra.
  assert (Hcpos : 0 < c) by lra.
  assert (Hapos : 0 < a) by lra.
  assert (E : P_ s 0%nat 0%nat * c * c + 2 * b * c * - b + P_ s 1%nat 1%nat * - b * - b
              = (a - r) * c * c - b * b * (c + r)) by (subst a c; ring).
  rewrite E in H2.
  assert (H3 : a * c * (c + r) <= b * b * (c + r)).
  { apply Rmult_le_compat_r; lra. }
  assert (H4 : 0 < r * c * c + a * c * r) by (subst r; nra).
  nra.
Qed.

(** The lidar update keeps a symmetric positive semi-definite covariance
    positive semi-definite. *)
Lemma lidar_covariance_psd : positive_semidefinite n_x_ (lidar_covariance s).
Proof.
  intros v. unfold lidar_covariance. rewrite lidar_quadratic_form.
  set (U0 := sum_upto n_x_ (fun j => P_ s 0%nat j * v j)).
  set (U1 := sum_upto n_x_ (fun j => P_ s 1%nat j * v j)).
  pose proof Lidar_S_det_positive as Hdet.
  set (d := a * c - b * b) in *.
  set (s0 := (c * U0 - b * U1) / d).
  set (s1 := (a * U1 - b * U0) / d).
  assert (HT0 : sum_upto n_x_ (fun i => v i * Lidar_K s i 0%nat) = s0).
  { rewrite (sum_upto_ext _ _
               (fun i => (c / d) * (P_ s 0%nat i * v i)
                         + (- b / d) * (P_ s 1%nat i * v i))).
    - unfold s0, U0, U1, n_x_. cbn [sum_upto]. field. lra.
    - intros i Hi. rewrite Lidar_K_entry by lia.
      destruct Lidar_Si_entries as (-> & _ & -> & _).
      rewrite (P_symmetric i 0%nat), (P_symmetric i 1%nat) by (unfold n_x_ in *; lia).
      fold d. ring. }
  assert (HT1 : sum_upto n_x_ (fun i => v i * Lidar_K s i 1%nat) = s1).
  { rewrite (sum_upto_ext _ _
               (fun i => (- b / d) * (P_ s 0%nat i * v i)
                         + (a / d) * (P_ s 1%nat i * v i))).
    - unfold s1, U0, U1, n_x_. cbn [sum_upto]. field. lra.
    - intros i Hi. rewrite Lidar_K_entry by lia.
      destruct Lidar_Si_entries as (_ & -> & _ & ->).
      rewrite (P_symmetric i 0%nat), (P_symmetric i 1%nat) by (unfold n_x_ in *; lia).
      fold d. ring. }
  rewrite HT0, HT1.
  (* the form is non-negative at v minus (s0, s1, 0, 0, 0) *)
  pose proof (P_psd (vsub v (vset (vset (vfill 0) 0 s0) 1 s1))) as Hw.
  assert (Ew : quadratic_form n_x_ (P_ s) (vsub v (vset (vset (vfill 0) 0 s0) 1 s1))
               = quadratic_form n_x_ (P_ s) v - 2 * (s0 * U0 + s1 * U1)
                 + (P_ s 0%nat 0%nat * s0 * s0 + 2 * b * s0 * s1
                    + P_ s 1%nat 1%nat * s1 * s1)).
  { unfold quadratic_form, U0, U1, n_x_, vsub, vset, vfill.
    cbn [sum_upto Nat.eqb].
    rewrite (P_symmetric 1%nat 0%nat), (P_symmetric 2%nat 0%nat),
      (P_symmetric 3%nat 0%nat), (P_symmetric 4%nat 0%nat),
      (P_symmetric 2%nat 1%nat), (P_symmetric 3%nat 1%nat),
      (P_symmetric 4%nat 1%nat) by (unfold n_x_; lia).
    unfold b. ring. }
  rewrite Ew in Hw.
  assert (E0 : a * s0 + b * s1 = U0) by (unfold s0, s1, d; field; unfold d in Hdet; lra).
  assert (E1 : b * s0 + c * s1 = U1) by (unfold s0, s1, d; field; unfold d in Hdet; lra).
  assert (Hr : 0 < r) by (unfold r, std_laspx_; lra).
  assert (Ha : P_ s 0%nat 0%nat = a - r) by (unfold a; ring).
  assert (Hc : P_ s 1%nat 1%nat = c - r) by (unfold c; ring).
  rewrite Ha, Hc in Hw.
  generalize dependent (quadratic_form n_x_ (P_ s) v). intros q Hw.
  clearbody U0 U1 s0 s1. subst U0 U1.
  pose proof (Rle_0_sqr s0) as Hs0. pose proof (Rle_0_sqr s1) as Hs1.
  unfold Rsqr in Hs0, Hs1. nra.
Qed.

End LidarCovariance.

(** ** Symmetry of the recombination and of the radar update *)

Lemma predicted_covariance_symmetric (n : nat) (X : MatrixXd) (x : VectorXd) :
  symmetric n (predicted_covariance X x).
Proof.
  intros i j _ _. rewrite !predicted_covariance_sum.
  apply sum_upto_ext. intros k _. ring.
Qed.

Lemma Radar_R_symmetric : symmetric n_z_ Radar_R_.
Proof.
  intros i j Hi Hj. unfold n_z_ in *. unfold Radar_R_, comma_init, n_z_.
  do 3 (destruct i as [| i]; [do 3 (destruct j as [| j]; [reflexivity |]); lia |]).
  lia.
Qed.

Lemma Radar_S_symmetric (s : UKF) : symmetric n_z_ (Radar_S s).
Proof.
  intros i j Hi Hj. rewrite !Radar_S_sum.
  rewrite (Radar_R_symmetric i j Hi Hj). f_equal.
  apply sum_upto_ext. intros k _. ring.
Qed.

Lemma UpdateRadar_covariance (s s' : UKF) (m : MeasurementPackage) :
  UpdateRadar s m = Some s' -> P_ s' = radar_covariance s.
Proof.
  unfold UpdateRadar. destruct (sized n_z_ (raw_measurements_ m)); [| discriminate].
  intros E. injection E as <-. reflexivity.
Qed.

Lemma radar_covariance_symmetric (s : UKF) :
  symmetric n_x_ (P_ s) -> symmetric n_x_ (radar_covariance s).
Proof.
  intros HP i j Hi Hj. unfold radar_covariance, msub.
  rewrite (HP i j Hi Hj). f_equal.
  unfold mmul, transpose, n_z_. cbn [sum_upto].
  rewrite (Radar_S_symmetric s 1%nat 0%nat), (Radar_S_symmetric s 2%nat 0%nat),
    (Radar_S_symmetric s 2%nat 1%nat) by (unfold n_z_; lia).
  ring.
Qed.

(** ** Sigma points at range 1 in front of the radar *)

Ltac expand_sigma_sum :=
  unfold n_sig, n_aug_; cbn [Nat.mul Nat.add sum_upto];
  rewrite weights_center; rewrite !weights_spread by discriminate.





(** ** A prediction that loses positive semi-definiteness *)

Lemma sqrt3_facts : 0 < sqrt 3 /\ sqrt 3 * sqrt 3 = 3.
Proof.
  split; [apply sqrt_lt_R0; lra | apply sqrt_sqrt; lra].
Qed.

Lemma correlated_covariance_ok : covariance_ok (P_ correlated_estimator).
Proof.
  pose proof PI_RGT_0 as Hpi.
  split.
  - intros i j Hi Hj. unfold n_x_ in *. cbn [P_ correlated_estimator].
    unfold correlated_covariance.
    do 5 (destruct i as [| i]; [do 5 (destruct j as [| j]; [reflexivity |]); lia |]).
    lia.
  - intros v. unfold quadratic_form, n_x_. cbn [sum_upto P_ correlated_estimator].
    unfold correlated_covariance.
    replace (0 + _ + _ + _ + _ + _)
      with (((v 0%nat + PI * v 3%nat) * (v 0%nat + PI * v 3%nat)
             + (v 1%nat + PI * v 3%nat) * (v 1%nat + PI * v 3%nat)
             + (v 2%nat + PI * v 3%nat) * (v 2%nat + PI * v 3%nat)
             + (PI * v 3%nat) * (PI * v 3%nat)
             + (v 4%nat / 1000) * (v 4%nat / 1000)) / 3) by field.
    pose proof (Rle_0_sqr (v 0%nat + PI * v 3%nat)) as H0.
    pose proof (Rle_0_sqr (v 1%nat + PI * v 3%nat)) as H1.
    pose proof (Rle_0_sqr (v 2%nat + PI * v 3%nat)) as H2.
    pose proof (Rle_0_sqr (PI * v 3%nat)) as H3.
    pose proof (Rle_0_sqr (v 4%nat / 1000)) as H4.
    unfold Rsqr in *. lra.
Qed.

(** The factorisation of the augmented covariance of [correlated_estimator]
    succeeds and returns [example_L]. *)
Lemma correlated_root :
  m_info (llt n_aug_ (P_aug correlated_estimator)) = Success /\
  forall r c, (r < 7)%nat -> (c < 7)%nat ->
    P_aug_root correlated_estimator r c = example_L r c.
Proof.
  destruct sqrt3_facts as [Hq Hqq]. pose proof PI_RGT_0 as Hpi.
  assert (Hdiag : forall j, (j < n_aug_)%nat -> 0 < example_L j j).
  { intros j Hj. unfold n_aug_ in Hj. unfold example_L, example_M.
    do 7 (destruct j as [| j]; [apply Rdiv_lt_0_compat; lra |]). lia. }
  assert (Hprod : forall i j, (j <= i)%nat -> (i < n_aug_)%nat ->
            P_aug correlated_estimator i j
            = sum_upto (S j) (fun l => example_L i l * example_L j l)).
  { intros i j Hji Hi. unfold n_aug_ in Hi.
    unfold P_aug, mset, std_a_, std_yawdd_. cbn [P_ correlated_estimator].
    unfold correlated_covariance, example_L, example_M.
    set (q := sqrt 3) in *.
    do 7 (destruct i as [| i];
          [do 7 (destruct j as [| j];
                 [first [ lia
                        | cbn [sum_upto Nat.eqb Nat.ltb Nat.leb andb];
                          try rewrite <- Hqq; field; lra ] |]); lia |]).
    lia. }
  destruct (llt_of_product n_aug_ (P_aug correlated_estimator) example_L Hdiag Hprod)
    as [Hinfo Hlow].
  split; [exact Hinfo |].
  intros r c Hr Hc. unfold P_aug_root.
  destruct (Nat.le_gt_cases c r) as [Hle | Hgt].
  - apply Hlow; [exact Hle | unfold n_aug_; lia].
  - rewrite matrixL_upper by exact Hgt.
    unfold example_L, example_M.
    do 7 (destruct r as [| r];
          [do 7 (destruct c as [| c];
                 [first [lia | unfold Rdiv; rewrite Rmult_0_l; reflexivity] |]);
           lia |]).
    lia.
Qed.

Lemma correlated_sigma_points (r c : nat) :
  (r < 7)%nat -> (c < n_sig)%nat ->
  GenerateSigmaPoints correlated_estimator (mfill 0) r c
  = (if Nat.eqb r 2 then 2 else 0)
    + (if Nat.eqb c 0 then 0
       else if Nat.leb c 7 then example_M r (c - 1)%nat
            else - example_M r (c - 8)%nat).
Proof.
  intros Hr Hc. destruct sqrt3_facts as [Hq _].
  rewrite GenerateSigmaPoints_columns by exact Hc.
  rewrite lambda_plus_n_aug.
  assert (Hx : x_aug correlated_estimator r = if Nat.eqb r 2 then 2 else 0).
  { unfold x_aug, vset, vfill. cbn [x_ correlated_estimator]. unfold vset, vfill.
    do 7 (destruct r as [| r]; [reflexivity |]). lia. }
  rewrite Hx. unfold n_sig, n_aug_ in Hc.
  do 15 (destruct c as [| c];
         [cbn [Nat.eqb Nat.leb Nat.sub n_aug_];
          rewrite ?(proj2 correlated_root) by lia;
          unfold example_L; first [ring | field; lra] |]).
  lia.
Qed.

Ltac straight_branch :=
  match goal with
  | |- context [Rlt_dec ?a ?b] =>
      destruct (Rlt_dec a b) as [Hbranch | _];
      [exfalso; revert Hbranch; unfold Rabs;
       match goal with |- context [Rcase_abs ?x] => destruct (Rcase_abs x) end; lra |]
  end.

Lemma correlated_prediction_px (c : nat) :
  (c < n_sig)%nat ->
  Xsig_pred_ (Prediction correlated_estimator 1) 0%nat c
  = nth c correlated_predicted_px 0.
Proof.
  intros Hc. unfold Prediction, PredictMeanAndCovariance.
  cbn [Xsig_pred_ with_estimate].
  rewrite SigmaPointsPrediction_columns by (exact Hc || lia).
  unfold predict_sigma_point, vset, col. cbn [Nat.eqb].
  rewrite !correlated_sigma_points by (exact Hc || lia).
  unfold n_sig, n_aug_ in Hc. unfold correlated_predicted_px.
  do 15 (destruct c as [| c];
         [cbn [Nat.eqb Nat.leb Nat.sub nth]; unfold example_M;
          straight_branch; cbn [fst straight_line];
          rewrite ?Rplus_0_l, ?Rplus_0_r, ?cos_neg, ?cos_PI, ?cos_0; lra |]).
  lia.
Qed.

Lemma correlated_prediction_mean_px :
  x_ (Prediction correlated_estimator 1) 0%nat = - 10 / 3.
Proof.
  unfold Prediction, PredictMeanAndCovariance. cbn [x_ with_estimate].
  rewrite predicted_mean_sum. expand_sigma_sum.
  pose proof correlated_prediction_px as H.
  unfold Prediction, PredictMeanAndCovariance in H. cbn [Xsig_pred_ with_estimate] in H.
  rewrite !H by (unfold n_sig, n_aug_; lia).
  unfold correlated_predicted_px. cbn [nth]. lra.
Qed.

(** After the prediction the variance of the x position is negative. *)
Lemma correlated_prediction_variance_px :
  P_ (Prediction correlated_estimator 1) 0%nat 0%nat = - 49 / 9.
Proof.
  destruct sqrt3_facts as [Hq Hqq].
  pose proof correlated_prediction_mean_px as Hm.
  pose proof correlated_prediction_px as H.
  unfold Prediction, PredictMeanAndCovariance in *.
  cbn [x_ P_ Xsig_pred_ with_estimate] in *.
  rewrite predicted_covariance_sum. expand_sigma_sum.
  unfold x_diff, normalize_at, vset, vsub, col. cbn [Nat.eqb].
  rewrite Hm. rewrite !H by (unfold n_sig, n_aug_; lia).
  unfold correlated_predicted_px. cbn [nth].
  set (q := sqrt 3) in *. nra.
Qed.

(** * Further properties of the filter *)

(** ** Angle normalisation keeps the direction *)

Lemma sin_cos_whole_turns (a : R) (k : Z) :
  sin (a + IZR k * (2 * PI)) = sin a /\ cos (a + IZR k * (2 * PI)) = cos a.
Proof.
  destruct (Z_le_gt_dec 0 k) as [Hk | Hk].
  - replace (a + IZR k * (2 * PI)) with (a + 2 * INR (Z.to_nat k) * PI).
    + split; [apply sin_period | apply cos_period].
    + rewrite INR_IZR_INZ, Z2Nat.id by exact Hk. ring.
  - replace a with (a + IZR k * (2 * PI) + 2 * INR (Z.to_nat (- k)) * PI) at 2 4.
    + split; symmetry; [apply sin_period | apply cos_period].
    + rewrite INR_IZR_INZ, Z2Nat.id by lia. rewrite opp_IZR. ring.
Qed.

(** X1: the normalised angle denotes the same direction as the angle (same
    sine and cosine), and normalising twice is normalising once. *)
Theorem normalize_angle_direction (a : R) :
  sin (normalize_angle a) = sin a /\
  cos (normalize_angle a) = cos a /\
  normalize_angle (normalize_angle a) = normalize_angle a.
Proof.
  destruct (normalize_angle_whole_turns a) as [k Hk].
  destruct (sin_cos_whole_turns a k) as [Hs Hc].
  repeat apply conj.
  - rewrite Hk. exact Hs.
  - rewrite Hk. exact Hc.
  - apply normalize_angle_inside, normalize_angle_range.
Qed.

(** ** Sigma points *)

Lemma spread_mean (centre q : R) (a : nat -> R) :
  sum_upto n_sig (fun c => weights_ c * spread centre q a c) = centre.
Proof.
  expand_sigma_sum. unfold spread. cbn [Nat.eqb Nat.leb n_aug_ Nat.sub]. lra.
Qed.

Lemma spread_covariance (x y q : R) (a b : nat -> R) :
  sum_upto n_sig
    (fun c => weights_ c * ((spread x q a c - x) * (spread y q b c - y)))
  = q * q / 3 * sum_upto n_aug_ (fun j => a j * b j).
Proof.
  expand_sigma_sum. unfold spread, n_aug_.
  cbn [Nat.eqb Nat.leb Nat.sub sum_upto]. field.
Qed.

Lemma GenerateSigmaPoints_spread (s : UKF) (X0 : MatrixXd) (r c : nat) :
  (c < n_sig)%nat ->
  GenerateSigmaPoints s X0 r c
  = spread (x_aug s r) (sqrt 3) (fun j => P_aug_root s r j) c.
Proof.
  intros Hc. rewrite GenerateSigmaPoints_columns by exact Hc.
  rewrite lambda_plus_n_aug. reflexivity.
Qed.

(** X2: whatever the factorisation returned, the 15 sigma points are the
    augmented mean and seven pairs placed symmetrically around it, and their
    weighted mean is the augmented mean. *)
Theorem sigma_points_centred (s : UKF) (X0 : MatrixXd) (r : nat) :
  GenerateSigmaPoints s X0 r 0%nat = x_aug s r /\
  (forall i, (i < n_aug_)%nat ->
     GenerateSigmaPoints s X0 r (i + 1)%nat
     + GenerateSigmaPoints s X0 r (i + 1 + n_aug_)%nat
     = 2 * x_aug s r) /\
  sum_upto n_sig (fun c => weights_ c * GenerateSigmaPoints s X0 r c) = x_aug s r.
Proof.
  repeat apply conj.
  - reflexivity.
  - intros i Hi. unfold n_aug_ in Hi.
    rewrite !GenerateSigmaPoints_columns by (unfold n_sig, n_aug_; lia).
    do 7 (destruct i as [| i]; [cbn [Nat.add Nat.eqb Nat.leb n_aug_ Nat.sub]; ring |]).
    lia.
  - rewrite (sum_upto_ext _ _
               (fun c => weights_ c
                         * spread (x_aug s r) (sqrt 3) (fun j => P_aug_root s r j) c)).
    + apply spread_mean.
    + intros c Hc. rewrite GenerateSigmaPoints_spread by exact Hc. reflexivity.
Qed.

Section Factorised.

Variables (s : UKF) (L : MatrixXd).
Hypothesis L_factor : cholesky_factor s L.

Lemma sum_upto_truncate (n m : nat) (f : nat -> R) :
  (n <= m)%nat -> (forall l, (n <= l)%nat -> (l < m)%nat -> f l = 0) ->
  sum_upto m f = sum_upto n f.
Proof.
  intros Hnm Hz. induction m as [| m IH].
  - replace n with 0%nat by lia. reflexivity.
  - destruct (Nat.eq_dec n (S m)) as [-> | Hne]; [reflexivity |].
    cbn [sum_upto]. rewrite IH by (try lia; intros; apply Hz; lia).
    rewrite (Hz m) by lia. ring.
Qed.

Lemma factor_root :
  m_info (llt n_aug_ (P_aug s)) = Success /\
  forall r c, (r < n_aug_)%nat -> (c < n_aug_)%nat -> P_aug_root s r c = L r c.
Proof.
  destruct L_factor as (Hlow & Hdiag & Hprod).
  assert (Hp : forall i j, (j <= i)%nat -> (i < n_aug_)%nat ->
            P_aug s i j = sum_upto (S j) (fun l => L i l * L j l)).
  { intros i j Hji Hi. rewrite Hprod by lia.
    apply sum_upto_truncate; [lia |].
    intros l Hl Hl'. rewrite (Hlow j l) by lia. ring. }
  destruct (llt_of_product n_aug_ (P_aug s) L Hdiag Hp) as [Hinfo Hroot].
  split; [exact Hinfo |].
  intros r c Hr Hc. unfold P_aug_root.
  destruct (Nat.le_gt_cases c r) as [Hle | Hgt].
  - apply Hroot; assumption.
  - rewrite matrixL_upper by exact Hgt. symmetry. apply Hlow; assumption.
Qed.

Lemma factor_sigma_points (X0 : MatrixXd) (r c : nat) :
  (r < n_aug_)%nat -> (c < n_sig)%nat ->
  GenerateSigmaPoints s X0 r c = spread (x_aug s r) (sqrt 3) (L r) c.
Proof.
  intros Hr Hc. rewrite GenerateSigmaPoints_spread by exact Hc.
  unfold n_sig, n_aug_ in Hc. unfold spread.
  do 15 (destruct c as [| c];
         [cbn [Nat.eqb Nat.leb n_aug_ Nat.sub];
          rewrite ?(proj2 factor_root) by (unfold n_aug_ in *; lia); reflexivity |]).
  lia.
Qed.

End Factorised.

(** X3: when the augmented covariance is positive definite, with Cholesky
    factor [L], the factorisation succeeds and the weighted covariance of the
    sigma points around the augmented mean is the augmented covariance. *)
Theorem sigma_points_covariance (s : UKF) (L X0 : MatrixXd) (r c : nat) :
  cholesky_factor s L -> (r < n_aug_)%nat -> (c < n_aug_)%nat ->
  m_info (llt n_aug_ (P_aug s)) = Success /\
  sum_upto n_sig
    (fun i => weights_ i
              * ((GenerateSigmaPoints s X0 r i - x_aug s r)
                 * (GenerateSigmaPoints s X0 c i - x_aug s c)))
  = P_aug s r c.
Proof.
  intros HL Hr Hc. split; [exact (proj1 (factor_root s L HL)) |].
  rewrite (sum_upto_ext _ _
             (fun i => weights_ i
                       * ((spread (x_aug s r) (sqrt 3) (L r) i - x_aug s r)
                          * (spread (x_aug s c) (sqrt 3) (L c) i - x_aug s c)))).
  - rewrite spread_covariance. destruct sqrt3_facts as [_ ->].
    destruct HL as (_ & _ & Hprod). rewrite Hprod by assumption. field.
  - intros i Hi. rewrite !(factor_sigma_points s L HL) by assumption. reflexivity.
Qed.

(** ** The estimator after the first measurement *)

Lemma initial_factor (s s' : UKF) (t : Z) (kind : SensorType) (r0 r1 : R)
      (rest : list R) :
  initialize s {| timestamp_ := t; sensor_type_ := kind;
                  raw_measurements_ := r0 :: r1 :: rest |} = Some s' ->
  cholesky_factor s' (initial_root kind) /\ covariance_ok (P_ s').
Proof.
  intros E.
  destruct (initialize_two_components s t kind r0 r1 rest)
    as (s'' & E' & _ & _ & _ & _ & _ & _ & _ & HP).
  rewrite E in E'. injection E' as <-.
  split; [split; [| split] | split].
  - intros i j Hij Hj. unfold initial_root.
    destruct (Nat.eqb_spec i j); [lia | reflexivity].
  - intros j Hj. unfold n_aug_ in Hj.
    unfold initial_root, std_laspx_, std_radr_, std_radphi_, std_a_, std_yawdd_.
    rewrite Nat.eqb_refl.
    do 7 (destruct j as [| j]; [destruct kind; lra |]). lia.
  - intros i j Hi Hj. unfold n_aug_ in *. unfold P_aug, mset.
    do 7 (destruct i as [| i];
          [do 7 (destruct j as [| j];
                 [cbn [Nat.eqb Nat.ltb Nat.leb andb sum_upto];
                  rewrite ?HP by lia;
                  unfold initial_root, std_laspx_, std_radr_, std_radphi_,
                    std_a_, std_yawdd_;
                  cbn [Nat.eqb Nat.ltb Nat.leb]; destruct kind; lra |]); lia |]).
    lia.
  - intros i j Hi Hj. unfold n_x_ in *. rewrite !HP by lia.
    rewrite (Nat.eqb_sym j i).
    destruct (Nat.eqb_spec i j) as [-> | _]; reflexivity.
  - intros v. unfold quadratic_form, n_x_. cbn [sum_upto].
    rewrite !HP by lia. cbn [Nat.eqb Nat.ltb Nat.leb].
    pose proof (Rle_0_sqr (v 0%nat)) as H0. pose proof (Rle_0_sqr (v 1%nat)) as H1.
    pose proof (Rle_0_sqr (v 2%nat)) as H2. pose proof (Rle_0_sqr (v 3%nat)) as H3.
    pose proof (Rle_0_sqr (v 4%nat)) as H4. unfold Rsqr in *.
    unfold std_laspx_, std_radr_, std_radphi_. destruct kind; nra.
Qed.

(** X4: the first measurement, from either sensor, leaves a symmetric positive
    semi-definite covariance whose augmented covariance is positive definite:
    the factorisation of the first prediction succeeds, with the standard
    deviations as Cholesky factor. *)
Theorem first_measurement_factorises (s : UKF) (t : Z) (kind : SensorType)
        (r0 r1 : R) (rest : list R) :
  is_initialized_ s = false ->
  exists s',
    ProcessMeasurement s {| timestamp_ := t; sensor_type_ := kind;
                            raw_measurements_ := r0 :: r1 :: rest |} = Some s' /\
    covariance_ok (P_ s') /\
    m_info (llt n_aug_ (P_aug s')) = Success /\
    forall r c, (r < n_aug_)%nat -> (c < n_aug_)%nat ->
      P_aug_root s' r c = initial_root kind r c.
Proof.
  intros Hs. unfold ProcessMeasurement. rewrite Hs.
  destruct (initialize_two_components s t kind r0 r1 rest) as (s' & E & _).
  exists s'. split; [exact E |].
  destruct (initial_factor s s' t kind r0 r1 rest E) as [HL Hok].
  split; [exact Hok |]. exact (factor_root s' (initial_root kind) HL).
Qed.

Lemma first_measurement_factorises_witness :
  exists s',
    ProcessMeasurement (UKF_new (vfill 0) (mfill 0) (mfill 0) 0)
      {| timestamp_ := 0; sensor_type_ := RADAR;
         raw_measurements_ := [5; 0; 1] |} = Some s' /\
    covariance_ok (P_ s') /\
    m_info (llt n_aug_ (P_aug s')) = Success /\
    forall r c, (r < n_aug_)%nat -> (c < n_aug_)%nat ->
      P_aug_root s' r c = initial_root RADAR r c.
Proof.
  apply (first_measurement_factorises
           (UKF_new (vfill 0) (mfill 0) (mfill 0) 0) 0%Z RADAR 5 0 [1]).
  reflexivity.
Defined.

Lemma first_lidar_estimate_factor :
  cholesky_factor first_lidar_estimate (initial_root LASER).
Proof.
  apply (initial_factor (UKF_new (vfill 0) (mfill 0) (mfill 0) 0)
           first_lidar_estimate 0%Z LASER 1 2 []).
  reflexivity.
Qed.

Lemma sigma_points_covariance_witness :
  m_info (llt n_aug_ (P_aug first_lidar_estimate)) = Success /\
  sum_upto n_sig
    (fun i => weights_ i
              * ((GenerateSigmaPoints first_lidar_estimate (mfill 0) 0%nat i
                  - x_aug first_lidar_estimate 0%nat)
                 * (GenerateSigmaPoints first_lidar_estimate (mfill 0) 0%nat i
                    - x_aug first_lidar_estimate 0%nat)))
  = P_aug first_lidar_estimate 0%nat 0%nat.
Proof.
  apply (sigma_points_covariance first_lidar_estimate (initial_root LASER)).
  - exact first_lidar_estimate_factor.
  - unfold n_aug_. lia.
  - unfold n_aug_. lia.
Defined.

(** ** Prediction *)

Lemma predict_sigma_point_rows (a : VectorXd) (dt : R) :
  predict_sigma_point a dt 2%nat = a 2%nat + dt * a 5%nat /\
  predict_sigma_point a dt 3%nat
  = a 3%nat + a 4%nat * dt + 5 / 10 * dt * dt * a 6%nat /\
  predict_sigma_point a dt 4%nat = a 4%nat + dt * a 6%nat.
Proof. repeat apply conj; reflexivity. Qed.

Lemma predict_sigma_point_zero (a : VectorXd) (r : nat) :
  (r < 5)%nat -> predict_sigma_point a 0 r = a r.
Proof.
  intros Hr. unfold predict_sigma_point, vset.
  do 5 (destruct r as [| r];
        [cbn [Nat.eqb];
         try (destruct (Rlt_dec (1 / 1000) (Rabs (a 4%nat)));
              unfold curved_path, straight_line; cbn [fst snd];
              replace (a 3%nat + a 4%nat * 0) with (a 3%nat) by ring;
              unfold Rdiv);
         ring |]).
  lia.
Qed.

Lemma Prediction_sigma (s : UKF) (dt : R) (r i : nat) :
  (r < 5)%nat -> (i < n_sig)%nat ->
  Xsig_pred_ (Prediction s dt) r i
  = predict_sigma_point (col (GenerateSigmaPoints s (mfill 0)) i) dt r.
Proof.
  intros Hr Hi. unfold Prediction, PredictMeanAndCovariance.
  cbn [Xsig_pred_ with_estimate].
  apply SigmaPointsPrediction_columns; assumption.
Qed.

Lemma Prediction_covariance (s : UKF) (dt : R) (r c : nat) :
  P_ (Prediction s dt) r c
  = sum_upto n_sig
      (fun i => weights_ i
                * (x_diff (Xsig_pred_ (Prediction s dt)) (x_ (Prediction s dt)) i r
                   * x_diff (Xsig_pred_ (Prediction s dt)) (x_ (Prediction s dt)) i c)).
Proof.
  unfold Prediction, PredictMeanAndCovariance.
  cbn [P_ x_ Xsig_pred_ with_estimate]. apply predicted_covariance_sum.
Qed.

Lemma x_diff_plain (X : MatrixXd) (x : VectorXd) (i r : nat) :
  r <> 3%nat -> x_diff X x i r = X r i - x r.
Proof.
  intros Hr. unfold x_diff, normalize_at, vset.
  destruct (Nat.eqb_spec r 3) as [E | _]; [contradiction | reflexivity].
Qed.

Lemma x_diff_heading (X : MatrixXd) (x : VectorXd) (i : nat) :
  - PI <= X 3%nat i - x 3%nat <= PI ->
  x_diff X x i 3%nat = X 3%nat i - x 3%nat.
Proof.
  intros H. unfold x_diff, normalize_at, vset. cbn [Nat.eqb].
  apply normalize_angle_inside. exact H.
Qed.

Lemma x_diff_within (s : UKF) (i r : nat) :
  headings_within_half_turn s -> (i < n_sig)%nat ->
  x_diff (Xsig_pred_ s) (x_ s) i r = Xsig_pred_ s r i - x_ s r.
Proof.
  intros H Hi. destruct (Nat.eq_dec r 3) as [-> | Hr].
  - apply x_diff_heading. apply H. exact Hi.
  - apply x_diff_plain. exact Hr.
Qed.

(** The covariance entry of two rows of points spread around the mean. *)
Lemma spread_rows_covariance (X : MatrixXd) (x : VectorXd) (r c : nat)
      (q : R) (a b : nat -> R) :
  (forall i, (i < n_sig)%nat -> x_diff X x i r = spread (x r) q a i - x r) ->
  (forall i, (i < n_sig)%nat -> x_diff X x i c = spread (x c) q b i - x c) ->
  sum_upto n_sig (fun i => weights_ i * (x_diff X x i r * x_diff X x i c))
  = q * q / 3 * sum_upto n_aug_ (fun j => a j * b j).
Proof.
  intros Hr Hc. rewrite <- spread_covariance with (x := x r) (y := x c).
  apply sum_upto_ext. intros i Hi. rewrite Hr, Hc by exact Hi. reflexivity.
Qed.

Lemma sqrt3_lt_PI : sqrt 3 < PI.
Proof.
  destruct sqrt3_facts as [Hpos Hsq]. pose proof PI_gt_31. nra.
Qed.

(** The elapsed-time-free part of the prediction: the mean. *)
Lemma Prediction_zero_mean (s : UKF) (r : nat) :
  (r < 5)%nat -> x_ (Prediction s 0) r = x_ s r.
Proof.
  intros Hr. rewrite Prediction_mean by exact Hr.
  rewrite (sum_upto_ext _ _
             (fun i => weights_ i
                       * spread (x_aug s r) (sqrt 3) (fun j => P_aug_root s r j) i)).
  - rewrite spread_mean. unfold x_aug, vset.
    do 5 (destruct r as [| r]; [reflexivity |]). lia.
  - intros i Hi. rewrite predict_sigma_point_zero by exact Hr.
    unfold col. rewrite GenerateSigmaPoints_spread by exact Hi. reflexivity.
Qed.

Lemma x_aug_state (s : UKF) (r : nat) : (r < 5)%nat -> x_aug s r = x_ s r.
Proof.
  intros Hr. unfold x_aug, vset.
  do 5 (destruct r as [| r]; [reflexivity |]). lia.
Qed.

Lemma P_aug_state (s : UKF) (r c : nat) :
  (r < 5)%nat -> (c < 5)%nat -> P_aug s r c = P_ s r c.
Proof.
  intros Hr Hc. unfold P_aug, mset.
  do 5 (destruct r as [| r];
        [do 5 (destruct c as [| c]; [reflexivity |]); lia |]).
  lia.
Qed.

Section PredictionOfFactorised.

Variables (s : UKF) (L : MatrixXd).
Hypothesis L_factor : cholesky_factor s L.

Lemma Prediction_zero_points (r i : nat) :
  (r < 5)%nat -> (i < n_sig)%nat ->
  Xsig_pred_ (Prediction s 0) r i = spread (x_ s r) (sqrt 3) (L r) i.
Proof.
  intros Hr Hi. rewrite Prediction_sigma by assumption.
  rewrite predict_sigma_point_zero by exact Hr. unfold col.
  rewrite (factor_sigma_points s L L_factor) by (unfold n_aug_; lia || exact Hi).
  rewrite x_aug_state by exact Hr. reflexivity.
Qed.

Lemma Prediction_zero_covariance (r c : nat) :
  headings_within_half_turn (Prediction s 0) ->
  (r < 5)%nat -> (c < 5)%nat ->
  P_ (Prediction s 0) r c = P_ s r c.
Proof.
  intros Hh Hr Hc. rewrite Prediction_covariance.
  rewrite (spread_rows_covariance _ _ r c (sqrt 3) (L r) (L c)).
  - destruct sqrt3_facts as [_ ->]. destruct L_factor as (_ & _ & Hprod).
    rewrite <- Hprod by (unfold n_aug_; lia).
    rewrite P_aug_state by assumption. field.
  - intros i Hi. rewrite x_diff_within by assumption.
    rewrite Prediction_zero_points, Prediction_zero_mean by assumption.
    reflexivity.
  - intros i Hi. rewrite x_diff_within by assumption.
    rewrite Prediction_zero_points, Prediction_zero_mean by assumption.
    reflexivity.
Qed.

(** The rows of the speed, the heading and the yaw rate of the predicted
    sigma points. *)
Lemma Prediction_speed_points (dt : R) (i : nat) :
  (i < n_sig)%nat ->
  Xsig_pred_ (Prediction s dt) 2%nat i
  = spread (x_ s 2%nat) (sqrt 3) (fun j => L 2%nat j + dt * L 5%nat j) i.
Proof.
  intros Hi. rewrite Prediction_sigma by (lia || exact Hi).
  rewrite (proj1 (predict_sigma_point_rows _ dt)). unfold col.
  rewrite !(factor_sigma_points s L L_factor) by (unfold n_aug_; lia || exact Hi).
  unfold n_sig, n_aug_ in Hi. unfold spread, x_aug, vset.
  do 15 (destruct i as [| i];
         [cbn [Nat.eqb Nat.leb Nat.ltb n_aug_ Nat.sub]; ring |]).
  lia.
Qed.

Lemma Prediction_heading_points (dt : R) (i : nat) :
  (i < n_sig)%nat ->
  Xsig_pred_ (Prediction s dt) 3%nat i
  = spread (x_ s 3%nat + x_ s 4%nat * dt) (sqrt 3)
      (fun j => L 3%nat j + dt * L 4%nat j + 5 / 10 * dt * dt * L 6%nat j) i.
Proof.
  intros Hi. rewrite Prediction_sigma by (lia || exact Hi).
  rewrite (proj1 (proj2 (predict_sigma_point_rows _ dt))). unfold col.
  rewrite !(factor_sigma_points s L L_factor) by (unfold n_aug_; lia || exact Hi).
  unfold n_sig, n_aug_ in Hi. unfold spread, x_aug, vset.
  do 15 (destruct i as [| i];
         [cbn [Nat.eqb Nat.leb Nat.ltb n_aug_ Nat.sub]; ring |]).
  lia.
Qed.

Lemma Prediction_yaw_rate_points (dt : R) (i : nat) :
  (i < n_sig)%nat ->
  Xsig_pred_ (Prediction s dt) 4%nat i
  = spread (x_ s 4%nat) (sqrt 3) (fun j => L 4%nat j + dt * L 6%nat j) i.
Proof.
  intros Hi. rewrite Prediction_sigma by (lia || exact Hi).
  rewrite (proj2 (proj2 (predict_sigma_point_rows _ dt))). unfold col.
  rewrite !(factor_sigma_points s L L_factor) by (unfold n_aug_; lia || exact Hi).
  unfold n_sig, n_aug_ in Hi. unfold spread, x_aug, vset.
  do 15 (destruct i as [| i];
         [cbn [Nat.eqb Nat.leb Nat.ltb n_aug_ Nat.sub]; ring |]).
  lia.
Qed.

Lemma Prediction_speed_diff (dt : R) (i : nat) :
  (i < n_sig)%nat ->
  x_diff (Xsig_pred_ (Prediction s dt)) (x_ (Prediction s dt)) i 2%nat
  = spread (x_ (Prediction s dt) 2%nat) (sqrt 3)
      (fun j => L 2%nat j + dt * L 5%nat j) i
    - x_ (Prediction s dt) 2%nat.
Proof.
  intros Hi. rewrite x_diff_plain by discriminate.
  rewrite Prediction_speed_points by exact Hi.
  rewrite (proj1 (Prediction_linear_rows s dt)). reflexivity.
Qed.

Lemma Prediction_yaw_rate_diff (dt : R) (i : nat) :
  (i < n_sig)%nat ->
  x_diff (Xsig_pred_ (Prediction s dt)) (x_ (Prediction s dt)) i 4%nat
  = spread (x_ (Prediction s dt) 4%nat) (sqrt 3)
      (fun j => L 4%nat j + dt * L 6%nat j) i
    - x_ (Prediction s dt) 4%nat.
Proof.
  intros Hi. rewrite x_diff_plain by discriminate.
  rewrite Prediction_yaw_rate_points by exact Hi.
  rewrite (proj2 (proj2 (Prediction_linear_rows s dt))). reflexivity.
Qed.

Lemma Prediction_heading_diff (dt : R) (i : nat) :
  headings_within_half_turn (Prediction s dt) -> (i < n_sig)%nat ->
  x_diff (Xsig_pred_ (Prediction s dt)) (x_ (Prediction s dt)) i 3%nat
  = spread (x_ (Prediction s dt) 3%nat) (sqrt 3)
      (fun j => L 3%nat j + dt * L 4%nat j + 5 / 10 * dt * dt * L 6%nat j) i
    - x_ (Prediction s dt) 3%nat.
Proof.
  intros Hh Hi. rewrite x_diff_within by assumption.
  rewrite Prediction_heading_points by exact Hi.
  rewrite (proj1 (proj2 (Prediction_linear_rows s dt))). reflexivity.
Qed.

(** The products of the rows of the factor, entry by entry. *)
Lemma factor_products (i j : nat) :
  (i < n_aug_)%nat -> (j < n_aug_)%nat ->
  L i 0%nat * L j 0%nat + L i 1%nat * L j 1%nat + L i 2%nat * L j 2%nat
  + L i 3%nat * L j 3%nat + L i 4%nat * L j 4%nat + L i 5%nat * L j 5%nat
  + L i 6%nat * L j 6%nat = P_aug s i j.
Proof.
  intros Hi Hj. destruct L_factor as (_ & _ & Hprod).
  rewrite Hprod by assumption. unfold n_aug_. cbn [sum_upto]. ring.
Qed.

End PredictionOfFactorised.

Ltac use_product HL t i j :=
  let H := fresh "Hprod" in
  pose proof (f_equal (Rmult t)
                (factor_products _ _ HL i j
                   ltac:(unfold n_aug_; lia) ltac:(unfold n_aug_; lia))) as H;
  unfold P_aug, mset in H; cbn [Nat.eqb Nat.ltb Nat.leb andb] in H.

Ltac spread_entry HL r c a b :=
  rewrite Prediction_covariance;
  rewrite (spread_rows_covariance _ _ r c (sqrt 3) a b);
  [ destruct sqrt3_facts as [_ ->]; unfold n_aug_; cbn [sum_upto] | | ].

(** X5: a prediction over no elapsed time (two measurements with the same
    time stamp) returns the estimate it started from, mean and covariance,
    when the augmented covariance is positive definite and no heading
    difference is wrapped. *)
Theorem prediction_over_no_time (s : UKF) (L : MatrixXd) (r c : nat) :
  cholesky_factor s L -> headings_within_half_turn (Prediction s 0) ->
  (r < 5)%nat -> (c < 5)%nat ->
  x_ (Prediction s 0) r = x_ s r /\ P_ (Prediction s 0) r c = P_ s r c.
Proof.
  intros HL Hh Hr Hc. split.
  - apply Prediction_zero_mean. exact Hr.
  - apply (Prediction_zero_covariance s L HL); assumption.
Qed.

Lemma first_lidar_estimate_headings (dt : R) :
  0 <= dt <= 1 / 10 ->
  headings_within_half_turn (Prediction first_lidar_estimate dt).
Proof.
  intros Hdt i Hi.
  rewrite (Prediction_heading_points _ _ first_lidar_estimate_factor) by exact Hi.
  rewrite (proj1 (proj2 (Prediction_linear_rows first_lidar_estimate dt))).
  pose proof sqrt3_lt_PI as Hq. destruct sqrt3_facts as [Hq0 _].
  unfold n_sig, n_aug_ in Hi. unfold spread, initial_root, std_yawdd_.
  set (q := sqrt 3) in *.
  assert (H1 : 0 <= q * dt <= q / 10) by nra.
  assert (H2 : 0 <= q * dt * dt <= q / 100) by nra.
  do 15 (destruct i as [| i];
         [cbn [Nat.eqb Nat.leb Nat.ltb n_aug_ Nat.sub]; lra |]).
  lia.
Qed.

Lemma prediction_over_no_time_witness :
  x_ (Prediction first_lidar_estimate 0) 0%nat = x_ first_lidar_estimate 0%nat /\
  P_ (Prediction first_lidar_estimate 0) 0%nat 0%nat
  = P_ first_lidar_estimate 0%nat 0%nat.
Proof.
  apply (prediction_over_no_time first_lidar_estimate (initial_root LASER)).
  - exact first_lidar_estimate_factor.
  - apply first_lidar_estimate_headings. lra.
  - lia.
  - lia.
Defined.

(** X6: the speed and the yaw rate are predicted linearly, so their predicted
    covariance is exactly the covariance before plus the process noise: the
    variances grow by the squared elapsed time times the noise variance and
    their covariance is kept. *)
Theorem speed_and_yaw_rate_covariance (s : UKF) (L : MatrixXd) (dt : R) :
  cholesky_factor s L ->
  P_ (Prediction s dt) 2%nat 2%nat
  = P_ s 2%nat 2%nat + dt * dt * (std_a_ * std_a_) /\
  P_ (Prediction s dt) 4%nat 4%nat
  = P_ s 4%nat 4%nat + dt * dt * (std_yawdd_ * std_yawdd_) /\
  P_ (Prediction s dt) 2%nat 4%nat = P_ s 2%nat 4%nat /\
  P_ (Prediction s dt) 4%nat 2%nat = P_ s 4%nat 2%nat.
Proof.
  intros HL. repeat apply conj.
  - spread_entry HL 2%nat 2%nat
      (fun j => L 2%nat j + dt * L 5%nat j) (fun j => L 2%nat j + dt * L 5%nat j).
    + use_product HL 1 2%nat 2%nat. use_product HL dt 2%nat 5%nat.
      use_product HL (dt * dt) 5%nat 5%nat. lra.
    + intros i Hi. apply (Prediction_speed_diff s L HL). exact Hi.
    + intros i Hi. apply (Prediction_speed_diff s L HL). exact Hi.
  - spread_entry HL 4%nat 4%nat
      (fun j => L 4%nat j + dt * L 6%nat j) (fun j => L 4%nat j + dt * L 6%nat j).
    + use_product HL 1 4%nat 4%nat. use_product HL dt 4%nat 6%nat.
      use_product HL (dt * dt) 6%nat 6%nat. lra.
    + intros i Hi. apply (Prediction_yaw_rate_diff s L HL). exact Hi.
    + intros i Hi. apply (Prediction_yaw_rate_diff s L HL). exact Hi.
  - spread_entry HL 2%nat 4%nat
      (fun j => L 2%nat j + dt * L 5%nat j) (fun j => L 4%nat j + dt * L 6%nat j).
    + use_product HL 1 2%nat 4%nat. use_product HL dt 2%nat 6%nat.
      use_product HL dt 5%nat 4%nat. use_product HL (dt * dt) 5%nat 6%nat. lra.
    + intros i Hi. apply (Prediction_speed_diff s L HL). exact Hi.
    + intros i Hi. apply (Prediction_yaw_rate_diff s L HL). exact Hi.
  - spread_entry HL 4%nat 2%nat
      (fun j => L 4%nat j + dt * L 6%nat j) (fun j => L 2%nat j + dt * L 5%nat j).
    + use_product HL 1 4%nat 2%nat. use_product HL dt 6%nat 2%nat.
      use_product HL dt 4%nat 5%nat. use_product HL (dt * dt) 6%nat 5%nat. lra.
    + intros i Hi. apply (Prediction_yaw_rate_diff s L HL). exact Hi.
    + intros i Hi. apply (Prediction_speed_diff s L HL). exact Hi.
Qed.

Lemma speed_and_yaw_rate_covariance_witness :
  P_ (Prediction first_lidar_estimate (1 / 10)) 2%nat 2%nat
  = P_ first_lidar_estimate 2%nat 2%nat + 1 / 10 * (1 / 10) * (std_a_ * std_a_) /\
  P_ (Prediction first_lidar_estimate (1 / 10)) 4%nat 4%nat
  = P_ first_lidar_estimate 4%nat 4%nat
    + 1 / 10 * (1 / 10) * (std_yawdd_ * std_yawdd_) /\
  P_ (Prediction first_lidar_estimate (1 / 10)) 2%nat 4%nat
  = P_ first_lidar_estimate 2%nat 4%nat /\
  P_ (Prediction first_lidar_estimate (1 / 10)) 4%nat 2%nat
  = P_ first_lidar_estimate 4%nat 2%nat.
Proof.
  apply (speed_and_yaw_rate_covariance first_lidar_estimate (initial_root LASER)).
  exact first_lidar_estimate_factor.
Defined.

(** X7: when no heading difference is wrapped, the heading is predicted
    linearly too: its variance and its covariances with the speed and the yaw
    rate are those of the linear model [yaw + yawd dt + dt^2/2 nu]. *)
Theorem heading_covariance (s : UKF) (L : MatrixXd) (dt : R) :
  cholesky_factor s L -> headings_within_half_turn (Prediction s dt) ->
  P_ (Prediction s dt) 3%nat 3%nat
  = P_ s 3%nat 3%nat + 2 * dt * P_ s 3%nat 4%nat + dt * dt * P_ s 4%nat 4%nat
    + dt * dt * dt * dt / 4 * (std_yawdd_ * std_yawdd_) /\
  P_ (Prediction s dt) 3%nat 4%nat
  = P_ s 3%nat 4%nat + dt * P_ s 4%nat 4%nat
    + dt * dt * dt / 2 * (std_yawdd_ * std_yawdd_) /\
  P_ (Prediction s dt) 2%nat 3%nat = P_ s 2%nat 3%nat + dt * P_ s 2%nat 4%nat.
Proof.
  intros HL Hh. repeat apply conj.
  - spread_entry HL 3%nat 3%nat
      (fun j => L 3%nat j + dt * L 4%nat j + 5 / 10 * dt * dt * L 6%nat j)
      (fun j => L 3%nat j + dt * L 4%nat j + 5 / 10 * dt * dt * L 6%nat j).
    + use_product HL 1 3%nat 3%nat. use_product HL dt 3%nat 4%nat.
      use_product HL (dt * dt) 3%nat 6%nat. use_product HL (dt * dt) 4%nat 4%nat.
      use_product HL (dt * dt * dt) 4%nat 6%nat.
      use_product HL (dt * dt * dt * dt) 6%nat 6%nat. lra.
    + intros i Hi. apply (Prediction_heading_diff s L HL); assumption.
    + intros i Hi. apply (Prediction_heading_diff s L HL); assumption.
  - spread_entry HL 3%nat 4%nat
      (fun j => L 3%nat j + dt * L 4%nat j + 5 / 10 * dt * dt * L 6%nat j)
      (fun j => L 4%nat j + dt * L 6%nat j).
    + use_product HL 1 3%nat 4%nat. use_product HL dt 3%nat 6%nat.
      use_product HL dt 4%nat 4%nat. use_product HL (dt * dt) 4%nat 6%nat.
      use_product HL (dt * dt) 6%nat 4%nat.
      use_product HL (dt * dt * dt) 6%nat 6%nat. lra.
    + intros i Hi. apply (Prediction_heading_diff s L HL); assumption.
    + intros i Hi. apply (Prediction_yaw_rate_diff s L HL). exact Hi.
  - spread_entry HL 2%nat 3%nat
      (fun j => L 2%nat j + dt * L 5%nat j)
      (fun j => L 3%nat j + dt * L 4%nat j + 5 / 10 * dt * dt * L 6%nat j).
    + use_product HL 1 2%nat 3%nat. use_product HL dt 2%nat 4%nat.
      use_product HL (dt * dt) 2%nat 6%nat. use_product HL dt 5%nat 3%nat.
      use_product HL (dt * dt) 5%nat 4%nat.
      use_product HL (dt * dt * dt) 5%nat 6%nat. lra.
    + intros i Hi. apply (Prediction_speed_diff s L HL). exact Hi.
    + intros i Hi. apply (Prediction_heading_diff s L HL); assumption.
Qed.

Lemma heading_covariance_witness :
  P_ (Prediction first_lidar_estimate (1 / 10)) 3%nat 3%nat
  = P_ first_lidar_estimate 3%nat 3%nat
    + 2 * (1 / 10) * P_ first_lidar_estimate 3%nat 4%nat
    + 1 / 10 * (1 / 10) * P_ first_lidar_estimate 4%nat 4%nat
    + 1 / 10 * (1 / 10) * (1 / 10) * (1 / 10) / 4 * (std_yawdd_ * std_yawdd_) /\
  P_ (Prediction first_lidar_estimate (1 / 10)) 3%nat 4%nat
  = P_ first_lidar_estimate 3%nat 4%nat
    + 1 / 10 * P_ first_lidar_estimate 4%nat 4%nat
    + 1 / 10 * (1 / 10) * (1 / 10) / 2 * (std_yawdd_ * std_yawdd_) /\
  P_ (Prediction first_lidar_estimate (1 / 10)) 2%nat 3%nat
  = P_ first_lidar_estimate 2%nat 3%nat
    + 1 / 10 * P_ first_lidar_estimate 2%nat 4%nat.
Proof.
  apply (heading_covariance first_lidar_estimate (initial_root LASER)).
  - exact first_lidar_estimate_factor.
  - apply first_lidar_estimate_headings. lra.
Defined.

(** ** The motion model without noise *)

Lemma predict_noise_free (p : VectorXd) (dt : R) :
  predict_sigma_point (noise_free p) dt 0%nat
  = fst (if Rlt_dec (1 / 1000) (Rabs (p 4%nat))
         then curved_path (p 0%nat) (p 1%nat) (p 2%nat) (p 3%nat) (p 4%nat) dt
         else straight_line (p 0%nat) (p 1%nat) (p 2%nat) (p 3%nat) dt) /\
  predict_sigma_point (noise_free p) dt 1%nat
  = snd (if Rlt_dec (1 / 1000) (Rabs (p 4%nat))
         then curved_path (p 0%nat) (p 1%nat) (p 2%nat) (p 3%nat) (p 4%nat) dt
         else straight_line (p 0%nat) (p 1%nat) (p 2%nat) (p 3%nat) dt) /\
  predict_sigma_point (noise_free p) dt 2%nat = p 2%nat /\
  predict_sigma_point (noise_free p) dt 3%nat = p 3%nat + p 4%nat * dt /\
  predict_sigma_point (noise_free p) dt 4%nat = p 4%nat.
Proof.
  unfold predict_sigma_point, noise_free, vset.
  cbn [Nat.eqb Nat.ltb Nat.leb]. repeat apply conj; ring.
Qed.

Lemma sin_sqr_le (x : R) : sin x * sin x <= x * x.
Proof.
  assert (Hpos : forall y, 0 < y -> sin y * sin y <= y * y).
  { intros y Hy. pose proof (SIN_bound y) as Hb.
    destruct (Rle_dec 1 y) as [H1 | H1]; [nra |].
    pose proof (sin_lt_x y Hy) as Hlt. pose proof PI_gt_31 as Hpi.
    assert (Hs : 0 < sin y) by (apply sin_gt_0; lra).
    nra. }
  destruct (Rtotal_order x 0) as [Hx | [-> | Hx]].
  - pose proof (Hpos (- x) ltac:(lra)) as H. rewrite sin_neg in H. nra.
  - rewrite sin_0. lra.
  - apply Hpos. exact Hx.
Qed.

(** The squared chord of the arc from heading [yaw] to [yaw + theta]. *)
Lemma chord_sqr (yaw theta : R) :
  (sin (yaw + theta) - sin yaw) * (sin (yaw + theta) - sin yaw)
  + (-1 * cos (yaw + theta) + cos yaw) * (-1 * cos (yaw + theta) + cos yaw)
  = 4 * (sin (theta / 2) * sin (theta / 2)).
Proof.
  pose proof (sin2_cos2 (yaw + theta)) as H1. pose proof (sin2_cos2 yaw) as H2.
  unfold Rsqr in H1, H2.
  pose proof (cos_minus (yaw + theta) yaw) as Hm.
  replace (yaw + theta - yaw) with (2 * (theta / 2)) in Hm by field.
  rewrite cos_2a_sin in Hm. nra.
Qed.

(** X8: without process noise the motion model keeps the speed and the yaw
    rate, advances the heading by [yawd dt], and moves the position by at most
    the travelled distance [|v dt|] on the curved path, by exactly that on the
    straight line taken when the yaw rate is at most 0.001 in magnitude. *)
Theorem motion_without_noise (p : VectorXd) (dt : R) :
  let q := predict_sigma_point (noise_free p) dt in
  let d := (q 0%nat - p 0%nat) * (q 0%nat - p 0%nat)
           + (q 1%nat - p 1%nat) * (q 1%nat - p 1%nat) in
  q 2%nat = p 2%nat /\
  q 3%nat = p 3%nat + p 4%nat * dt /\
  q 4%nat = p 4%nat /\
  if Rlt_dec (1 / 1000) (Rabs (p 4%nat))
  then d <= (p 2%nat * dt) * (p 2%nat * dt)
  else d = (p 2%nat * dt) * (p 2%nat * dt).
Proof.
  intros q d. subst d q.
  destruct (predict_noise_free p dt) as (-> & -> & -> & -> & ->).
  split; [reflexivity |]. split; [reflexivity |]. split; [reflexivity |].
  destruct (Rlt_dec (1 / 1000) (Rabs (p 4%nat))) as [Hc | Hs].
  - unfold curved_path. cbn [fst snd].
    assert (Hy : p 4%nat <> 0).
    { intros E. rewrite E, Rabs_R0 in Hc. lra. }
    pose proof (chord_sqr (p 3%nat) (p 4%nat * dt)) as Hch.
    pose proof (sin_sqr_le (p 4%nat * dt / 2)) as Hsin.
    set (A := sin (p 3%nat + p 4%nat * dt) - sin (p 3%nat)) in *.
    set (B := -1 * cos (p 3%nat + p 4%nat * dt) + cos (p 3%nat)) in *.
    set (S := sin (p 4%nat * dt / 2)) in *.
    replace ((p 0%nat + p 2%nat / p 4%nat * A - p 0%nat)
             * (p 0%nat + p 2%nat / p 4%nat * A - p 0%nat)
             + (p 1%nat + p 2%nat / p 4%nat * B - p 1%nat)
               * (p 1%nat + p 2%nat / p 4%nat * B - p 1%nat))
      with ((p 2%nat / p 4%nat) * (p 2%nat / p 4%nat) * (A * A + B * B))
      by (field; exact Hy).
    rewrite Hch.
    replace (p 2%nat * dt * (p 2%nat * dt))
      with ((p 2%nat / p 4%nat) * (p 2%nat / p 4%nat)
            * (4 * (p 4%nat * dt / 2 * (p 4%nat * dt / 2))))
      by (field; exact Hy).
    apply Rmult_le_compat_l; [| lra].
    pose proof (Rle_0_sqr (p 2%nat / p 4%nat)) as Hsq. unfold Rsqr in Hsq.
    exact Hsq.
  - unfold straight_line. cbn [fst snd].
    pose proof (sin2_cos2 (p 3%nat)) as H. unfold Rsqr in H.
    replace ((p 0%nat + p 2%nat * cos (p 3%nat) * dt - p 0%nat)
             * (p 0%nat + p 2%nat * cos (p 3%nat) * dt - p 0%nat)
             + (p 1%nat + p 2%nat * sin (p 3%nat) * dt - p 1%nat)
               * (p 1%nat + p 2%nat * sin (p 3%nat) * dt - p 1%nat))
      with (p 2%nat * dt * (p 2%nat * dt)
            * (sin (p 3%nat) * sin (p 3%nat) + cos (p 3%nat) * cos (p 3%nat)))
      by ring.
    rewrite H. ring.
Qed.

(** X9: without process noise the motion model composes in time when the yaw
    rate is above 0.001 in magnitude, or zero: predicting over [dt1] and then
    over [dt2] is predicting over [dt1 + dt2]. *)
Theorem motion_composes (p : VectorXd) (dt1 dt2 : R) (r : nat) :
  1 / 1000 < Rabs (p 4%nat) \/ p 4%nat = 0 ->
  (r < 5)%nat ->
  predict_sigma_point (noise_free (predict_sigma_point (noise_free p) dt1)) dt2 r
  = predict_sigma_point (noise_free p) (dt1 + dt2) r.
Proof.
  intros Hy Hr.
  destruct (predict_noise_free (predict_sigma_point (noise_free p) dt1) dt2)
    as (E0 & E1 & E2 & E3 & E4).
  destruct (predict_noise_free p dt1) as (F0 & F1 & F2 & F3 & F4).
  destruct (predict_noise_free p (dt1 + dt2)) as (G0 & G1 & G2 & G3 & G4).
  rewrite F0, F1, F2, F3, F4 in E0, E1.
  rewrite F2 in E2. rewrite F3, F4 in E3. rewrite F4 in E4.
  destruct r as [| [| [| [| [| r]]]]]; [ | | | | | lia].
  - rewrite E0, G0.
    destruct (Rlt_dec (1 / 1000) (Rabs (p 4%nat))) as [Hc | Hs].
    + unfold curved_path. cbn [fst snd].
      replace (p 3%nat + p 4%nat * dt1 + p 4%nat * dt2)
        with (p 3%nat + p 4%nat * (dt1 + dt2)) by ring.
      unfold Rdiv. ring.
    + destruct Hy as [Hy | Hy]; [contradiction |].
      unfold straight_line. cbn [fst snd]. rewrite Hy.
      replace (p 3%nat + 0 * dt1) with (p 3%nat) by ring. ring.
  - rewrite E1, G1.
    destruct (Rlt_dec (1 / 1000) (Rabs (p 4%nat))) as [Hc | Hs].
    + unfold curved_path. cbn [fst snd].
      replace (p 3%nat + p 4%nat * dt1 + p 4%nat * dt2)
        with (p 3%nat + p 4%nat * (dt1 + dt2)) by ring.
      unfold Rdiv. ring.
    + destruct Hy as [Hy | Hy]; [contradiction |].
      unfold straight_line. cbn [fst snd]. rewrite Hy.
      replace (p 3%nat + 0 * dt1) with (p 3%nat) by ring. ring.
  - rewrite E2, G2. reflexivity.
  - rewrite E3, G3. ring.
  - rewrite E4, G4. reflexivity.
Qed.

Lemma motion_composes_witness :
  predict_sigma_point
    (noise_free (predict_sigma_point (noise_free (fun _ => 1)) 1)) 2 0%nat
  = predict_sigma_point (noise_free (fun _ => 1)) (1 + 2) 0%nat.
Proof.
  apply (motion_composes (fun _ => 1) 1 2 0%nat).
  - left. rewrite Rabs_R1. lra.
  - lia.
Defined.

(** ** The radar measurement model *)

Lemma atan2_range (y x : R) : - PI < atan2 y x <= PI.
Proof.
  pose proof PI_RGT_0 as Hpi. unfold atan2.
  destruct (total_order_T x 0) as [[Hx | Hx] | Hx].
  - pose proof (atan_bound (y / x)) as Hb.
    destruct (Rle_dec 0 y) as [Hy | Hy].
    + assert (H0 : atan (y / x) <= 0).
      { destruct Hy as [Hy | <-].
        - left. rewrite <- atan_0. apply atan_increasing.
          assert (Hi : / x < 0) by (apply Rinv_lt_0_compat; exact Hx).
          unfold Rdiv. nra.
        - unfold Rdiv. rewrite Rmult_0_l, atan_0. lra. }
      lra.
    + assert (H0 : 0 < atan (y / x)).
      { rewrite <- atan_0. apply atan_increasing.
        assert (Hi : / x < 0) by (apply Rinv_lt_0_compat; exact Hx).
        unfold Rdiv. nra. }
      lra.
  - destruct (total_order_T y 0) as [[Hy | Hy] | Hy]; lra.
  - pose proof (atan_bound (y / x)) as Hb. lra.
Qed.

Lemma radar_range_polar (rho phi : R) :
  0 <= rho -> radar_range (rho * cos phi) (rho * sin phi) = rho.
Proof.
  intros Hrho. unfold radar_range.
  pose proof (sin2_cos2 phi) as H. unfold Rsqr in H.
  replace (rho * cos phi * (rho * cos phi) + rho * sin phi * (rho * sin phi))
    with (rho * rho * (sin phi * sin phi + cos phi * cos phi)) by ring.
  rewrite H, Rmult_1_r. apply sqrt_square. exact Hrho.
Qed.

Lemma atan2_polar (rho phi : R) :
  0 < rho -> - PI < phi <= PI ->
  atan2 (rho * sin phi) (rho * cos phi) = phi.
Proof.
  intros Hrho [Hlo Hhi]. pose proof PI_RGT_0 as Hpi.
  destruct (Rtotal_order phi (- (PI / 2))) as [Hl | [Hl | Hl]].
  - (* third quadrant *)
    assert (Hc : 0 < cos (phi + PI)) by (apply cos_gt_0; lra).
    assert (Hs : 0 < sin (phi + PI)) by (apply sin_gt_0; lra).
    rewrite neg_cos in Hc. rewrite neg_sin in Hs.
    assert (Hx : rho * cos phi < 0) by nra.
    assert (Hy : rho * sin phi < 0) by nra.
    unfold atan2.
    destruct (total_order_T (rho * cos phi) 0) as [[H | H] | H]; try lra.
    destruct (Rle_dec 0 (rho * sin phi)) as [H' | _]; [lra |].
    replace (rho * sin phi / (rho * cos phi)) with (tan (phi + PI)).
    + rewrite atan_tan by lra. ring.
    + unfold tan. rewrite neg_sin, neg_cos. field. split; lra.
  - subst phi.
    assert (Hc : cos (- (PI / 2)) = 0) by (rewrite cos_neg; apply cos_PI2).
    assert (Hs : sin (- (PI / 2)) = -1) by (rewrite sin_neg, sin_PI2; ring).
    rewrite Hc, Hs. unfold atan2.
    destruct (total_order_T (rho * 0) 0) as [[H | H] | H]; try lra.
    destruct (total_order_T (rho * -1) 0) as [[H' | H'] | H']; lra.
  - destruct (Rtotal_order phi (PI / 2)) as [Hr | [Hr | Hr]].
    + assert (Hc : 0 < cos phi) by (apply cos_gt_0; lra).
      assert (Hx : 0 < rho * cos phi) by nra.
      unfold atan2.
      destruct (total_order_T (rho * cos phi) 0) as [[H | H] | H]; try lra.
      replace (rho * sin phi / (rho * cos phi)) with (tan phi).
      * apply atan_tan. lra.
      * unfold tan. field. split; lra.
    + subst phi. rewrite cos_PI2, sin_PI2. unfold atan2.
      destruct (total_order_T (rho * 0) 0) as [[H | H] | H]; try lra.
      destruct (total_order_T (rho * 1) 0) as [[H' | H'] | H']; lra.
    + (* second quadrant *)
      assert (Hc : cos phi < 0) by (apply cos_lt_0; lra).
      assert (Hs : 0 <= sin phi) by (apply sin_ge_0; lra).
      assert (Hx : rho * cos phi < 0) by nra.
      assert (Hy : 0 <= rho * sin phi) by nra.
      unfold atan2.
      destruct (total_order_T (rho * cos phi) 0) as [[H | H] | H]; try lra.
      destruct (Rle_dec 0 (rho * sin phi)) as [_ | H']; [| lra].
      replace (rho * sin phi / (rho * cos phi)) with (tan (phi - PI)).
      * rewrite atan_tan by lra. ring.
      * assert (Es : sin phi = - sin (phi - PI)).
        { rewrite <- neg_sin. f_equal. ring. }
        assert (Ec : cos phi = - cos (phi - PI)).
        { rewrite <- neg_cos. f_equal. ring. }
        unfold tan. rewrite Es, Ec. rewrite Ec in Hc. field. split; lra.
Qed.

(** X10: the estimator a first radar measurement (range [rho > 0], bearing
    [phi] in (-pi, pi]) initialises is consistent with the radar measurement
    model: the model maps the initial mean back to range [rho] and bearing
    [phi], with range rate 0 whatever range rate was measured. *)
Theorem first_radar_measurement_round_trip (s : UKF) (t : Z) (rho phi : R)
        (rest : list R) :
  is_initialized_ s = false -> 0 < rho -> - PI < phi <= PI ->
  exists s',
    ProcessMeasurement s {| timestamp_ := t; sensor_type_ := RADAR;
                            raw_measurements_ := rho :: phi :: rest |} = Some s' /\
    radar_measurement_model (x_ s') 0%nat = rho /\
    radar_measurement_model (x_ s') 1%nat = phi /\
    radar_measurement_model (x_ s') 2%nat = 0.
Proof.
  intros Hs Hrho Hphi. unfold ProcessMeasurement. rewrite Hs.
  destruct (initialize_two_components s t RADAR rho phi rest)
    as (s' & E & _ & _ & _ & _ & H0 & H1 & Hk & _).
  exists s'. split; [exact E |].
  unfold radar_measurement_model, vset, vfill. cbn [Nat.eqb].
  rewrite H0, H1, (Hk 2%nat) by lia.
  rewrite radar_range_polar by lra.
  split; [reflexivity |]. split; [apply atan2_polar; assumption |].
  field. lra.
Qed.

Lemma first_radar_measurement_round_trip_witness :
  exists s',
    ProcessMeasurement (UKF_new (vfill 0) (mfill 0) (mfill 0) 0)
      {| timestamp_ := 0; sensor_type_ := RADAR;
         raw_measurements_ := [5; 1; 2] |} = Some s' /\
    radar_measurement_model (x_ s') 0%nat = 5 /\
    radar_measurement_model (x_ s') 1%nat = 1 /\
    radar_measurement_model (x_ s') 2%nat = 0.
Proof.
  apply (first_radar_measurement_round_trip
           (UKF_new (vfill 0) (mfill 0) (mfill 0) 0) 0%Z 5 1 [2]).
  - reflexivity.
  - lra.
  - pose proof PI_gt_31. lra.
Defined.

(** X11: away from the origin the radar measurement model returns a positive
    range, a bearing in (-pi, pi], and a range rate no larger in magnitude
    than the speed. *)
Theorem radar_measurement_bounds (p : VectorXd) :
  p 0%nat <> 0 \/ p 1%nat <> 0 ->
  0 < radar_measurement_model p 0%nat /\
  - PI < radar_measurement_model p 1%nat <= PI /\
  Rabs (radar_measurement_model p 2%nat) <= Rabs (p 2%nat).
Proof.
  intros Hp. unfold radar_measurement_model, vset, vfill. cbn [Nat.eqb].
  assert (Hr : 0 < radar_range (p 0%nat) (p 1%nat)).
  { pose proof (sqrt_pos (p 0%nat * p 0%nat + p 1%nat * p 1%nat)) as H.
    destruct H as [H | H]; [exact H |].
    symmetry in H. apply radar_range_zero in H. tauto. }
  split; [exact Hr |]. split; [apply atan2_range |].
  apply Rsqr_le_abs_0. unfold Rsqr.
  assert (Hsq : radar_range (p 0%nat) (p 1%nat) * radar_range (p 0%nat) (p 1%nat)
                = p 0%nat * p 0%nat + p 1%nat * p 1%nat).
  { unfold radar_range. apply sqrt_sqrt. nra. }
  set (rho := radar_range (p 0%nat) (p 1%nat)) in *.
  pose proof (sin2_cos2 (p 3%nat)) as Hsc. unfold Rsqr in Hsc.
  set (cs := cos (p 3%nat)) in *. set (sn := sin (p 3%nat)) in *.
  replace ((p 0%nat * (cs * p 2%nat) + p 1%nat * (sn * p 2%nat)) / rho
           * ((p 0%nat * (cs * p 2%nat) + p 1%nat * (sn * p 2%nat)) / rho))
    with (p 2%nat * p 2%nat
          * ((p 0%nat * cs + p 1%nat * sn) * (p 0%nat * cs + p 1%nat * sn))
          / (rho * rho)) by (field; lra).
  apply Rmult_le_reg_r with (r := rho * rho); [nra |].
  unfold Rdiv. rewrite Rmult_assoc, Rinv_l, Rmult_1_r by nra.
  rewrite Hsq.
  assert (Hcs : (p 0%nat * cs + p 1%nat * sn) * (p 0%nat * cs + p 1%nat * sn)
                <= p 0%nat * p 0%nat + p 1%nat * p 1%nat).
  { pose proof (Rle_0_sqr (p 0%nat * sn - p 1%nat * cs)) as H. unfold Rsqr in H.
    nra. }
  pose proof (Rle_0_sqr (p 2%nat)) as Hv. unfold Rsqr in Hv.
  apply Rmult_le_compat_l; assumption.
Qed.

Lemma radar_measurement_bounds_witness :
  0 < radar_measurement_model (fun _ => 1) 0%nat /\
  - PI < radar_measurement_model (fun _ => 1) 1%nat <= PI /\
  Rabs (radar_measurement_model (fun _ => 1) 2%nat) <= Rabs 1.
Proof.
  apply (radar_measurement_bounds (fun _ => 1)).
  left. lra.
Defined.

(** ** The lidar update *)

Lemma UpdateLidar_mean (s s' : UKF) (m : MeasurementPackage) (z0 z1 : R) :
  raw_measurements_ m = [z0; z1] -> UpdateLidar s m = Some s' ->
  forall i,
    x_ s' i = x_ s i + (Lidar_K s i 0%nat * (z0 - x_ s 0%nat)
                        + Lidar_K s i 1%nat * (z1 - x_ s 1%nat)).
Proof.
  intros Hm E i. unfold UpdateLidar in E. rewrite Hm in E.
  cbn [sized length Nat.eqb] in E. injection E as <-.
  cbn [x_ with_estimate]. unfold vadd, mvec, vsub, n_x_, Lidar_H_, mset, mfill.
  cbn [sum_upto Nat.eqb andb nth]. ring.
Qed.

Section LidarUpdate.

Variable s : UKF.
Hypothesis P_ok : covariance_ok (P_ s).

Let r := std_laspx_ * std_laspx_.
Let a := P_ s 0%nat 0%nat + r.
Let b := P_ s 0%nat 1%nat.
Let c := P_ s 1%nat 1%nat + r.
Let d := a * c - b * b.

Lemma lidar_noise_positive : 0 < r.
Proof. unfold r, std_laspx_. lra. Qed.

Lemma lidar_det_positive : 0 < d.
Proof. destruct P_ok as [Hs Hp]. exact (Lidar_S_det_positive s Hs Hp). Qed.

(** The position block of the covariance is positive semi-definite. *)
Lemma position_block_psd (x y : R) :
  0 <= (a - r) * x * x + 2 * b * x * y + (c - r) * y * y.
Proof.
  destruct P_ok as [Hs Hp].
  pose proof (Hp (vset (vset (vfill 0) 0 x) 1 y)) as H.
  rewrite (quadratic_form_plane s Hs) in H.
  unfold a, b, c. lra.
Qed.

Lemma lidar_diagonal_positive : 0 < a /\ 0 < c.
Proof.
  pose proof (position_block_psd 1 0) as H0.
  pose proof (position_block_psd 0 1) as H1.
  pose proof lidar_noise_positive. lra.
Qed.

(** The gain applied on the left of a residual. *)
Lemma Lidar_K_rows (i : nat) :
  Lidar_K s i 0%nat = (P_ s i 0%nat * c - P_ s i 1%nat * b) / d /\
  Lidar_K s i 1%nat = (P_ s i 1%nat * a - P_ s i 0%nat * b) / d.
Proof.
  destruct P_ok as [Hs _]. pose proof lidar_det_positive as Hd.
  rewrite !Lidar_K_entry by lia.
  destruct (Lidar_Si_entries s Hs) as (-> & -> & -> & ->).
  fold r a b c d. split; field; lra.
Qed.

Lemma lidar_covariance_decreases (v : VectorXd) :
  quadratic_form n_x_ (lidar_covariance s) v <= quadratic_form n_x_ (P_ s) v.
Proof.
  destruct P_ok as [Hs Hp]. pose proof lidar_det_positive as Hd.
  unfold lidar_covariance. rewrite lidar_quadratic_form.
  set (U0 := sum_upto n_x_ (fun j => P_ s 0%nat j * v j)).
  set (U1 := sum_upto n_x_ (fun j => P_ s 1%nat j * v j)).
  set (w0 := (c * U0 - b * U1) / d).
  set (w1 := (a * U1 - b * U0) / d).
  assert (HT0 : sum_upto n_x_ (fun i => v i * Lidar_K s i 0%nat) = w0).
  { rewrite (sum_upto_ext _ _
               (fun i => (c / d) * (P_ s 0%nat i * v i)
                         + (- b / d) * (P_ s 1%nat i * v i))).
    - unfold w0, U0, U1, n_x_. cbn [sum_upto]. field. lra.
    - intros i Hi. rewrite (proj1 (Lidar_K_rows i)).
      rewrite (Hs i 0%nat), (Hs i 1%nat) by (unfold n_x_ in *; lia).
      field. lra. }
  assert (HT1 : sum_upto n_x_ (fun i => v i * Lidar_K s i 1%nat) = w1).
  { rewrite (sum_upto_ext _ _
               (fun i => (- b / d) * (P_ s 0%nat i * v i)
                         + (a / d) * (P_ s 1%nat i * v i))).
    - unfold w1, U0, U1, n_x_. cbn [sum_upto]. field. lra.
    - intros i Hi. rewrite (proj2 (Lidar_K_rows i)).
      rewrite (Hs i 0%nat), (Hs i 1%nat) by (unfold n_x_ in *; lia).
      field. lra. }
  rewrite HT0, HT1.
  assert (E0 : a * w0 + b * w1 = U0) by (unfold w0, w1, d; field; unfold d in Hd; lra).
  assert (E1 : b * w0 + c * w1 = U1) by (unfold w0, w1, d; field; unfold d in Hd; lra).
  pose proof (position_block_psd w0 w1) as Hw.
  pose proof lidar_noise_positive as Hr.
  pose proof (Rle_0_sqr w0) as H0. pose proof (Rle_0_sqr w1) as H1.
  unfold Rsqr in H0, H1.
  generalize dependent (quadratic_form n_x_ (P_ s) v). intros q.
  clearbody U0 U1 w0 w1. subst U0 U1. clearbody a b c r. clear d Hd. nra.
Qed.

Lemma lidar_position_variance :
  lidar_covariance s 0%nat 0%nat = r - r * r * c / d /\
  lidar_covariance s 1%nat 1%nat = r - r * r * a / d.
Proof.
  destruct P_ok as [Hs _]. pose proof lidar_det_positive as Hd.
  unfold lidar_covariance. rewrite !lidar_covariance_entry by lia.
  rewrite (proj1 (Lidar_K_rows 0)), (proj2 (Lidar_K_rows 0)),
    (proj1 (Lidar_K_rows 1)), (proj2 (Lidar_K_rows 1)).
  rewrite (Hs 1%nat 0%nat) by (unfold n_x_; lia).
  fold b. replace (P_ s 0%nat 0%nat) with (a - r) by (unfold a; ring).
  replace (P_ s 1%nat 1%nat) with (c - r) by (unfold c; ring).
  split; unfold d; field; unfold d in Hd; lra.
Qed.

Lemma lidar_position_variance_bound :
  lidar_covariance s 0%nat 0%nat <= r /\ lidar_covariance s 1%nat 1%nat <= r.
Proof.
  destruct lidar_position_variance as [-> ->].
  pose proof lidar_det_positive as Hd. pose proof lidar_noise_positive as Hr.
  destruct lidar_diagonal_positive as [Ha Hc].
  assert (H0 : 0 <= r * r * c / d).
  { apply Rmult_le_pos; [nra | left; apply Rinv_0_lt_compat; exact Hd]. }
  assert (H1 : 0 <= r * r * a / d).
  { apply Rmult_le_pos; [nra | left; apply Rinv_0_lt_compat; exact Hd]. }
  lra.
Qed.

(** The residual of the position after the update is the residual before
    scaled by [R S^-1]. *)
Lemma lidar_residual_after (y0 y1 : R) :
  (- y0 + (Lidar_K s 0%nat 0%nat * y0 + Lidar_K s 0%nat 1%nat * y1)
   = - (r * ((c * y0 - b * y1) / d))) /\
  (- y1 + (Lidar_K s 1%nat 0%nat * y0 + Lidar_K s 1%nat 1%nat * y1)
   = - (r * ((a * y1 - b * y0) / d))).
Proof.
  destruct P_ok as [Hs _]. pose proof lidar_det_positive as Hd.
  rewrite (proj1 (Lidar_K_rows 0)), (proj2 (Lidar_K_rows 0)),
    (proj1 (Lidar_K_rows 1)), (proj2 (Lidar_K_rows 1)).
  rewrite (Hs 1%nat 0%nat) by (unfold n_x_; lia).
  fold b. replace (P_ s 0%nat 0%nat) with (a - r) by (unfold a; ring).
  replace (P_ s 1%nat 1%nat) with (c - r) by (unfold c; ring).
  split; unfold d; field; unfold d in Hd; lra.
Qed.

Lemma lidar_residual_shrinks (y0 y1 : R) :
  (r * ((c * y0 - b * y1) / d)) * (r * ((c * y0 - b * y1) / d))
  + (r * ((a * y1 - b * y0) / d)) * (r * ((a * y1 - b * y0) / d))
  <= y0 * y0 + y1 * y1.
Proof.
  pose proof lidar_det_positive as Hd. pose proof lidar_noise_positive as Hr.
  set (w0 := (c * y0 - b * y1) / d). set (w1 := (a * y1 - b * y0) / d).
  assert (E0 : y0 = a * w0 + b * w1) by (unfold w0, w1, d; field; unfold d in Hd; lra).
  assert (E1 : y1 = b * w0 + c * w1) by (unfold w0, w1, d; field; unfold d in Hd; lra).
  pose proof (position_block_psd w0 w1) as Hw.
  pose proof (Rle_0_sqr (y0 - r * w0)) as H0.
  pose proof (Rle_0_sqr (y1 - r * w1)) as H1. unfold Rsqr in H0, H1.
  clearbody w0 w1.
  assert (Hq : w0 * (y0 - r * w0) + w1 * (y1 - r * w1)
               = (a - r) * w0 * w0 + 2 * b * w0 * w1 + (c - r) * w1 * w1).
  { rewrite E0, E1. ring. }
  assert (Hq' : 0 <= r * (w0 * (y0 - r * w0) + w1 * (y1 - r * w1))).
  { apply Rmult_le_pos; lra. }
  clear E0 E1 Hw Hq Hd. clearbody a b c r. clear d. nra.
Qed.

End LidarUpdate.

(** X12: on a symmetric positive semi-definite covariance the lidar update
    never increases the uncertainty: the variance of every combination of the
    state components is at most what it was, and the variances of the two
    position components drop to at most the variance of the lidar noise. *)
Theorem lidar_update_reduces_uncertainty (s s' : UKF) (m : MeasurementPackage) :
  covariance_ok (P_ s) -> UpdateLidar s m = Some s' ->
  (forall v, quadratic_form n_x_ (P_ s') v <= quadratic_form n_x_ (P_ s) v) /\
  P_ s' 0%nat 0%nat <= std_laspx_ * std_laspx_ /\
  P_ s' 1%nat 1%nat <= std_laspy_ * std_laspy_.
Proof.
  intros Hok E. rewrite (UpdateLidar_covariance s s' m E).
  split; [intros v; apply lidar_covariance_decreases; exact Hok |].
  exact (lidar_position_variance_bound s Hok).
Qed.

Lemma lidar_update_reduces_uncertainty_witness :
  exists s',
    UpdateLidar first_lidar_estimate next_lidar_measurement = Some s' /\
    (forall v, quadratic_form n_x_ (P_ s') v
               <= quadratic_form n_x_ (P_ first_lidar_estimate) v) /\
    P_ s' 0%nat 0%nat <= std_laspx_ * std_laspx_ /\
    P_ s' 1%nat 1%nat <= std_laspy_ * std_laspy_.
Proof.
  eexists. split; [reflexivity |].
  apply (lidar_update_reduces_uncertainty first_lidar_estimate _
           next_lidar_measurement).
  - exact (proj2 (initial_factor (UKF_new (vfill 0) (mfill 0) (mfill 0) 0)
                    first_lidar_estimate 0%Z LASER 1 2 [] eq_refl)).
  - reflexivity.
Defined.

(** X13: on a symmetric positive semi-definite covariance the lidar update
    moves the position estimate towards the measured position: the updated
    position is no farther from the measurement than the predicted one. *)
Theorem lidar_update_approaches_measurement (s s' : UKF) (m : MeasurementPackage)
        (z0 z1 : R) :
  covariance_ok (P_ s) -> raw_measurements_ m = [z0; z1] ->
  UpdateLidar s m = Some s' ->
  (x_ s' 0%nat - z0) * (x_ s' 0%nat - z0) + (x_ s' 1%nat - z1) * (x_ s' 1%nat - z1)
  <= (x_ s 0%nat - z0) * (x_ s 0%nat - z0) + (x_ s 1%nat - z1) * (x_ s 1%nat - z1).
Proof.
  intros Hok Hm E.
  rewrite !(UpdateLidar_mean s s' m z0 z1 Hm E).
  destruct (lidar_residual_after s Hok (z0 - x_ s 0%nat) (z1 - x_ s 1%nat))
    as [R0 R1].
  pose proof (lidar_residual_shrinks s Hok (z0 - x_ s 0%nat) (z1 - x_ s 1%nat))
    as Hsh.
  replace (x_ s 0%nat
           + (Lidar_K s 0%nat 0%nat * (z0 - x_ s 0%nat)
              + Lidar_K s 0%nat 1%nat * (z1 - x_ s 1%nat)) - z0)
    with (- (z0 - x_ s 0%nat)
          + (Lidar_K s 0%nat 0%nat * (z0 - x_ s 0%nat)
             + Lidar_K s 0%nat 1%nat * (z1 - x_ s 1%nat))) by ring.
  replace (x_ s 1%nat
           + (Lidar_K s 1%nat 0%nat * (z0 - x_ s 0%nat)
              + Lidar_K s 1%nat 1%nat * (z1 - x_ s 1%nat)) - z1)
    with (- (z1 - x_ s 1%nat)
          + (Lidar_K s 1%nat 0%nat * (z0 - x_ s 0%nat)
             + Lidar_K s 1%nat 1%nat * (z1 - x_ s 1%nat))) by ring.
  rewrite R0, R1. lra.
Qed.

Lemma lidar_update_approaches_measurement_witness :
  exists s',
    UpdateLidar first_lidar_estimate next_lidar_measurement = Some s' /\
    (x_ s' 0%nat - 0) * (x_ s' 0%nat - 0) + (x_ s' 1%nat - 0) * (x_ s' 1%nat - 0)
    <= (x_ first_lidar_estimate 0%nat - 0) * (x_ first_lidar_estimate 0%nat - 0)
       + (x_ first_lidar_estimate 1%nat - 0) * (x_ first_lidar_estimate 1%nat - 0).
Proof.
  eexists. split; [reflexivity |].
  apply (lidar_update_approaches_measurement first_lidar_estimate _
           next_lidar_measurement 0 0).
  - exact (proj2 (initial_factor (UKF_new (vfill 0) (mfill 0) (mfill 0) 0)
                    first_lidar_estimate 0%Z LASER 1 2 [] eq_refl)).
  - reflexivity.
  - reflexivity.
Defined.

(** ** The radar update *)

Lemma radar_quadratic_form (P K S : MatrixXd) (v : VectorXd) :
  quadratic_form n_x_ (msub P (mmul n_z_ (mmul n_z_ K S) (transpose K))) v
  = quadratic_form n_x_ P v
    - quadratic_form n_z_ S (fun l => sum_upto n_x_ (fun i => K i l * v i)).
Proof.
  unfold quadratic_form, msub, mmul, transpose, n_x_, n_z_.
  cbn [sum_upto]. ring.
Qed.


Lemma UpdateRadar_result (s : UKF) (t : Z) (rho phi rho_dot : R) :
  UpdateRadar s {| timestamp_ := t; sensor_type_ := RADAR;
                   raw_measurements_ := [rho; phi; rho_dot] |}
  = Some (with_estimate s
            (vadd (x_ s)
               (mvec n_z_ (Radar_K s)
                  (radar_residual s (fun i => nth i [rho; phi; rho_dot] 0))))
            (radar_covariance s)).
Proof. reflexivity. Qed.



(** ** The recombination and the weight of the centre point *)

Lemma quadratic_form_ext (A B : MatrixXd) (v : VectorXd) :
  (forall r c, A r c = B r c) ->
  quadratic_form n_x_ A v = quadratic_form n_x_ B v.
Proof.
  intros H. unfold quadratic_form, n_x_. cbn [sum_upto]. rewrite !H. reflexivity.
Qed.

Lemma quadratic_form_weighted_sum (m : nat) (w : nat -> R) (d : nat -> VectorXd)
      (v : VectorXd) :
  quadratic_form n_x_ (fun r c => sum_upto m (fun i => w i * (d i r * d i c))) v
  = sum_upto m (fun i => w i * (sum_upto n_x_ (fun r => v r * d i r)
                                * sum_upto n_x_ (fun r => v r * d i r))).
Proof.
  induction m as [| m IH].
  - unfold quadratic_form, n_x_. cbn [sum_upto]. ring.
  - change (sum_upto (S m)
              (fun i => w i * (sum_upto n_x_ (fun r => v r * d i r)
                               * sum_upto n_x_ (fun r => v r * d i r))))
      with (sum_upto m
              (fun i => w i * (sum_upto n_x_ (fun r => v r * d i r)
                               * sum_upto n_x_ (fun r => v r * d i r)))
            + w m * (sum_upto n_x_ (fun r => v r * d m r)
                     * sum_upto n_x_ (fun r => v r * d m r))).
    rewrite <- IH. unfold quadratic_form, n_x_. cbn [sum_upto]. ring.
Qed.

(** X16: the recombined covariance can fail to be positive semi-definite only
    through the centre sigma point, whose weight is negative: its quadratic
    form is at least -4/3 times the square of the component of the centre
    difference along the vector. *)
Theorem recombination_lower_bound (s : UKF) (v : VectorXd) :
  - (4 / 3)
  * (sum_upto n_x_
       (fun r => v r * x_diff (Xsig_pred_ s) (x_ (PredictMeanAndCovariance s)) 0 r)
     * sum_upto n_x_
         (fun r => v r * x_diff (Xsig_pred_ s) (x_ (PredictMeanAndCovariance s)) 0 r))
  <= quadratic_form n_x_ (P_ (PredictMeanAndCovariance s)) v.
Proof.
  unfold PredictMeanAndCovariance. cbn [x_ P_ with_estimate].
  set (x := predicted_mean (Xsig_pred_ s)).
  rewrite (quadratic_form_ext _
             (fun r c => sum_upto n_sig
                (fun i => weights_ i
                          * (x_diff (Xsig_pred_ s) x i r
                             * x_diff (Xsig_pred_ s) x i c)))).
  - rewrite quadratic_form_weighted_sum.
    set (D := fun i => sum_upto n_x_ (fun r => v r * x_diff (Xsig_pred_ s) x i r)).
    change (- (4 / 3) * (D 0%nat * D 0%nat)
            <= sum_upto n_sig (fun i => weights_ i * (D i * D i))).
    expand_sigma_sum.
    pose proof (Rle_0_sqr (D 1%nat)). pose proof (Rle_0_sqr (D 2%nat)).
    pose proof (Rle_0_sqr (D 3%nat)). pose proof (Rle_0_sqr (D 4%nat)).
    pose proof (Rle_0_sqr (D 5%nat)). pose proof (Rle_0_sqr (D 6%nat)).
    pose proof (Rle_0_sqr (D 7%nat)). pose proof (Rle_0_sqr (D 8%nat)).
    pose proof (Rle_0_sqr (D 9%nat)). pose proof (Rle_0_sqr (D 10%nat)).
    pose proof (Rle_0_sqr (D 11%nat)). pose proof (Rle_0_sqr (D 12%nat)).
    pose proof (Rle_0_sqr (D 13%nat)). pose proof (Rle_0_sqr (D 14%nat)).
    unfold Rsqr in *. lra.
  - intros r c. apply predicted_covariance_sum.
Qed.

(** ** The prediction and the sigma points of the previous cycle *)

(** X17: the prediction never reads the predicted sigma points of the
    previous cycle: the mean, the covariance and the new predicted sigma
    points are the same whatever [Xsig_pred_] held before. *)
Theorem prediction_overwrites_sigma_points (s : UKF) (X : MatrixXd) (dt : R) :
  (forall k, (k < 5)%nat ->
     x_ (Prediction (with_Xsig_pred s X) dt) k = x_ (Prediction s dt) k) /\
  (forall r c, (r < 5)%nat -> (c < n_sig)%nat ->
     Xsig_pred_ (Prediction (with_Xsig_pred s X) dt) r c
     = Xsig_pred_ (Prediction s dt) r c) /\
  (forall r c, (r < 5)%nat -> (c < 5)%nat ->
     P_ (Prediction (with_Xsig_pred s X) dt) r c = P_ (Prediction s dt) r c).
Proof.
  assert (Hx : forall k, (k < 5)%nat ->
            x_ (Prediction (with_Xsig_pred s X) dt) k = x_ (Prediction s dt) k).
  { intros k Hk. rewrite !Prediction_mean by exact Hk. reflexivity. }
  assert (HX : forall r c, (r < 5)%nat -> (c < n_sig)%nat ->
            Xsig_pred_ (Prediction (with_Xsig_pred s X) dt) r c
            = Xsig_pred_ (Prediction s dt) r c).
  { intros r c Hr Hc. rewrite !Prediction_sigma by assumption. reflexivity. }
  split; [exact Hx |]. split; [exact HX |].
  intros r c Hr Hc. rewrite !Prediction_covariance.
  apply sum_upto_ext. intros i Hi.
  assert (Hd : forall q, (q < 5)%nat ->
            x_diff (Xsig_pred_ (Prediction (with_Xsig_pred s X) dt))
                   (x_ (Prediction (with_Xsig_pred s X) dt)) i q
            = x_diff (Xsig_pred_ (Prediction s dt)) (x_ (Prediction s dt)) i q).
  { intros q Hq. unfold x_diff, normalize_at, vset, vsub, col.
    rewrite !HX, !Hx by (assumption || lia). reflexivity. }
  rewrite !Hd by assumption. reflexivity.
Qed.

(** ** The innovation covariance of the radar update *)

Lemma innovation_form_weighted_sum (m : nat) (w : nat -> R) (d : nat -> VectorXd)
      (v : VectorXd) :
  quadratic_form n_z_ (fun r c => sum_upto m (fun i => w i * (d i r * d i c))) v
  = sum_upto m (fun i => w i * (sum_upto n_z_ (fun r => v r * d i r)
                                * sum_upto n_z_ (fun r => v r * d i r))).
Proof.
  induction m as [| m IH].
  - unfold quadratic_form, n_z_. cbn [sum_upto]. ring.
  - change (sum_upto (S m)
              (fun i => w i * (sum_upto n_z_ (fun r => v r * d i r)
                               * sum_upto n_z_ (fun r => v r * d i r))))
      with (sum_upto m
              (fun i => w i * (sum_upto n_z_ (fun r => v r * d i r)
                               * sum_upto n_z_ (fun r => v r * d i r)))
            + w m * (sum_upto n_z_ (fun r => v r * d m r)
                     * sum_upto n_z_ (fun r => v r * d m r))).
    rewrite <- IH. unfold quadratic_form, n_z_. cbn [sum_upto]. ring.
Qed.

Lemma Radar_S_form (s : UKF) (v : VectorXd) :
  quadratic_form n_z_ (Radar_S s) v
  = quadratic_form n_z_
      (fun r c => sum_upto n_sig
                    (fun i => weights_ i * (z_diff s i r * z_diff s i c))) v
    + (std_radr_ * std_radr_ * (v 0%nat * v 0%nat)
       + std_radphi_ * std_radphi_ * (v 1%nat * v 1%nat)
       + std_radrd_ * std_radrd_ * (v 2%nat * v 2%nat)).
Proof.
  unfold quadratic_form, n_z_. cbn [sum_upto]. rewrite !Radar_S_sum.
  unfold Radar_R_, comma_init, n_z_. cbn [Nat.ltb Nat.leb Nat.mul Nat.add nth].
  ring.
Qed.

(** ** A radar update after a prediction that loses positive semi-definiteness *)

Lemma div_sqrt3 (a b : R) : a / sqrt 3 * (b / sqrt 3) = a * b / 3.
Proof.
  destruct sqrt3_facts as [Hq Hqq].
  transitivity (a * b / (sqrt 3 * sqrt 3)); [field; lra | rewrite Hqq; reflexivity].
Qed.

Lemma sum_upto_nonneg (n : nat) (f : nat -> R) :
  (forall i, 0 <= f i) -> 0 <= sum_upto n f.
Proof.
  intros H. induction n as [| n IH]; cbn [sum_upto]; [lra |].
  pose proof (H n). lra.
Qed.

Lemma quadratic_form_within (A B : MatrixXd) (v : VectorXd) :
  (forall r c, (r < 5)%nat -> (c < 5)%nat -> A r c = B r c) ->
  quadratic_form n_x_ A v = quadratic_form n_x_ B v.
Proof.
  intros H. unfold quadratic_form, n_x_. cbn [sum_upto].
  rewrite !H by lia. reflexivity.
Qed.

(** A covariance whose augmented covariance has a Cholesky factor is
    symmetric and positive semi-definite. *)
Lemma factor_covariance_ok (s : UKF) (L : MatrixXd) :
  cholesky_factor s L -> covariance_ok (P_ s).
Proof.
  intros (_ & _ & Hprod). split.
  - intros i j Hi Hj. unfold n_x_ in *.
    rewrite <- !P_aug_state by assumption.
    rewrite !Hprod by (unfold n_aug_; lia).
    apply sum_upto_ext. intros l _. ring.
  - intros v.
    rewrite (quadratic_form_within _
               (fun r c => sum_upto n_aug_ (fun l => 1 * (L r l * L c l)))).
    + rewrite quadratic_form_weighted_sum. apply sum_upto_nonneg.
      intros l. rewrite Rmult_1_l.
      apply Rle_0_sqr.
    + intros r c Hr Hc. rewrite <- P_aug_state by assumption.
      rewrite Hprod by (unfold n_aug_; lia).
      apply sum_upto_ext. intros l _. ring.
Qed.

Lemma uncertain_heading_factor :
  cholesky_factor uncertain_heading_estimator uncertain_heading_L.
Proof.
  destruct sqrt3_facts as [Hq Hqq]. pose proof PI_RGT_0 as Hpi.
  split; [| split].
  - intros i j Hij Hj. unfold n_aug_ in Hj.
    unfold uncertain_heading_L, uncertain_heading_M.
    do 7 (destruct i as [| i];
          [do 7 (destruct j as [| j];
                 [first [lia | unfold Rdiv; rewrite Rmult_0_l; reflexivity] |]);
           lia |]).
    lia.
  - intros j Hj. unfold n_aug_ in Hj.
    unfold uncertain_heading_L, uncertain_heading_M.
    do 7 (destruct j as [| j]; [apply Rdiv_lt_0_compat; lra |]). lia.
  - intros i j Hi Hj. unfold n_aug_ in *.
    unfold P_aug, mset, std_a_, std_yawdd_.
    cbn [P_ uncertain_heading_estimator].
    unfold uncertain_heading_covariance, uncertain_heading_L.
    do 7 (destruct i as [| i];
          [do 7 (destruct j as [| j];
                 [cbn [sum_upto Nat.eqb Nat.ltb Nat.leb andb];
                  rewrite !div_sqrt3; unfold uncertain_heading_M;
                  set (q := sqrt 3) in *; lra |]); lia |]).
    lia.
Qed.

Lemma uncertain_heading_covariance_ok :
  covariance_ok (P_ uncertain_heading_estimator).
Proof. exact (factor_covariance_ok _ _ uncertain_heading_factor). Qed.

Lemma uncertain_heading_sigma_points (r i : nat) :
  (r < 4)%nat -> (i < n_sig)%nat ->
  Xsig_pred_ uncertain_heading_predicted r i
  = nth i (nth r uncertain_heading_points []) 0.
Proof.
  intros Hr Hi. destruct sqrt3_facts as [Hq _].
  unfold uncertain_heading_predicted. cbn [Xsig_pred_ with_time].
  rewrite (Prediction_zero_points _ _ uncertain_heading_factor) by (lia || exact Hi).
  unfold n_sig, n_aug_ in Hi.
  unfold spread, uncertain_heading_L, uncertain_heading_M, uncertain_heading_points.
  cbn [x_ uncertain_heading_estimator]. unfold vset, vfill.
  do 4 (destruct r as [| r];
        [do 15 (destruct i as [| i];
                [cbn [Nat.eqb Nat.leb Nat.sub n_aug_ nth]; field; lra |]); lia |]).
  lia.
Qed.

Lemma uncertain_heading_within_half_turn :
  headings_within_half_turn (Prediction uncertain_heading_estimator 0).
Proof.
  intros i Hi. pose proof PI_RGT_0 as Hpi.
  rewrite Prediction_zero_mean by lia.
  change (Xsig_pred_ (Prediction uncertain_heading_estimator 0) 3%nat i)
    with (Xsig_pred_ uncertain_heading_predicted 3%nat i).
  rewrite uncertain_heading_sigma_points by (lia || exact Hi).
  unfold n_sig, n_aug_ in Hi. unfold uncertain_heading_points.
  cbn [x_ uncertain_heading_estimator]. unfold vset, vfill.
  do 15 (destruct i as [| i]; [cbn [Nat.eqb nth]; lra |]). lia.
Qed.

Lemma uncertain_heading_predicted_mean (r : nat) :
  (r < 5)%nat ->
  x_ uncertain_heading_predicted r = x_ uncertain_heading_estimator r.
Proof.
  intros Hr. unfold uncertain_heading_predicted. cbn [x_ with_time].
  apply Prediction_zero_mean. exact Hr.
Qed.

Lemma uncertain_heading_predicted_covariance (r c : nat) :
  (r < 5)%nat -> (c < 5)%nat ->
  P_ uncertain_heading_predicted r c = uncertain_heading_covariance r c.
Proof.
  intros Hr Hc. unfold uncertain_heading_predicted. cbn [P_ with_time].
  rewrite (Prediction_zero_covariance _ _ uncertain_heading_factor)
    by (assumption || exact uncertain_heading_within_half_turn).
  reflexivity.
Qed.

(** The prediction over no elapsed time has kept the covariance symmetric and
    positive semi-definite. *)
Lemma uncertain_heading_predicted_ok :
  covariance_ok (P_ uncertain_heading_predicted).
Proof.
  destruct uncertain_heading_covariance_ok as [_ Hpsd]. split.
  - intros i j Hi Hj. unfold n_x_ in *.
    rewrite !uncertain_heading_predicted_covariance by assumption.
    unfold uncertain_heading_covariance.
    do 5 (destruct i as [| i]; [do 5 (destruct j as [| j]; [reflexivity |]); lia |]).
    lia.
  - intros v.
    rewrite (quadratic_form_within _ (P_ uncertain_heading_estimator)).
    + apply Hpsd.
    + intros r c Hr Hc. apply uncertain_heading_predicted_covariance; assumption.
Qed.

Lemma radar_range_axis (x : R) : 0 <= x -> radar_range x 0 = x.
Proof.
  intros Hx. unfold radar_range.
  replace (x * x + 0 * 0) with (x * x) by ring. apply sqrt_square. exact Hx.
Qed.

Lemma radar_range_3_4 (y : R) :
  y * y = 3 / 4 * (3 / 4) -> radar_range 1 y = 5 / 4.
Proof.
  intros Hy. unfold radar_range. rewrite Hy.
  replace (1 * 1 + 3 / 4 * (3 / 4)) with (5 / 4 * (5 / 4)) by field.
  apply sqrt_square. lra.
Qed.

Lemma atan2_axis (x : R) : 0 < x -> atan2 0 x = 0.
Proof.
  intros Hx. unfold atan2.
  destruct (total_order_T x 0) as [[H | H] | H]; try lra.
  unfold Rdiv. rewrite Rmult_0_l. apply atan_0.
Qed.

Lemma atan2_unit (y : R) : atan2 y 1 = atan y.
Proof.
  unfold atan2. destruct (total_order_T 1 0) as [[H | H] | H]; try lra.
  f_equal. field.
Qed.

Lemma uncertain_heading_Zsig (i k : nat) :
  (i < n_sig)%nat ->
  Zsig uncertain_heading_predicted k i
  = nth i (nth k uncertain_heading_images []) 0.
Proof.
  intros Hi. rewrite Zsig_column by exact Hi.
  unfold radar_measurement_model, vset, vfill, col.
  rewrite !uncertain_heading_sigma_points by (lia || exact Hi).
  unfold n_sig, n_aug_ in Hi.
  unfold uncertain_heading_points, uncertain_heading_images.
  assert (Ha : atan2 (- (3 / 4)) 1 = - atan (3 / 4)).
  { rewrite atan2_unit. apply atan_opp. }
  assert (Hc : cos (- PI) = -1) by (rewrite cos_neg; apply cos_PI).
  assert (Hs : sin (- PI) = 0) by (rewrite sin_neg, sin_PI; ring).
  destruct k as [| [| [| k]]]; cbn [Nat.eqb].
  - do 15 (destruct i as [| i];
           [cbn [nth];
            first [ apply radar_range_axis; lra
                  | apply radar_range_3_4; lra ] |]).
    lia.
  - do 15 (destruct i as [| i];
           [cbn [nth];
            first [ apply atan2_axis; lra
                  | apply atan2_unit
                  | exact Ha ] |]).
    lia.
  - do 15 (destruct i as [| i];
           [cbn [nth];
            rewrite ?(radar_range_axis 1), ?(radar_range_axis (3 / 2)),
              ?(radar_range_axis (1 / 2)), ?(radar_range_3_4 (3 / 4)),
              ?(radar_range_3_4 (- (3 / 4))) by lra;
            rewrite ?cos_0, ?sin_0, ?cos_PI, ?sin_PI, ?Hc, ?Hs; field |]).
    lia.
  - do 15 (destruct i as [| i]; [cbn [nth]; destruct k; reflexivity |]). lia.
Qed.

Lemma uncertain_heading_z_pred (k : nat) :
  z_pred uncertain_heading_predicted k
  = match k with
    | 0%nat => 13 / 12
    | 2%nat => - 16 / 15
    | _ => 0
    end.
Proof.
  unfold z_pred. rewrite for_loop_vadd. expand_sigma_sum.
  rewrite !uncertain_heading_Zsig by (unfold n_sig, n_aug_; lia).
  unfold uncertain_heading_images.
  destruct k as [| [| [| k]]]; cbn [nth]; try lra.
  destruct k; cbn [nth]; lra.
Qed.

Lemma uncertain_heading_z_diff (i k : nat) :
  (i < n_sig)%nat ->
  z_diff uncertain_heading_predicted i k
  = nth i (nth k uncertain_heading_images []) 0
    - match k with
      | 0%nat => 13 / 12
      | 2%nat => - 16 / 15
      | _ => 0
      end.
Proof.
  intros Hi. pose proof PI_RGT_0 as Hpi.
  pose proof (atan_bound (3 / 4)) as Hb.
  unfold z_diff, normalize_at, vset, vsub, col.
  rewrite !uncertain_heading_z_pred, !uncertain_heading_Zsig by exact Hi.
  destruct k as [| [| [| k]]]; cbn [Nat.eqb]; try reflexivity.
  unfold n_sig, n_aug_ in Hi. unfold uncertain_heading_images.
  do 15 (destruct i as [| i];
         [cbn [nth]; apply normalize_angle_inside; lra |]).
  lia.
Qed.

Lemma uncertain_heading_S (r c : nat) :
  (r < 3)%nat -> (c < 3)%nat ->
  Radar_S uncertain_heading_predicted r c
  = match r, c with
    | 0%nat, 0%nat => 337 / 1800
    | 0%nat, 2%nat | 2%nat, 0%nat => 7 / 45
    | 1%nat, 1%nat => atan (3 / 4) * atan (3 / 4) / 3 + 9 / 10000
    | 2%nat, 2%nat => 149 / 900
    | _, _ => 0
    end.
Proof.
  intros Hr Hc. rewrite Radar_S_sum. expand_sigma_sum.
  rewrite !uncertain_heading_z_diff by (unfold n_sig, n_aug_; lia).
  unfold Radar_R_, comma_init, n_z_, std_radr_, std_radphi_, std_radrd_.
  unfold uncertain_heading_images.
  do 3 (destruct r as [| r];
        [do 3 (destruct c as [| c];
               [cbn [Nat.leb Nat.ltb Nat.mul Nat.add nth]; field |]); lia |]).
  lia.
Qed.

Lemma uncertain_heading_Tc (c : nat) :
  (c < 3)%nat ->
  Radar_Tc uncertain_heading_predicted 2%nat c
  = match c with
    | 2%nat => - 1 / 3
    | _ => 0
    end.
Proof.
  intros Hc. rewrite Radar_Tc_sum. expand_sigma_sum.
  rewrite !x_diff_plain by discriminate.
  rewrite !uncertain_heading_sigma_points, !uncertain_heading_z_diff
    by (unfold n_sig, n_aug_; lia).
  rewrite uncertain_heading_predicted_mean by lia.
  cbn [x_ uncertain_heading_estimator]. unfold vset, vfill. cbn [Nat.eqb].
  unfold uncertain_heading_points, uncertain_heading_images.
  do 3 (destruct c as [| c]; [cbn [nth]; field |]). lia.
Qed.

(** After the radar update of [uncertain_heading_predicted] the variance of
    the speed is negative. *)
Lemma uncertain_heading_speed_variance :
  radar_covariance uncertain_heading_predicted 2%nat 2%nat = - 30029 / 11013.
Proof.
  unfold radar_covariance, msub.
  rewrite uncertain_heading_predicted_covariance by lia.
  unfold mmul, transpose, Radar_K, mmul, inverse3, det3, minor3, n_z_.
  cbn [sum_upto Nat.add Nat.modulo Nat.divmod fst snd Nat.sub].
  rewrite !uncertain_heading_S, !uncertain_heading_Tc by lia.
  unfold uncertain_heading_covariance.
  assert (HB : 0 < atan (3 / 4) * atan (3 / 4) / 3 + 9 / 10000).
  { pose proof (Rle_0_sqr (atan (3 / 4))) as H. unfold Rsqr in H. lra. }
  set (B := atan (3 / 4) * atan (3 / 4) / 3 + 9 / 10000) in *.
  field. lra.
Qed.

Lemma uncertain_heading_defined : radar_defined uncertain_heading_predicted.
Proof.
  split.
  - intros i Hi.
    rewrite !uncertain_heading_sigma_points by (lia || exact Hi).
    unfold n_sig, n_aug_ in Hi. unfold uncertain_heading_points.
    do 15 (destruct i as [| i];
           [cbn [nth];
            first [ rewrite radar_range_axis by lra; lra
                  | rewrite radar_range_3_4 by lra; lra ] |]).
    lia.
  - unfold det3, minor3.
    cbn [sum_upto Nat.add Nat.modulo Nat.divmod fst snd Nat.sub].
    rewrite !uncertain_heading_S by lia.
    assert (HB : 0 < atan (3 / 4) * atan (3 / 4) / 3 + 9 / 10000).
    { pose proof (Rle_0_sqr (atan (3 / 4))) as H. unfold Rsqr in H. lra. }
    set (B := atan (3 / 4) * atan (3 / 4) / 3 + 9 / 10000) in *.
    apply Rgt_not_eq. nra.
Qed.

Lemma uncertain_heading_innovation_psd :
  positive_semidefinite n_z_ (Radar_S uncertain_heading_predicted).
Proof.
  intros v. unfold quadratic_form, n_z_. cbn [sum_upto].
  rewrite !uncertain_heading_S by lia.
  pose proof (Rle_0_sqr (atan (3 / 4))) as HA.
  pose proof (Rle_0_sqr (v 1%nat)) as H1.
  pose proof (Rle_0_sqr (v 0%nat + 5 / 6 * v 2%nat)) as H0.
  pose proof (Rle_0_sqr (v 2%nat)) as H2. unfold Rsqr in *.
  assert (HB : 0 <= (atan (3 / 4) * atan (3 / 4) / 3 + 9 / 10000)
                    * (v 1%nat * v 1%nat)).
  { apply Rmult_le_pos; lra. }
  nra.
Qed.

(** A radar measurement with the time stamp of the estimator: the prediction
    runs over no elapsed time and [UpdateRadar] is applied to its result. *)
Lemma simultaneous_radar_update :
  ProcessMeasurement uncertain_heading_estimator simultaneous_radar_measurement
  = UpdateRadar uncertain_heading_predicted simultaneous_radar_measurement.
Proof.
  rewrite ProcessMeasurement_enabled by reflexivity.
  assert (E : elapsed uncertain_heading_estimator simultaneous_radar_measurement = 0).
  { unfold elapsed. cbn. lra. }
  rewrite E. reflexivity.
Qed.

(** ** C1: symmetry and positive semi-definiteness of the covariance *)

Lemma quadratic_form_basis (P : MatrixXd) (k : nat) :
  (k < 5)%nat -> quadratic_form n_x_ P (vset (vfill 0) k 1) = P k k.
Proof.
  intros Hk. unfold quadratic_form, n_x_, vset, vfill.
  do 5 (destruct k as [| k]; [cbn [sum_upto Nat.eqb]; ring |]). lia.
Qed.

Lemma negative_diagonal_not_psd (P : MatrixXd) (k : nat) :
  (k < 5)%nat -> P k k < 0 -> ~ positive_semidefinite n_x_ P.
Proof.
  intros Hk Hneg Hpsd. specialize (Hpsd (vset (vfill 0) k 1)).
  rewrite quadratic_form_basis in Hpsd by exact Hk. lra.
Qed.

(** C1, as stated, fails for the recombination and for the radar correction.
    [correlated_estimator] has a symmetric positive definite covariance (its
    augmented covariance factorises); after the sigma points have been
    propagated over one second the covariance is still that one, and the
    recombination [PredictMeanAndCovariance] then returns a covariance whose
    first diagonal coefficient is -49/9.  [uncertain_heading_estimator] has a
    symmetric positive definite covariance too; on a radar measurement with
    its own time stamp [ProcessMeasurement] predicts over no elapsed time,
    which keeps the covariance symmetric and positive semi-definite, and
    applies [UpdateRadar] to the predicted estimator, whose sigma points lie
    away from the origin and whose innovation covariance is invertible; the
    radar correction returns a covariance whose speed variance is negative. *)
Lemma covariance_loses_semidefiniteness :
  (let s1 := SigmaPointsPrediction correlated_estimator
               (GenerateSigmaPoints correlated_estimator (mfill 0)) 1 in
   m_info (llt n_aug_ (P_aug correlated_estimator)) = Success /\
   covariance_ok (P_ s1) /\
   PredictMeanAndCovariance s1 = Prediction correlated_estimator 1 /\
   P_ (PredictMeanAndCovariance s1) 0%nat 0%nat = - 49 / 9 /\
   ~ covariance_ok (P_ (PredictMeanAndCovariance s1))) /\
  (covariance_ok (P_ uncertain_heading_estimator) /\
   m_info (llt n_aug_ (P_aug uncertain_heading_estimator)) = Success /\
   ProcessMeasurement uncertain_heading_estimator simultaneous_radar_measurement
   = UpdateRadar uncertain_heading_predicted simultaneous_radar_measurement /\
   covariance_ok (P_ uncertain_heading_predicted) /\
   radar_defined uncertain_heading_predicted /\
   exists s',
     UpdateRadar uncertain_heading_predicted simultaneous_radar_measurement
     = Some s' /\
     P_ s' 2%nat 2%nat < 0 /\
     ~ covariance_ok (P_ s')).
Proof.
  split.
  - cbv zeta. split; [| split; [| split; [| split]]].
    + exact (proj1 correlated_root).
    + exact correlated_covariance_ok.
    + reflexivity.
    + exact correlated_prediction_variance_px.
    + intros [_ Hpsd]. revert Hpsd.
      apply (negative_diagonal_not_psd _ 0%nat); [lia |].
      change (P_ (Prediction correlated_estimator 1) 0%nat 0%nat < 0).
      rewrite correlated_prediction_variance_px. lra.
  - split; [exact uncertain_heading_covariance_ok |].
    split; [exact (proj1 (factor_root _ _ uncertain_heading_factor)) |].
    split; [exact simultaneous_radar_update |].
    split; [exact uncertain_heading_predicted_ok |].
    split; [exact uncertain_heading_defined |].
    unfold simultaneous_radar_measurement. rewrite UpdateRadar_result.
    eexists. split; [reflexivity |]. cbn [P_ with_estimate].
    assert (Hneg : radar_covariance uncertain_heading_predicted 2%nat 2%nat < 0).
    { rewrite uncertain_heading_speed_variance. lra. }
    split; [exact Hneg |].
    intros [_ Hpsd]. revert Hpsd.
    apply (negative_diagonal_not_psd _ 2%nat); [lia | exact Hneg].
Qed.

(** C1, amended: for every estimator whose covariance is symmetric and
    positive semi-definite, the recombination of the predicted sigma points,
    the lidar correction and the radar correction (where its quotients are
    defined) each leave the covariance symmetric, and the lidar correction
    leaves it positive semi-definite as well, its innovation covariance being
    invertible. *)
Theorem covariance_updates (s : UKF) (t : Z) (z0 z1 z2 : R) :
  covariance_ok (P_ s) ->
  symmetric n_x_ (P_ (PredictMeanAndCovariance s)) /\
  (forall dt, symmetric n_x_ (P_ (Prediction s dt))) /\
  (0 < det2 (Lidar_S s) /\
   exists s',
     UpdateLidar s {| timestamp_ := t; sensor_type_ := LASER;
                      raw_measurements_ := [z0; z1] |} = Some s' /\
     symmetric n_x_ (P_ s') /\ positive_semidefinite n_x_ (P_ s')) /\
  (radar_defined s ->
   exists s',
     UpdateRadar s {| timestamp_ := t; sensor_type_ := RADAR;
                      raw_measurements_ := [z0; z1; z2] |} = Some s' /\
     symmetric n_x_ (P_ s')).
Proof.
  intros [Hsym Hpsd]. split; [| split; [| split]].
  - apply predicted_covariance_symmetric.
  - intros dt. apply predicted_covariance_symmetric.
  - split.
    + rewrite (Lidar_S_det s Hsym). apply (Lidar_S_det_positive s Hsym Hpsd).
    + eexists. split; [reflexivity |]. cbn [P_ with_estimate]. split.
      * apply (lidar_covariance_symmetric s Hsym).
      * apply (lidar_covariance_psd s Hsym Hpsd).
  - intros _. eexists. split; [reflexivity |]. cbn [P_ with_estimate].
    apply (radar_covariance_symmetric s Hsym).
Qed.

Lemma covariance_updates_witness :
  symmetric n_x_ (P_ (PredictMeanAndCovariance uncertain_heading_predicted)) /\
  (forall dt, symmetric n_x_ (P_ (Prediction uncertain_heading_predicted dt))) /\
  (0 < det2 (Lidar_S uncertain_heading_predicted) /\
   exists s',
     UpdateLidar uncertain_heading_predicted
       {| timestamp_ := 0; sensor_type_ := LASER;
          raw_measurements_ := [1; 0] |} = Some s' /\
     symmetric n_x_ (P_ s') /\ positive_semidefinite n_x_ (P_ s')) /\
  (exists s',
     UpdateRadar uncertain_heading_predicted
       {| timestamp_ := 0; sensor_type_ := RADAR;
          raw_measurements_ := [1; 0; 0] |} = Some s' /\
     symmetric n_x_ (P_ s')).
Proof.
  destruct (covariance_updates uncertain_heading_predicted 0%Z 1 0 0
              uncertain_heading_predicted_ok)
    as (H1 & H2 & H3 & H4).
  split; [exact H1 |]. split; [exact H2 |]. split; [exact H3 |].
  exact (H4 uncertain_heading_defined).
Defined.

(** ** The radar update and the uncertainty *)

(** X14: where the quotients of the radar update are defined (no predicted
    sigma point at the origin, an invertible innovation covariance) and the
    innovation covariance is positive semi-definite, the update never
    increases the uncertainty: the variance of every combination of the state
    components is at most what it was. *)
Theorem radar_update_reduces_uncertainty (s s' : UKF) (m : MeasurementPackage) :
  radar_defined s -> positive_semidefinite n_z_ (Radar_S s) ->
  UpdateRadar s m = Some s' ->
  forall v, quadratic_form n_x_ (P_ s') v <= quadratic_form n_x_ (P_ s) v.
Proof.
  intros _ HS E v. rewrite (UpdateRadar_covariance s s' m E).
  unfold radar_covariance. rewrite radar_quadratic_form.
  pose proof (HS (fun l => sum_upto n_x_ (fun i => Radar_K s i l * v i))) as H.
  lra.
Qed.

Lemma radar_update_reduces_uncertainty_witness :
  exists s',
    UpdateRadar uncertain_heading_predicted simultaneous_radar_measurement
    = Some s' /\
    forall v, quadratic_form n_x_ (P_ s') v
              <= quadratic_form n_x_ (P_ uncertain_heading_predicted) v.
Proof.
  eexists. split; [reflexivity |].
  apply (radar_update_reduces_uncertainty uncertain_heading_predicted _
           simultaneous_radar_measurement).
  - exact uncertain_heading_defined.
  - exact uncertain_heading_innovation_psd.
  - reflexivity.
Defined.

(** X18: when no predicted sigma point lies at the origin, the innovation
    covariance of the radar update is the measurement noise plus a sum that
    can be negative only through the centre sigma point: its quadratic form is
    at least that of the noise minus 4/3 times the square of the component of
    the centre measurement difference along the vector. *)
Theorem innovation_lower_bound (s : UKF) (v : VectorXd) :
  (forall i, (i < n_sig)%nat ->
     radar_range (Xsig_pred_ s 0%nat i) (Xsig_pred_ s 1%nat i) <> 0) ->
  std_radr_ * std_radr_ * (v 0%nat * v 0%nat)
  + std_radphi_ * std_radphi_ * (v 1%nat * v 1%nat)
  + std_radrd_ * std_radrd_ * (v 2%nat * v 2%nat)
  - 4 / 3 * (sum_upto n_z_ (fun r => v r * z_diff s 0 r)
             * sum_upto n_z_ (fun r => v r * z_diff s 0 r))
  <= quadratic_form n_z_ (Radar_S s) v.
Proof.
  intros _.
  rewrite Radar_S_form, innovation_form_weighted_sum.
  set (D := fun i => sum_upto n_z_ (fun r => v r * z_diff s i r)).
  change (sum_upto n_z_ (fun r => v r * z_diff s 0 r)) with (D 0%nat).
  change (sum_upto n_sig
            (fun i => weights_ i
                      * (sum_upto n_z_ (fun r => v r * z_diff s i r)
                         * sum_upto n_z_ (fun r => v r * z_diff s i r))))
    with (sum_upto n_sig (fun i => weights_ i * (D i * D i))).
  expand_sigma_sum.
  pose proof (Rle_0_sqr (D 1%nat)). pose proof (Rle_0_sqr (D 2%nat)).
  pose proof (Rle_0_sqr (D 3%nat)). pose proof (Rle_0_sqr (D 4%nat)).
  pose proof (Rle_0_sqr (D 5%nat)). pose proof (Rle_0_sqr (D 6%nat)).
  pose proof (Rle_0_sqr (D 7%nat)). pose proof (Rle_0_sqr (D 8%nat)).
  pose proof (Rle_0_sqr (D 9%nat)). pose proof (Rle_0_sqr (D 10%nat)).
  pose proof (Rle_0_sqr (D 11%nat)). pose proof (Rle_0_sqr (D 12%nat)).
  pose proof (Rle_0_sqr (D 13%nat)). pose proof (Rle_0_sqr (D 14%nat)).
  unfold Rsqr in *. lra.
Qed.

Lemma innovation_lower_bound_witness :
  std_radr_ * std_radr_ * (vfill 1 0%nat * vfill 1 0%nat)
  + std_radphi_ * std_radphi_ * (vfill 1 1%nat * vfill 1 1%nat)
  + std_radrd_ * std_radrd_ * (vfill 1 2%nat * vfill 1 2%nat)
  - 4 / 3 * (sum_upto n_z_
               (fun r => vfill 1 r * z_diff uncertain_heading_predicted 0 r)
             * sum_upto n_z_
                 (fun r => vfill 1 r * z_diff uncertain_heading_predicted 0 r))
  <= quadratic_form n_z_ (Radar_S uncertain_heading_predicted) (vfill 1).
Proof.
  apply (innovation_lower_bound uncertain_heading_predicted (vfill 1)).
  exact (proj1 uncertain_heading_defined).
Defined.
